(** * RapidPay: relationship, chain and SIR analysis

    A shallow embedding of the analysis engine of
    [Test/Experiments/Paper/experiment_code.py] (classes [TechnicalDebt],
    [SatdRelationship], [Chain], [SatdDetector], [RelationshipAnalyzer],
    [ChainAnalyzer], [SirCalculator], [RecommendationUtilityAnalyzer] and
    the relationship precision of [analyze_project]) and of the scoring,
    tiering and rating code of [docs/tmp/exp22.py].

    Conventions of the embedding:
    - Python [str] is [string]; case folding is the ASCII one.
    - Python [float] and the [int / int] true division are exact rationals
      ([Q]), compared with [==]; rounding of binary floating point is not
      modelled.
    - Python [dict] and [set] are [gmap] and [gset]; where the iteration order
      of a dict is observed (networkx node and adjacency dicts) the order is
      kept in a list.
    - Objects that the code mutates in place live in a store indexed by
      references.
    - What the code draws from outside (random numbers, the replies of the
      chat client, the date) is a parameter of the function that draws it. *)

From Stdlib Require Import Ascii QArith Qround Qminmax Qabs Lqa.
From Stdlib Require String.
From stdpp Require Import gmap strings list sorting pretty.


(** ** Python strings *)

Module PyStr.

(** [c.lower()] on one ASCII character. *)
Definition lower_ascii (c : ascii) : ascii :=
  let n := N_of_ascii c in
  if ((65 <=? n) && (n <=? 90))%N then ascii_of_N (n + 32) else c.

(** [s.lower()] *)
Fixpoint lower (s : string) : string :=
  match s with
  | EmptyString => EmptyString
  | String c s' => String (lower_ascii c) (lower s')
  end.

(** [w in s] for two strings: [w] occurs in [s] as a contiguous block. *)
Fixpoint contains (s w : string) : bool :=
  if String.prefix w s then true
  else match s with
       | EmptyString => false
       | String _ s' => contains s' w
       end.

(** [any(word in content for word in words)] *)
Definition any_in (words : list string) (content : string) : bool :=
  existsb (contains content) words.

(** [sep.join(parts)] *)
Definition join (sep : string) (parts : list string) : string :=
  String.concat sep parts.

(** [s.rfind('/') + 1]: the length of the longest prefix of [s] that ends
    with a slash, 0 when [s] has no slash. *)
Fixpoint rfind_slash_succ (s : string) : nat :=
  match s with
  | EmptyString => 0
  | String c s' =>
      let r := rfind_slash_succ s' in
      if decide (r = 0) then (if decide (c = "/"%char) then 1 else 0) else S r
  end.

Fixpoint take (n : nat) (s : string) : string :=
  match n, s with
  | S n', String c s' => String c (take n' s')
  | _, _ => EmptyString
  end.

Fixpoint all_slash (s : string) : bool :=
  match s with
  | EmptyString => true
  | String c s' => if decide (c = "/"%char) then all_slash s' else false
  end.

(** [s.rstrip('/')] *)
Fixpoint rstrip_slash (s : string) : string :=
  match s with
  | EmptyString => EmptyString
  | String c s' =>
      let r := rstrip_slash s' in
      match r with
      | EmptyString => if decide (c = "/"%char) then EmptyString else String c EmptyString
      | _ => String c r
      end
  end.

(** [os.path.dirname] of [posixpath]:
    [i = p.rfind('/') + 1; head = p[:i];
     if head and head != '/'*len(head): head = head.rstrip('/')]. *)
Definition dirname (p : string) : string :=
  let head := take (rfind_slash_succ p) p in
  if all_slash head then head else rstrip_slash head.

End PyStr.

(** ** Data model *)

(** [TechnicalDebt.sir_components], a dict with four fixed keys. *)
Record SirComponents := mkSirComponents {
  severity : Q;
  outDependencies : nat;
  inDependencies : nat;
  chainLengthFactor : Q
}.

(** [class TechnicalDebt] *)
Record TechnicalDebt := mkTechnicalDebt {
  debt_id : string;
  debt_file : string;
  debt_line : nat;
  debt_content : string;
  debt_description : string;
  debt_type : option string;
  created_commit : option string;
  created_date : option string;
  sir_score : Q;
  sir_components : SirComponents
}.

(** [TechnicalDebt.__init__]; [description or content] takes the content
    when the description is [None] or empty. *)
Definition TechnicalDebt_init (id file : string) (line : nat) (content : string)
    (description : option string) : TechnicalDebt :=
  {| debt_id := id; debt_file := file; debt_line := line; debt_content := content;
     debt_description :=
       match description with
       | Some d => if decide (d = "") then content else d
       | None => content
       end;
     debt_type := None; created_commit := None; created_date := None;
     sir_score := 0;
     sir_components := mkSirComponents 0 0 0 0 |}.

(** [class SatdRelationship] *)
Record SatdRelationship := mkSatdRelationship {
  source_id : string;
  target_id : string;
  types : list string;
  strength : Q;
  description : string;
  chain_ids : list string;
  in_chain : bool
}.

Definition SatdRelationship_init (src tgt : string) (tys : list string)
    (str : Q) (descr : string) : SatdRelationship :=
  {| source_id := src; target_id := tgt; types := tys; strength := str;
     description := descr; chain_ids := []; in_chain := false |}.

(** [class Chain]; [length] is set once, by the constructor. *)
Record Chain := mkChain {
  chain_id : string;
  chain_nodes : list string;
  chain_length : nat
}.

Definition Chain_init (id : string) (nodes : list string) : Chain :=
  {| chain_id := id; chain_nodes := nodes; chain_length := length nodes |}.

(** ** Severity ([SirCalculator._calculate_intrinsic_severity]) *)

Module Severity.

(** The local dict [type_severity]. *)
Definition type_severity : gmap string Q :=
  <["Design" := 8#1]> (<["Architecture" := 9#1]> (<["Defect" := 7#1]>
  (<["Test" := 6#1]> (<["Implementation" := 5#1]> (<["Requirement" := 7#1]>
  (<["Documentation" := 4#1]> (<["Other" := 5#1]> ∅))))))).

(** [type_severity.get(debt.debt_type, 5.0)]; a [debt_type] of [None] is a
    key that the dict does not hold. *)
Definition base_severity (ty : option string) : Q :=
  match ty with
  | Some t => default (5#1) (type_severity !! t)
  | None => 5#1
  end.

(** Python's [max(a, b)] and [min(a, b)] on two numbers: the first argument
    unless the second is strictly better. *)
Definition pymax (a b : Q) : Q := if Qlt_le_dec a b then b else a.
Definition pymin (a b : Q) : Q := if Qlt_le_dec b a then b else a.

Definition _calculate_intrinsic_severity (debt : TechnicalDebt) : Q :=
  let sev := base_severity (debt_type debt) in
  let content := PyStr.lower (debt_content debt) in
  let sev :=
    if PyStr.any_in ["critical"; "blocker"; "urgent"; "security"] content
    then (sev + 2)%Q
    else if PyStr.any_in ["major"; "important"] content
    then (sev + 1)%Q
    else if PyStr.any_in ["minor"; "cosmetic"; "trivial"] content
    then (sev - 2)%Q
    else sev in
  pymax 1 (pymin 10 sev).

End Severity.

(** ** A model of [networkx.DiGraph]

    The external graph library is modelled by what the engine uses of it.
    [G.nodes()] iterates in insertion order, [G[u]] iterates over the
    successors of [u] in the order in which the edges out of [u] were first
    added; adding an edge that exists overwrites its attributes in place. *)

Module nx.

Record EdgeData := mkEdgeData {
  e_types : list string;
  e_strength : Q;
  e_description : string
}.

Record DiGraph := mkDiGraph {
  nodes : list string;
  edges : list (string * string * EdgeData)
}.

(** [nx.DiGraph()] *)
Definition empty : DiGraph := mkDiGraph [] [].

(** [n in G] *)
Definition has_node (g : DiGraph) (n : string) : bool :=
  bool_decide (n ∈ nodes g).

(** [G.add_node(n)], without attributes *)
Definition add_node (g : DiGraph) (n : string) : DiGraph :=
  if has_node g n then g else mkDiGraph (nodes g ++ [n]) (edges g).

(** The attribute dict of [(u, v)] is replaced where the edge exists, and
    the edge is appended where it does not. *)
Fixpoint upsert (u v : string) (d : EdgeData)
    (es : list (string * string * EdgeData)) : list (string * string * EdgeData) :=
  match es with
  | [] => [(u, v, d)]
  | e :: es' =>
      if decide (e.1 = (u, v)) then (u, v, d) :: es' else e :: upsert u v d es'
  end.

(** [G.add_edge(u, v, types=.., strength=.., description=..)]: both
    endpoints become nodes. *)
Definition add_edge (g : DiGraph) (u v : string) (d : EdgeData) : DiGraph :=
  let g' := add_node (add_node g u) v in
  mkDiGraph (nodes g') (upsert u v d (edges g')).

(** [G.has_edge(u, v)] and [G[u][v]] *)
Definition has_edge (g : DiGraph) (u v : string) : Prop :=
  (u, v) ∈ (edges g).*1.



(** [list(G[u])] and [list(G.pred[v])] *)
Definition successors (g : DiGraph) (u : string) : list string :=
  (λ e, e.1.2) <$> filter (λ e, e.1.1 = u) (edges g).

Definition predecessors (g : DiGraph) (v : string) : list string :=
  (λ e, e.1.1) <$> filter (λ e, e.1.2 = v) (edges g).

(** Nodes reached from [s] by at most [n] applications of [step]. *)
Fixpoint reach_within (step : string → list string) (n : nat) (s : string)
    : list string :=
  match n with
  | 0 => [s]
  | S n' =>
      let r := reach_within step n' s in
      remove_dups (r ++ (r ≫= step))
  end.

(** [nx.descendants(G, source)]: the set of the nodes reachable from
    [source], [source] excepted; [NetworkXError] ([None]) when [source] is
    not a node. A node is reached, if at all, along a path that uses no
    edge twice, so as many rounds as there are edges are enough. *)
Definition descendants (g : DiGraph) (source : string) : option (gset string) :=
  if has_node g source
  then Some (list_to_set (reach_within (successors g) (length (edges g)) source)
             ∖ {[source]})
  else None.

(** [nx.ancestors(G, source)] *)
Definition ancestors (g : DiGraph) (source : string) : option (gset string) :=
  if has_node g source
  then Some (list_to_set (reach_within (predecessors g) (length (edges g)) source)
             ∖ {[source]})
  else None.

(** The depth-first search of [all_simple_paths]: [visited] is the path so
    far, which ends in [cur]; [fuel] is the number of edges that may still
    be added. The search does not go through the target. *)
Fixpoint simple_paths_from (g : DiGraph) (target : string) (fuel : nat)
    (visited : list string) (cur : string) : list (list string) :=
  match fuel with
  | 0 => []
  | S fuel' =>
      successors g cur ≫= λ child,
        if decide (child ∈ visited) then []
        else if decide (child = target) then [visited ++ [child]]
        else simple_paths_from g target fuel' (visited ++ [child]) child
  end.

(** [list(nx.all_simple_paths(G, source, target, cutoff))];
    [NodeNotFound] ([None]) when an end is not a node. *)
Definition all_simple_paths (g : DiGraph) (source target : string)
    (cutoff : nat) : option (list (list string)) :=
  if negb (has_node g source) then None
  else if negb (has_node g target) then None
  else if decide (source = target) then Some []
  else Some (simple_paths_from g target cutoff [source] source).

End nx.

(** ** [class RelationshipAnalyzer] *)

Module RelationshipAnalyzer.

(** [self.relationship_strengths] *)
Definition relationship_strengths : gmap string Q :=
  <["call" := 8#10]> (<["data" := 7#10]> (<["control" := 6#10]>
  (<["module" := 9#10]> ∅))).

(** The relationship that an extractor builds for one raw edge of type
    [ty]: [SatdRelationship(source_id, target_id, types=[ty],
    strength=self.relationship_strengths[ty], description)]. *)
Definition raw_relationship (ty src tgt descr : string) : option SatdRelationship :=
  str ← relationship_strengths !! ty;
  Some (SatdRelationship_init src tgt [ty] str descr).

Definition edge_attrs (rel : SatdRelationship) : nx.EdgeData :=
  nx.mkEdgeData (types rel) (strength rel) (description rel).

(** The body of the loop [for rel in all_relationships] of
    [find_all_relationships]. *)
Definition add_relationship (g : nx.DiGraph) (rel : SatdRelationship) : nx.DiGraph :=
  let g := if nx.has_node g (source_id rel) then g else nx.add_node g (source_id rel) in
  let g := if nx.has_node g (target_id rel) then g else nx.add_node g (target_id rel) in
  nx.add_edge g (source_id rel) (target_id rel) (edge_attrs rel).

(** The loop [for rel in all_relationships: ...] that ends
    [find_all_relationships], on [self.graph] and the list it runs over. *)
Definition add_relationships (graph : nx.DiGraph)
    (all_relationships : list SatdRelationship) : nx.DiGraph :=
  foldl add_relationship graph all_relationships.

End RelationshipAnalyzer.

(** ** [class ChainAnalyzer] *)

Module ChainAnalyzer.

(** The graph that [find_chains] builds: a node per debt item, then an
    edge per relationship. *)
Definition build_graph (relationships : list SatdRelationship)
    (debt_items : list TechnicalDebt) : nx.DiGraph :=
  let graph := foldl (λ g debt, nx.add_node g (debt_id debt)) nx.empty debt_items in
  foldl (λ g rel, nx.add_edge g (source_id rel) (target_id rel)
                    (RelationshipAnalyzer.edge_attrs rel))
        graph relationships.

(** The hard-coded [cutoff=20] of the call to [nx.all_simple_paths]. *)
Definition cutoff : nat := 20.

(** The state of the path loops: the chains so far and the next
    [chain_id]. *)
Definition add_path (st : list Chain * nat) (path : list string) : list Chain * nat :=
  if decide (2 ≤ length path)
  then (st.1 ++ [Chain_init ("chain-" +:+ pretty st.2) path], S st.2)
  else st.

Definition scan_pair (graph : nx.DiGraph) (source : string)
    (st : list Chain * nat) (target : string) : list Chain * nat :=
  if decide (source = target) then st
  else match nx.all_simple_paths graph source target cutoff with
       | Some paths => foldl add_path st paths
       | None => st  (* except (nx.NetworkXNoPath, nx.NodeNotFound): continue *)
       end.

(** The candidate chains, before deduplication. *)
Definition candidate_chains (graph : nx.DiGraph) : list Chain :=
  (foldl (λ st source, foldl (scan_pair graph source) st (nx.nodes graph))
         ([], 1) (nx.nodes graph)).1.

(** Deduplication on [",".join(chain.nodes)]. *)
Definition dedup_step (st : list Chain * gset string) (chain : Chain)
    : list Chain * gset string :=
  let path_str := PyStr.join "," (chain_nodes chain) in
  if decide (path_str ∈ st.2) then st
  else (st.1 ++ [chain], {[path_str]} ∪ st.2).

Definition dedup_chains (chains : list Chain) : list Chain :=
  (foldl dedup_step ([], ∅) chains).1.

(** [edge_to_chains]: the ids of the chains in which an edge is a
    consecutive pair, one entry per occurrence. *)
Fixpoint consecutive_pairs (nodes : list string) : list (string * string) :=
  match nodes with
  | a :: (b :: _) as rest => (a, b) :: consecutive_pairs rest
  | _ => []
  end.

Definition edge_to_chains (chains : list Chain) : gmap (string * string) (list string) :=
  foldl (λ m chain,
           foldl (λ m edge, <[edge := default [] (m !! edge) ++ [chain_id chain]]> m)
                 m (consecutive_pairs (chain_nodes chain)))
        ∅ chains.

Definition _enhance_relationships_with_chain_info
    (relationships : list SatdRelationship) (chains : list Chain)
    : list SatdRelationship :=
  let e2c := edge_to_chains chains in
  (λ rel,
     let ids := default [] (e2c !! (source_id rel, target_id rel)) in
     {| source_id := source_id rel; target_id := target_id rel;
        types := types rel; strength := strength rel;
        description := description rel;
        chain_ids := ids; in_chain := bool_decide (0 < length ids) |})
  <$> relationships.

(** [list.sort(key=lambda ch: ch.length, reverse=True)]: a stable sort,
    elements of equal length keep their order. *)
Fixpoint insert_by_length (c : Chain) (l : list Chain) : list Chain :=
  match l with
  | [] => [c]
  | x :: l' =>
      if decide (chain_length c < chain_length x)
      then x :: insert_by_length c l'
      else c :: x :: l'
  end.

Definition sort_by_length_desc (l : list Chain) : list Chain :=
  foldr insert_by_length [] l.

Definition find_chains (relationships : list SatdRelationship)
    (debt_items : list TechnicalDebt) : list SatdRelationship * list Chain :=
  let graph := build_graph relationships debt_items in
  let chains := candidate_chains graph in
  let unique_chains := dedup_chains chains in
  let enhanced_relationships :=
    _enhance_relationships_with_chain_info relationships unique_chains in
  (enhanced_relationships, sort_by_length_desc unique_chains).

(** The dict returned by [calculate_chain_metrics]. *)
Record ChainMetrics := mkChainMetrics {
  average_chain_length : Q;
  maximum_chain_length : nat;
  participation_rate : Q;
  cross_module_chains : Q
}.

(** [a / b] on two Python ints; every call divides by a positive
    number. *)
Definition truediv (a b : nat) : Q :=
  (inject_Z (Z.of_nat a) / inject_Z (Z.of_nat b))%Q.

Definition participating_nodes (chains : list Chain) : gset string :=
  foldl (λ acc chain, acc ∪ list_to_set (chain_nodes chain)) ∅ chains.

(** [{debt.id: debt for debt in debt_items}]: a later item wins. *)
Definition debt_map (debt_items : list TechnicalDebt) : gmap string TechnicalDebt :=
  foldl (λ m debt, <[debt_id debt := debt]> m) ∅ debt_items.

Definition chain_modules (dm : gmap string TechnicalDebt) (chain : Chain) : gset string :=
  foldl (λ modules node_id,
           match dm !! node_id with
           | Some debt => {[PyStr.dirname (debt_file debt)]} ∪ modules
           | None => modules
           end)
        ∅ (chain_nodes chain).

Definition cross_module_count (dm : gmap string TechnicalDebt) (chains : list Chain) : nat :=
  foldl (λ n chain, if decide (1 < size (chain_modules dm chain)) then S n else n)
        0 chains.

Definition calculate_chain_metrics (chains : list Chain)
    (debt_items : list TechnicalDebt) : ChainMetrics :=
  match chains with
  | [] => mkChainMetrics 0 0 0 0
  | _ =>
      let chain_lengths := chain_length <$> chains in
      let avg_chain_length := truediv (sum_list chain_lengths) (length chain_lengths) in
      let max_chain_length := max_list chain_lengths in
      let participation_rate :=
        match debt_items with
        | [] => 0%Q
        | _ => truediv (size (participating_nodes chains)) (length debt_items)
        end in
      let cross_module_rate :=
        truediv (cross_module_count (debt_map debt_items) chains) (length chains) in
      mkChainMetrics avg_chain_length max_chain_length participation_rate cross_module_rate
  end.

End ChainAnalyzer.

(** ** [class SirCalculator] *)

Module SirCalculator.

(** References to Python objects, and the store of the objects that the
    scorer reads and mutates: the [TechnicalDebt] instances and the lists
    that hold references to them. *)
Abbreviation loc := positive.

Record Store := mkStore {
  debts : gmap loc TechnicalDebt;
  lists : gmap loc (list loc)
}.

Definition default_weights : gmap string Q :=
  <["severity" := 4#10]> (<["outgoing" := 3#10]> (<["incoming" := 1#10]>
  (<["chain_length" := 4#10]> ∅))).

(** [self.weights = weights or {...}]: [None] and the empty dict are
    falsy. *)
Definition init (weights : option (gmap string Q)) : gmap string Q :=
  match weights with
  | Some w => if decide (w = ∅) then default_weights else w
  | None => default_weights
  end.

(** [debt_in_chains]: for each node id the chains that hold it, in order,
    one entry per occurrence. *)
Definition debt_in_chains (chains : list Chain) : gmap string (list Chain) :=
  foldl (λ m chain,
           foldl (λ m node_id, <[node_id := default [] (m !! node_id) ++ [chain]]> m)
                 m (chain_nodes chain))
        ∅ chains.

(** [max([chain.length for chain in chains]) if chains else 1] *)
Definition max_chain_length (chains : list Chain) : nat :=
  match chains with
  | [] => 1
  | _ => max_list (chain_length <$> chains)
  end.

Definition _calculate_outgoing_influence (debt_id : string) (graph : nx.DiGraph) : nat :=
  match nx.descendants graph debt_id with
  | Some descendants => size descendants
  | None => 0  (* except (nx.NetworkXError, nx.NodeNotFound) *)
  end.

Definition _calculate_incoming_dependency (debt_id : string) (graph : nx.DiGraph) : nat :=
  match nx.ancestors graph debt_id with
  | Some ancestors => size ancestors
  | None => 0
  end.

Definition _calculate_chain_length_factor (debt_id : string) (chains : list Chain)
    (max_chain_length : nat) : Q :=
  match chains with
  | [] => 0
  | _ =>
      if decide (max_chain_length ≤ 1) then 0
      else
        let longest_chain_length := max_list (chain_length <$> chains) in
        ChainAnalyzer.truediv longest_chain_length max_chain_length
  end.

Definition of_nat (n : nat) : Q := inject_Z (Z.of_nat n).

(** The body of the scoring loop for one debt item: the new [sir_score]
    and [sir_components]; [None] is the [KeyError] of a weights dict that
    lacks a key. *)
Definition score_debt (weights : gmap string Q) (in_chains : gmap string (list Chain))
    (max_len : nat) (graph : nx.DiGraph) (debt : TechnicalDebt)
    : option (Q * SirComponents) :=
  let sev := Severity._calculate_intrinsic_severity debt in
  let outgoing := _calculate_outgoing_influence (debt_id debt) graph in
  let incoming := _calculate_incoming_dependency (debt_id debt) graph in
  let chain_length_factor :=
    _calculate_chain_length_factor (debt_id debt)
      (default [] (in_chains !! debt_id debt)) max_len in
  w_sev ← weights !! "severity";
  w_out ← weights !! "outgoing";
  w_in ← weights !! "incoming";
  w_chain ← weights !! "chain_length";
  Some ((w_sev * sev + w_out * of_nat outgoing - w_in * of_nat incoming
         + w_chain * chain_length_factor)%Q,
        mkSirComponents sev outgoing incoming chain_length_factor).

(** [debt.sir_score = ...; debt.sir_components = {...}] *)
Definition store_score (debt : TechnicalDebt) (r : Q * SirComponents) : TechnicalDebt :=
  {| debt_id := debt_id debt; debt_file := debt_file debt;
     debt_line := debt_line debt; debt_content := debt_content debt;
     debt_description := debt_description debt; debt_type := debt_type debt;
     created_commit := created_commit debt; created_date := created_date debt;
     sir_score := r.1; sir_components := r.2 |}.

(** [for debt in debt_items: ...], on the store of the debt objects. *)
Fixpoint score_loop (weights : gmap string Q) (in_chains : gmap string (list Chain))
    (max_len : nat) (graph : nx.DiGraph) (items : list loc)
    (h : gmap loc TechnicalDebt) : option (gmap loc TechnicalDebt) :=
  match items with
  | [] => Some h
  | ℓ :: rest =>
      debt ← h !! ℓ;
      r ← score_debt weights in_chains max_len graph debt;
      score_loop weights in_chains max_len graph rest (<[ℓ := store_score debt r]> h)
  end.

(** [calculate_sir_scores(debt_items, relationships, chains, graph)]:
    [debt_items] is the reference of the list; the result is the new store
    and the returned reference. *)
Definition calculate_sir_scores (weights : gmap string Q) (σ : Store)
    (debt_items : loc) (relationships : list SatdRelationship)
    (chains : list Chain) (graph : nx.DiGraph) : option (Store * loc) :=
  items ← lists σ !! debt_items;
  h ← score_loop weights (debt_in_chains chains) (max_chain_length chains)
                 graph items (debts σ);
  Some (mkStore h (lists σ), debt_items).

End SirCalculator.

(** ** Tiering ([docs/tmp/exp22.py]) *)

Module Exp22.

(** [round(x, 4)], to the nearest multiple of 1/10000, ties to even. *)
Definition round4 (x : Q) : Q :=
  let y := (x * 10000)%Q in
  let f := Qfloor y in
  let r := (y - inject_Z f)%Q in
  let n :=
    match (r ?= 1#2)%Q with
    | Lt => f
    | Gt => (f + 1)%Z
    | Eq => if Z.even f then f else (f + 1)%Z
    end in
  (inject_Z n / 10000)%Q.

(** [calculate_sir_score(chain_length, num_dependencies, reachability,
    weights=(0.4, 0.3, 0.3))] *)
Definition calculate_sir_score (chain_length num_dependencies reachability : Q)
    (weights : Q * Q * Q) : Q :=
  let '(alpha, beta, gamma) := weights in
  let fanout_normalized := Severity.pymin (num_dependencies / 10) 1 in
  let chain_len_normalized := Severity.pymin (chain_length / 7) 1 in
  let reachability_normalized := Severity.pymin (reachability / 15) 1 in
  round4 (alpha * fanout_normalized + beta * chain_len_normalized
          + gamma * reachability_normalized).

Definition default_weights : Q * Q * Q := (4#10, 3#10, 3#10).

(** The bucket of a score in [generate_complete_dataset]. *)
Definition sir_bucket (sir_score : Q) : string :=
  if Qle_bool (7#10) sir_score then "Top-5"
  else if Qle_bool (4#10) sir_score then "Mid-5"
  else "Bottom-5".

(** [base_rating] of the developer ratings. *)
Definition base_rating (sir_bucket : string) : Z :=
  if decide (sir_bucket = "Top-5") then 5
  else if decide (sir_bucket = "Mid-5") then 3 else 2.

(** [min(5, max(1, base_rating + random.randint(-1, 1)))]; [noise] is the
    value of [random.randint]. *)
Definition rating (sir_bucket : string) (noise : Z) : Z :=
  Z.min 5 (Z.max 1 (base_rating sir_bucket + noise)).

End Exp22.

(** ** More of Python's strings *)

Module PyText.

(** [c.isspace()] on one ASCII character: tab to carriage return, the four
    separators 28 to 31, and the space. *)
Definition is_space (c : ascii) : bool :=
  let n := N_of_ascii c in
  ((9 <=? n) && (n <=? 13) || (28 <=? n) && (n <=? 31) || (n =? 32))%N.

(** [s.lstrip()] *)
Fixpoint lstrip (s : string) : string :=
  match s with
  | EmptyString => EmptyString
  | String c s' => if is_space c then lstrip s' else s
  end.

(** [s.rstrip()] *)
Fixpoint rstrip (s : string) : string :=
  match s with
  | EmptyString => EmptyString
  | String c s' =>
      match rstrip s' with
      | EmptyString => if is_space c then EmptyString else String c EmptyString
      | r => String c r
      end
  end.

(** [s.strip()] *)
Definition strip (s : string) : string := rstrip (lstrip s).

Fixpoint drop (n : nat) (s : string) : string :=
  match n, s with
  | S n', String _ s' => drop n' s'
  | _, _ => s
  end.

(** [s.partition(sep)] without the separator: the text before and the text
    after the first occurrence of [sep], [None] when [sep] does not occur. *)
Fixpoint partition (sep s : string) : option (string * string) :=
  if String.prefix sep s then Some (EmptyString, drop (String.length sep) s)
  else match s with
       | EmptyString => None
       | String c s' =>
           match partition sep s' with
           | Some (before, after) => Some (String c before, after)
           | None => None
           end
       end.

(** [s.split(sep, 1)] *)
Definition split1 (sep s : string) : list string :=
  match partition sep s with
  | Some (before, after) => [before; after]
  | None => [s]
  end.

(** [s.split(sep)[0]]: the first chunk of a split is the text before the
    first occurrence of [sep], all of [s] when there is none. *)
Definition split_head (sep s : string) : string :=
  match partition sep s with
  | Some (before, _) => before
  | None => s
  end.

(** [s.replace(a, b)] for two characters. *)
Fixpoint replace_char (a b : ascii) (s : string) : string :=
  match s with
  | EmptyString => EmptyString
  | String c s' => String (if decide (c = a) then b else c) (replace_char a b s')
  end.

(** [lines[start:stop]] for [0 <= start] and [0 <= stop]. *)
Definition slice {A} (start stop : nat) (l : list A) : list A :=
  take (stop - start) (list.drop start l).

End PyText.

(** ** [class SatdDetector] *)

Module SatdDetector.

(** What one pass through the detector draws from outside: the value of
    [random.random()], the [message.content] of the replies of the chat
    client to the detection and to the classification request, [None] when
    the request raises, and the formatted [datetime.now()]. They are read
    only where the code asks for them. *)
Record Call := mkCall {
  draw : Q;
  satd_reply : option string;
  type_reply : option string;
  now : string
}.

(** [self.debt_indicators] *)
Definition debt_indicators : list string :=
  ["TODO"; "FIXME"; "HACK"; "XXX"; "BUG"; "ISSUE"; "DEBT";
   "temporary solution"; "need to refactor"; "workaround"; "not ideal"].

(** [self.debt_types], in the order of the dict. *)
Definition debt_types : list (string * list string) :=
  [("Design", ["design"; "architectural"; "structure"; "abstract"]);
   ("Implementation", ["implementation"; "inefficient"; "optimize"; "performance"]);
   ("Documentation", ["document"; "comment"; "explain"; "clarify"]);
   ("Defect", ["bug"; "error"; "incorrect"; "wrong"]);
   ("Test", ["test"; "testing"; "validation"; "verify"]);
   ("Requirement", ["requirement"; "specification"; "feature"]);
   ("Architecture", ["architecture"; "component"; "coupling"; "structure"]);
   ("Other", [])].

(** [is_satd(comment)]; [client] tells whether [self.openai_client] is
    set. *)
Definition is_satd (client : bool) (call : Call) (comment : string) : bool :=
  if existsb (λ indicator,
       PyStr.contains (PyStr.lower comment) (PyStr.lower indicator))
       debt_indicators
  then true
  else if client && (if Qlt_le_dec (draw call) (1#10) then true else false)
  then match satd_reply call with
       | Some content =>
           let result := PyStr.lower (PyText.strip content) in
           PyStr.contains result "yes"
       | None => false
       end
  else false.

(** [classify_debt_type(comment, context)] *)
Definition classify_debt_type (client : bool) (call : Call) (comment : string)
    (context : option string) : string :=
  let full_content :=
    PyStr.lower (comment +:+ " " +:+ default EmptyString context) in
  match find (λ entry : string * list string,
          existsb (λ pattern, PyStr.contains full_content (PyStr.lower pattern))
            entry.2) debt_types with
  | Some entry => entry.1
  | None =>
      let other := "Other" in
      if client
      then match type_reply call with
           | Some content =>
               let result := PyText.strip content in
               match find (λ entry : string * list string,
                       PyStr.contains (PyStr.lower result) (PyStr.lower entry.1))
                       debt_types with
               | Some entry => entry.1
               | None => other
               end
           | None => other
           end
      else other
  end.

(** The comment parts of line [i] of [scan_file]; [None] is an
    [IndexError]. *)
Definition comment_parts (lines : list string) (i : nat) (line : string)
    : option (list string) :=
  let has := PyStr.contains line in
  p1 ← (if has "//" then c ← PyText.split1 "//" line !! 1%nat; Some [c]
        else Some []);
  p2 ← (if has "#" then c ← PyText.split1 "#" line !! 1%nat; Some [c]
        else Some []);
  p3 ← (if has "/*" || has "*"
        then if has "/*"
             then c ← PyText.split1 "/*" line !! 1%nat; Some [c]
             else if negb (has "*/") && has "*" && bool_decide (0 < i)%nat
                  then prev ← lines !! (i - 1)%nat;
                       if PyStr.contains prev "/*"
                       then c ← (if negb (has "*/")
                                 then PyText.split1 "*" line !! 1%nat
                                 else c' ← PyText.split1 "*" line !! 1%nat;
                                      Some (PyText.split_head "*/" c'));
                            Some [c]
                       else Some []
                  else Some []
        else Some []);
  Some (p1 ++ p2 ++ p3).

(** The debt item that [scan_file] builds for a comment of line [i]. *)
Definition make_debt (client : bool) (call : Call) (rel_path : string)
    (lines : list string) (i : nat) (comment : string) : TechnicalDebt :=
  let context_start := (i - 5)%nat in
  let context_end := (length lines `min` (i + 6))%nat in
  let context := String.concat EmptyString (PyText.slice context_start context_end lines) in
  let ty := classify_debt_type client call comment (Some context) in
  let id := PyText.replace_char "/" "_" rel_path +:+ "_" +:+ pretty (i + 1)%nat in
  let debt := TechnicalDebt_init id rel_path (i + 1) (PyText.strip comment)
                (Some (PyText.strip comment)) in
  {| debt_id := debt_id debt; debt_file := debt_file debt;
     debt_line := debt_line debt; debt_content := debt_content debt;
     debt_description := debt_description debt;
     debt_type := Some ty;
     created_commit := Some "simulated_commit_hash";
     created_date := Some (now call);
     sir_score := sir_score debt; sir_components := sir_components debt |}.

(** [for comment in comment_parts: if self.is_satd(comment): ...; break]:
    the first part that is SATD, with its position. *)
Fixpoint first_satd (client : bool) (calls : nat → Call) (j : nat)
    (parts : list string) : option (nat * string) :=
  match parts with
  | [] => None
  | comment :: parts' =>
      if is_satd client (calls j) comment then Some (j, comment)
      else first_satd client calls (S j) parts'
  end.

(** The body of the loop over the lines, on [debt_items]; [None] is an
    exception. [calls i j] is what the pass for part [j] of line [i]
    draws. *)
Definition scan_line (client : bool) (calls : nat → nat → Call)
    (rel_path : string) (lines : list string)
    (debt_items : list TechnicalDebt) (i : nat) (line : string)
    : option (list TechnicalDebt) :=
  let has := PyStr.contains line in
  if has "//" || has "#" || has "/*" || has "*"
  then parts ← comment_parts lines i line;
       match first_satd client (calls i) 0 parts with
       | Some (j, comment) =>
           Some (debt_items ++
                 [make_debt client (calls i j) rel_path lines i comment])
       | None => Some debt_items
       end
  else Some debt_items.

(** [for i, line in enumerate(lines): ...] inside the [try]; an exception
    ends the loop, and the items found so far are returned. *)
Fixpoint scan_from (client : bool) (calls : nat → nat → Call)
    (rel_path : string) (lines : list string)
    (debt_items : list TechnicalDebt) (i : nat) (rest : list string)
    : list TechnicalDebt :=
  match rest with
  | [] => debt_items
  | line :: rest' =>
      match scan_line client calls rel_path lines debt_items i line with
      | Some debt_items' =>
          scan_from client calls rel_path lines debt_items' (S i) rest'
      | None => debt_items
      end
  end.

(** [scan_file(file_path, repository_root)]. [rel_path] is [file_path], or
    what [os.path.relpath] made of it; [content] is what [f.readlines()]
    returned, [None] when opening or reading the file raised. *)
Definition scan_file (client : bool) (calls : nat → nat → Call)
    (rel_path : string) (content : option (list string))
    : list TechnicalDebt :=
  match content with
  | Some lines => scan_from client calls rel_path lines [] 0 lines
  | None => []
  end.

End SatdDetector.

(** ** Loops that can raise *)

Module PyLoop.

(** [for i, x in enumerate(l, start): s = body(i, s, x)], where an exception
    ([None]) in the body ends the run. *)
Fixpoint for_each {St A} (body : nat → St → A → option St) (i : nat) (s : St)
    (l : list A) : option St :=
  match l with
  | [] => Some s
  | x :: l' => s' ← body i s x; for_each body (S i) s' l'
  end.

End PyLoop.

(** ** [class RecommendationUtilityAnalyzer] *)

Module RecommendationUtilityAnalyzer.

(** The three base values of a project category. *)
Record BaseValues := mkBaseValues {
  usefulness : Q;
  acceptance : Q;
  implementation : Q
}.

(** The local dict [category_base_values]. *)
Definition category_base_values : gmap string BaseValues :=
  <["Libs./Framework" := mkBaseValues (37#10) (74#100) (40#100)]>
  (<["Apps." := mkBaseValues (42#10) (83#100) (52#100)]>
  (<["Tools" := mkBaseValues (40#10) (80#100) (46#100)]> ∅)).

(** The returned dict. *)
Record Utility := mkUtility {
  usefulness_rating : Q;
  acceptance_rate : Q;
  implementation_rate : Q
}.

(** [analyze_recommendations(debt_items, project_category)]; [noise] holds
    the three values of [random.uniform], in the order of the calls; [None]
    is a [KeyError]. *)
Definition analyze_recommendations (noise : Q * Q * Q)
    (debt_items : list TechnicalDebt) (project_category : string)
    : option Utility :=
  fallback ← category_base_values !! "Libs./Framework";
  let base_values := default fallback (category_base_values !! project_category) in
  let usefulness :=
    Severity.pymax 1 (Severity.pymin 5 (usefulness base_values + noise.1.1)) in
  let acceptance :=
    Severity.pymax 0 (Severity.pymin 1 (acceptance base_values + noise.1.2)) in
  let implementation :=
    Severity.pymax 0 (Severity.pymin 1 (implementation base_values + noise.2)) in
  Some (mkUtility usefulness acceptance implementation).

End RecommendationUtilityAnalyzer.

(** ** The relationship precision of [analyze_project] (step 7) *)

Module Validation.

Definition rel_types : list string := ["call"; "data"; "control"; "module"].

(** [{"call": 0, "data": 0, "control": 0, "module": 0}] *)
Definition zero_counts : gmap string nat :=
  <["call" := 0%nat]> (<["data" := 0%nat]> (<["control" := 0%nat]>
  (<["module" := 0%nat]> ∅))).

Definition zero_precision : gmap string Q :=
  <["call" := 0%Q]> (<["data" := 0%Q]> (<["control" := 0%Q]>
  (<["module" := 0%Q]> ∅))).

(** The truth value of [expected_rel_precision]: the dict, unless it is
    [None] or empty. *)
Definition truthy (expected : option (gmap string Q)) : option (gmap string Q) :=
  match expected with
  | Some e => if decide (e = ∅) then None else Some e
  | None => None
  end.

(** The body of [for rel_type in rel.types]; the state is
    [(total_per_type, valid_per_type)], [draw] is [random.random()]. *)
Definition validate_type (expected : option (gmap string Q)) (draw : Q)
    (counts : gmap string nat * gmap string nat) (rel_type : string)
    : option (gmap string nat * gmap string nat) :=
  let total_per_type :=
    <[rel_type := (default 0 (counts.1 !! rel_type) + 1)%nat]> counts.1 in
  base_precision ← match truthy expected with
                   | Some e => e !! rel_type
                   | None => Some (9#10)
                   end;
  let is_valid := if Qlt_le_dec draw base_precision then true else false in
  Some (total_per_type,
        if is_valid
        then <[rel_type := (default 0 (counts.2 !! rel_type) + 1)%nat]> counts.2
        else counts.2).

(** [for rel in enhanced_relationships: for rel_type in rel.types: ...];
    [draws i j] is the draw for type [j] of relationship [i]. *)
Definition count_valid (expected : option (gmap string Q)) (draws : nat → nat → Q)
    (enhanced_relationships : list SatdRelationship)
    : option (gmap string nat * gmap string nat) :=
  PyLoop.for_each (λ i counts rel,
              PyLoop.for_each (λ j counts rel_type,
                          validate_type expected (draws i j) counts rel_type)
                0 counts (types rel))
    0 (zero_counts, zero_counts) enhanced_relationships.

(** The body of the loop that calculates the precision. *)
Definition ratio (counts : gmap string nat * gmap string nat)
    (rel_precision : gmap string Q) (rel_type : string) : option (gmap string Q) :=
  total ← counts.1 !! rel_type;
  if decide (0 < total)
  then valid ← counts.2 !! rel_type;
       Some (<[rel_type := ChainAnalyzer.truediv valid total]> rel_precision)
  else Some (<[rel_type := 0%Q]> rel_precision).

(** The body of the loop that compares with the expected values; [noise] is
    [random.uniform(-0.02, 0.02)]. *)
Definition adjust (expected : option (gmap string Q)) (noise : nat → Q) (k : nat)
    (rel_precision : gmap string Q) (rel_type : string) : option (gmap string Q) :=
  match truthy expected with
  | Some e =>
      expected ← e !! rel_type;
      actual ← rel_precision !! rel_type;
      if Qlt_le_dec (5#100) (Qabs (actual - expected))
      then Some (<[rel_type := (expected + noise k)%Q]> rel_precision)
      else Some rel_precision
  | None => Some rel_precision
  end.

(** The [rel_precision] of the results; [expected] is
    [EXPECTED_RESULTS["relationship_precision"].get(project["name"])]. *)
Definition relationship_precision (expected : option (gmap string Q))
    (draws : nat → nat → Q) (noise : nat → Q)
    (enhanced_relationships : list SatdRelationship) : option (gmap string Q) :=
  counts ← count_valid expected draws enhanced_relationships;
  rel_precision ← PyLoop.for_each (λ _, ratio counts) 0 zero_precision rel_types;
  PyLoop.for_each (adjust expected noise) 0 rel_precision rel_types.

End Validation.

(** ** [RelationshipAnalyzer.analyze_call_dependencies] *)

Module CallDependencies.

(** [if debt.file not in debt_by_file: debt_by_file[debt.file] = [];
    debt_by_file[debt.file].append(debt)], on the dict in its insertion
    order. *)
Fixpoint add_debt (debt_by_file : list (string * list TechnicalDebt))
    (debt : TechnicalDebt) : list (string * list TechnicalDebt) :=
  match debt_by_file with
  | [] => [(debt_file debt, [debt])]
  | (file, debts) :: rest =>
      if decide (file = debt_file debt) then (file, debts ++ [debt]) :: rest
      else (file, debts) :: add_debt rest debt
  end.

Definition group_by_file (debt_items : list TechnicalDebt)
    : list (string * list TechnicalDebt) :=
  foldl add_debt [] debt_items.

(** The values of [random.random()]: [file_draw a b] for the pair of the
    files at positions [a] and [b] of the dict, [module_draw a b i j] and
    [call_draw a b i j] for the debts at positions [i] and [j] of their
    lists. *)
Record Draws := mkDraws {
  file_draw : nat → nat → Q;
  module_draw : nat → nat → nat → nat → Q;
  call_draw : nat → nat → nat → nat → Q
}.

(** [f"Call dependency: {source_debt.file}:{source_debt.line} calls method
    in {target_debt.file}:{target_debt.line}"] *)
Definition call_description (source_debt target_debt : TechnicalDebt) : string :=
  "Call dependency: " +:+ debt_file source_debt +:+ ":"
  +:+ pretty (debt_line source_debt) +:+ " calls method in "
  +:+ debt_file target_debt +:+ ":" +:+ pretty (debt_line target_debt).

(** The body of [for target_debt in target_debts]. The description of the
    module relationship names [source_module] and [target_module], which
    the function does not define: evaluating it raises a [NameError]
    ([None]). *)
Definition pair_body (draws : Draws) (a b i j : nat)
    (source_debt target_debt : TechnicalDebt)
    (relationships : list SatdRelationship) : option (list SatdRelationship) :=
  if decide (debt_id source_debt = debt_id target_debt) then Some relationships
  else if Qlt_le_dec (module_draw draws a b i j) (25#100) then None
  else if decide (debt_id source_debt = debt_id target_debt) then Some relationships
  else if Qlt_le_dec (call_draw draws a b i j) (2#10)
  then rel ← RelationshipAnalyzer.raw_relationship "call"
               (debt_id source_debt) (debt_id target_debt)
               (call_description source_debt target_debt);
       Some (relationships ++ [rel])
  else Some relationships.

(** The body of [for target_file, target_debts in debt_by_file.items()]. *)
Definition file_pair_body (draws : Draws) (a b : nat)
    (source target : string * list TechnicalDebt)
    (relationships : list SatdRelationship) : option (list SatdRelationship) :=
  if decide (source.1 = target.1) then Some relationships
  else if Qlt_le_dec (3#10) (file_draw draws a b) then Some relationships
  else PyLoop.for_each (λ i relationships source_debt,
         PyLoop.for_each (λ j relationships target_debt,
           pair_body draws a b i j source_debt target_debt relationships)
           0 relationships target.2)
         0 relationships source.2.

(** [analyze_call_dependencies(debt_items, project_path)] *)
Definition analyze_call_dependencies (draws : Draws)
    (debt_items : list TechnicalDebt) : option (list SatdRelationship) :=
  let debt_by_file := group_by_file debt_items in
  PyLoop.for_each (λ a relationships source,
    PyLoop.for_each (λ b relationships target,
      file_pair_body draws a b source target relationships)
      0 relationships debt_by_file)
    0 [] debt_by_file.

End CallDependencies.

(** ** The chains of the generated data set ([docs/tmp/exp22.py]) *)

Module Exp22Chains.

(** A SATD instance, a dict with five keys. *)
Record Satd := mkSatd {
  satd_project : string;
  satd_comment : string;
  satd_file : string;
  satd_type : string;
  satd_category : string
}.

(** A chain, a dict with four keys. *)
Record ChainRecord := mkChainRecord {
  rec_chain_id : string;
  rec_project : string;
  rec_chain_length : nat;
  satd_instances : list Satd
}.

(** [if project not in by_project: by_project[project] = [];
    by_project[project].append(satd)], on the dict in its insertion
    order. *)
Fixpoint add_satd (by_project : list (string * list Satd)) (satd : Satd)
    : list (string * list Satd) :=
  match by_project with
  | [] => [(satd_project satd, [satd])]
  | (project, satds) :: rest =>
      if decide (project = satd_project satd) then (project, satds ++ [satd]) :: rest
      else (project, satds) :: add_satd rest satd
  end.

Definition group_by_project (all_satd_instances : list Satd)
    : list (string * list Satd) :=
  foldl add_satd [] all_satd_instances.

(** [f'CH{chain_id:03d}']: the number, filled with zeros to three
    digits. *)
Definition chain_label (chain_id : nat) : string :=
  let digits := pretty chain_id in
  "CH" +:+ String.concat EmptyString (replicate (3 - String.length digits) "0")
  +:+ digits.

(** The [while i < len(project_satds)] loop, on [(chains, chain_id)];
    [choices i] is the value of [random.choices(...)[0]] in the pass that
    starts at [i]. Every pass but a breaking one moves [i] forward, so
    [len(project_satds)] passes are enough; [fuel] counts them. *)
Fixpoint chain_loop (fuel : nat) (choices : nat → nat) (project : string)
    (project_satds : list Satd) (i : nat) (st : list ChainRecord * nat)
    : list ChainRecord * nat :=
  match fuel with
  | 0 => st
  | S fuel' =>
      if decide (i < length project_satds)
      then let chain_length := choices i `min` (length project_satds - i) in
           if decide (chain_length = 0) then st
           else let chain_satds := PyText.slice i (i + chain_length) project_satds in
                chain_loop fuel' choices project project_satds (i + chain_length)
                  (st.1 ++ [mkChainRecord (chain_label st.2) project chain_length
                              chain_satds],
                   S st.2)
      else st
  end.

(** The body of [for project, project_satds in by_project.items()], for the
    project at position [p] of the dict; [shuffle p] is what
    [random.shuffle] makes of its list. *)
Definition project_chains (shuffle : nat → list Satd → list Satd)
    (choices : nat → nat → nat) (p : nat) (st : list ChainRecord * nat)
    (entry : string * list Satd) : list ChainRecord * nat :=
  let project_satds := shuffle p entry.2 in
  chain_loop (length project_satds) (choices p) entry.1 project_satds 0 st.

Fixpoint each_project (shuffle : nat → list Satd → list Satd)
    (choices : nat → nat → nat) (p : nat) (st : list ChainRecord * nat)
    (by_project : list (string * list Satd)) : list ChainRecord * nat :=
  match by_project with
  | [] => st
  | entry :: rest =>
      each_project shuffle choices (S p)
        (project_chains shuffle choices p st entry) rest
  end.

(** [generate_chains(all_satd_instances)] *)
Definition generate_chains (shuffle : nat → list Satd → list Satd)
    (choices : nat → nat → nat) (all_satd_instances : list Satd)
    : list ChainRecord :=
  (each_project shuffle choices 0 ([], 1)
     (group_by_project all_satd_instances)).1.

End Exp22Chains.

(** ** [RelationshipAnalyzer.find_all_relationships] *)

Module FindAllRelationships.

(** [self.analyze_data_dependencies(debt_items, project_path)]. The class
    defines [__init__], [analyze_call_dependencies] and
    [find_all_relationships] only: the [def]s of this name and of the next
    two stand after the call of [main()], inside
    [if __name__ == "__main__":], and are no attributes of the class. The
    lookup of the name on [self] raises an [AttributeError] ([None]) before
    anything is called. *)
Definition analyze_data_dependencies (debt_items : list TechnicalDebt)
    : option (list SatdRelationship) := None.

(** [self.analyze_control_flow_dependencies(debt_items, project_path)] *)
Definition analyze_control_flow_dependencies (debt_items : list TechnicalDebt)
    : option (list SatdRelationship) := None.

(** [self.analyze_module_dependencies(debt_items, project_path)] *)
Definition analyze_module_dependencies (debt_items : list TechnicalDebt)
    : option (list SatdRelationship) := None.

(** [find_all_relationships(debt_items, project_path)]; [graph] is
    [self.graph] and [draws] what the call extractor draws. The result is
    the new [self.graph] and the returned list, [None] an exception. *)
Definition find_all_relationships (graph : nx.DiGraph)
    (draws : CallDependencies.Draws) (debt_items : list TechnicalDebt)
    : option (nx.DiGraph * list SatdRelationship) :=
  call_rel ← CallDependencies.analyze_call_dependencies draws debt_items;
  data_rel ← analyze_data_dependencies debt_items;
  control_rel ← analyze_control_flow_dependencies debt_items;
  module_rel ← analyze_module_dependencies debt_items;
  let all_relationships := call_rel ++ data_rel ++ control_rel ++ module_rel in
  Some (RelationshipAnalyzer.add_relationships graph all_relationships,
        all_relationships).

End FindAllRelationships.

(** ** Vocabulary of the specification

    Definitions that follow the words of the specification; the properties
    below compare the code with them. *)

Module Spec.

(** The eight debt types; any other value of [debt_type] counts as
    [Other]. *)
Inductive DebtKind :=
| Architecture | Design | Defect | Requirement
| Test | Implementation | Other | Documentation.

Definition kind_of (ty : option string) : DebtKind :=
  match ty with
  | None => Other
  | Some t =>
      if decide (t = "Architecture") then Architecture
      else if decide (t = "Design") then Design
      else if decide (t = "Defect") then Defect
      else if decide (t = "Requirement") then Requirement
      else if decide (t = "Test") then Test
      else if decide (t = "Implementation") then Implementation
      else if decide (t = "Documentation") then Documentation
      else Other
  end.

Definition kind_base (k : DebtKind) : Q :=
  match k with
  | Architecture => 9 | Design => 8 | Defect => 7 | Requirement => 7
  | Test => 6 | Implementation => 5 | Other => 5 | Documentation => 4
  end.

(** The content contains one of the words, letter case ignored. *)
Definition mentions (content : string) (words : list string) : Prop :=
  ∃ w pre mid suf, w ∈ words ∧ content = pre +:+ mid +:+ suf
                   ∧ PyStr.lower mid = PyStr.lower w.

Definition clamp (x : Q) : Q := Qmax 1 (Qmin 10 x).

Definition critical_words : list string := ["critical"; "blocker"; "urgent"; "security"].
Definition major_words : list string := ["major"; "important"].
Definition minor_words : list string := ["minor"; "cosmetic"; "trivial"].

(** A node sequence follows the edges of [graph]: every consecutive pair is
    an edge. *)
Definition follows_edges (graph : nx.DiGraph) (nodes : list string) : Prop :=
  ∀ u v, (u, v) ∈ ChainAnalyzer.consecutive_pairs nodes → nx.has_edge graph u v.

(** A simple path: no node is repeated. *)
Definition simple_path (graph : nx.DiGraph) (nodes : list string) : Prop :=
  NoDup nodes ∧ follows_edges graph nodes.

Definition edge_count (nodes : list string) : nat := length nodes - 1.

(** A simple path with at least 2 nodes and at most [max_hops] edges; its
    ends are then two distinct nodes. *)
Definition bounded_chain (graph : nx.DiGraph) (max_hops : nat)
    (nodes : list string) : Prop :=
  simple_path graph nodes ∧ 2 ≤ length nodes ∧ edge_count nodes ≤ max_hops.

(** The default [max_hops] of the specification. *)
Definition default_max_hops : nat := 5.

(** [t] is reached from [s] along edges. *)
Definition reaches (graph : nx.DiGraph) (s t : string) : Prop :=
  rtc (nx.has_edge graph) s t.

(** The order of the specification on chains: a longer chain first; among
    chains of equal length the node sequences in lexicographic order of the
    node ids, which compares the first node ids first. *)
Fixpoint lex_le (a b : list string) : Prop :=
  match a, b with
  | [], _ => True
  | _ :: _, [] => False
  | x :: a', y :: b' => String.ltb x y = true ∨ (x = y ∧ lex_le a' b')
  end.

Definition chain_before (c1 c2 : Chain) : Prop :=
  chain_length c2 < chain_length c1
  ∨ (chain_length c1 = chain_length c2 ∧ lex_le (chain_nodes c1) (chain_nodes c2)).

(** The order that the code sorts by: length alone. *)
Definition longer_or_equal (c1 c2 : Chain) : Prop :=
  chain_length c2 ≤ chain_length c1.






(** A relationship between two different ids of [known]. *)
Definition well_formed_edge (known : list string) (r : SatdRelationship) : Prop :=
  source_id r ≠ target_id r ∧ source_id r ∈ known ∧ target_id r ∈ known.

(** The five attributes that describe an instance. *)
Definition same_identity (d d' : TechnicalDebt) : Prop :=
  debt_id d' = debt_id d ∧ debt_file d' = debt_file d ∧ debt_line d' = debt_line d
  ∧ debt_content d' = debt_content d ∧ debt_type d' = debt_type d.

(** The invariant of the graph object: nodes and edges are keys of dicts,
    and the ends of an edge are nodes. *)
Definition graph_ok (g : nx.DiGraph) : Prop :=
  NoDup (nx.nodes g) ∧ NoDup (nx.edges g).*1
  ∧ ∀ a b, nx.has_edge g a b → a ∈ nx.nodes g ∧ b ∈ nx.nodes g.

(** A chain as the constructor of [Chain] makes it: [length] is the number
    of its nodes. *)
Definition constructed (c : Chain) : Prop :=
  chain_length c = length (chain_nodes c).

(** A node sequence whose consecutive nodes are related by [E]. *)
Definition linked (E : string → string → Prop) (nodes : list string) : Prop :=
  ∀ u v, (u, v) ∈ ChainAnalyzer.consecutive_pairs nodes → E u v.

(** A weights dict that holds the four keys that the scorer reads. *)
Definition weights_complete (w : gmap string Q) : Prop :=
  is_Some (w !! "severity") ∧ is_Some (w !! "outgoing")
  ∧ is_Some (w !! "incoming") ∧ is_Some (w !! "chain_length").

(** [l] refers to a list whose items refer to debt instances. *)
Definition valid_refs (σ : SirCalculator.Store) (l : SirCalculator.loc)
    (refs : list SirCalculator.loc) : Prop :=
  SirCalculator.lists σ !! l = Some refs
  ∧ ∀ ℓ, ℓ ∈ refs → is_Some (SirCalculator.debts σ !! ℓ).

(** The attributes of an instance other than its scores. *)
Definition same_but_scores (d d' : TechnicalDebt) : Prop :=
  same_identity d d' ∧ debt_description d' = debt_description d
  ∧ created_commit d' = created_commit d ∧ created_date d' = created_date d.

(** An id without a comma, the separator of the deduplication key. *)
Definition comma_free (s : string) : Prop := PyStr.contains s "," = false.

(** [text] is what follows the first occurrence of [marker] in [line]. *)
Definition after_first (marker line text : string) : Prop :=
  ∃ pre, line = pre +:+ marker +:+ text
         ∧ ∀ pre' text', line = pre' +:+ marker +:+ text' →
             String.length pre ≤ String.length pre'.

(** Part [j] of the comment parts of [line], line [i] of [lines], is the
    first that the detector takes for SATD. *)
Definition first_satd_part (client : bool) (calls : nat → nat → SatdDetector.Call)
    (lines : list string) (i : nat) (line : string) (j : nat) (comment : string)
    : Prop :=
  ∃ parts, SatdDetector.comment_parts lines i line = Some parts
    ∧ parts !! j = Some comment
    ∧ SatdDetector.is_satd client (calls i j) comment = true
    ∧ ∀ j' c', j' < j → parts !! j' = Some c' →
        SatdDetector.is_satd client (calls i j') c' = false.

End Spec.

(** ** Sample corpora *)

Module Examples.

Definition debt (id file content : string) : TechnicalDebt :=
  TechnicalDebt_init id file 1 content None.

Definition call_edge (s t : string) : SatdRelationship :=
  SatdRelationship_init s t ["call"] (8#10) "Call dependency".

Definition module_edge (s t : string) : SatdRelationship :=
  SatdRelationship_init s t ["module"] (9#10) "Module dependency".

(** Seven instances in a line, [n0 -> n1 -> ... -> n6]. *)
Definition line7_items : list TechnicalDebt :=
  (λ id, debt id "src/a.py" "TODO") <$> ["n0"; "n1"; "n2"; "n3"; "n4"; "n5"; "n6"].

Definition line7_rels : list SatdRelationship :=
  [call_edge "n0" "n1"; call_edge "n1" "n2"; call_edge "n2" "n3";
   call_edge "n3" "n4"; call_edge "n4" "n5"; call_edge "n5" "n6"].

(** Two instances [B], [A], in this order, that depend on each other. *)
Definition ba_items : list TechnicalDebt :=
  [debt "B" "src/b.py" "FIXME"; debt "A" "src/a.py" "TODO"].

Definition ba_rels : list SatdRelationship :=
  [call_edge "B" "A"; call_edge "A" "B"].

(** Scenario A: [A -> B -> C -> D]. *)
Definition abcd_items : list TechnicalDebt :=
  (λ id, debt id "src/a.py" "TODO") <$> ["A"; "B"; "C"; "D"].

Definition abcd_rels : list SatdRelationship :=
  [call_edge "A" "B"; call_edge "B" "C"; call_edge "C" "D"].

(** The same ordered pair found by the call and by the module extractor. *)
Definition ab_call : list SatdRelationship := [call_edge "A" "B"].

(** The chain [A -> B]. *)
Definition ab_chains : list Chain := [Chain_init "chain-1" ["A"; "B"]].



(** A store with two instances, at references 1 and 2, and the list
    [[1; 2]] at reference 3. *)
Definition store2 : SirCalculator.Store :=
  SirCalculator.mkStore
    (<[1%positive := debt "A" "src/a.py" "TODO: critical rewrite"]>
       (<[2%positive := debt "B" "lib/b.py" "FIXME minor"]> ∅))
    (<[3%positive := [1%positive; 2%positive]]> ∅).

(** One known instance [A] and a relationship between two other ids. *)
Definition orphan_items : list TechnicalDebt := [debt "A" "src/a.py" "TODO"].
Definition orphan_rels : list SatdRelationship := [call_edge "X" "Y"].

End Examples.

(** * Properties *)

(** ** Strings *)

Section strings.

Lemma app_nil (b : string) : "" +:+ b = b.
Proof. reflexivity. Qed.

Lemma app_cons (x : ascii) (a b : string) : String x a +:+ b = String x (a +:+ b).
Proof. reflexivity. Qed.

Lemma prefix_app (w s : string) :
  String.prefix w s = true ↔ ∃ suf, s = w +:+ suf.
Proof.
  revert s. induction w as [|c w IH]; intros s.
  - destruct s; simpl; split; eauto.
  - destruct s as [|c' s]; simpl.
    + split; [done | intros [suf Hs]; by rewrite app_cons in Hs].
    + destruct (Ascii.ascii_dec c c') as [->|Hne].
      * rewrite IH. split; intros [suf Hs]; exists suf; rewrite ?app_cons in *; congruence.
      * split; [done | intros [suf Hs]; rewrite app_cons in Hs; congruence].
Qed.

Lemma contains_unfold (s w : string) :
  PyStr.contains s w =
  if String.prefix w s then true
  else match s with EmptyString => false | String _ s' => PyStr.contains s' w end.
Proof. by destruct s. Qed.

Lemma contains_app (s w : string) :
  PyStr.contains s w = true ↔ ∃ pre suf, s = pre +:+ w +:+ suf.
Proof.
  induction s as [|c s IH]; rewrite contains_unfold;
    (destruct (String.prefix w _) eqn:Hp;
     [apply prefix_app in Hp as [suf ?]; split; [|done]; intros _; by exists "", suf|]).
  - split; [done|]. intros ([|x pre] & suf & Heq); [|done].
    rewrite app_nil in Heq. assert (String.prefix w "" = true); [|congruence].
    apply prefix_app; eauto.
  - rewrite IH. split.
    + intros (pre & suf & ->). by exists (String c pre), suf.
    + intros ([|x pre] & suf & Heq).
      * rewrite app_nil in Heq.
        assert (String.prefix w (String c s) = true); [|congruence].
        apply prefix_app; eauto.
      * rewrite app_cons in Heq. injection Heq as -> ->. eauto.
Qed.

Lemma lower_app (a b : string) :
  PyStr.lower (a +:+ b) = PyStr.lower a +:+ PyStr.lower b.
Proof.
  induction a as [|c a IH]; [done|].
  rewrite app_cons. simpl. rewrite app_cons. congruence.
Qed.

Lemma lower_split (s a b : string) :
  PyStr.lower s = a +:+ b →
  ∃ a' b', s = a' +:+ b' ∧ PyStr.lower a' = a ∧ PyStr.lower b' = b.
Proof.
  revert s. induction a as [|c a IH]; intros s Hs.
  - by exists "", s.
  - rewrite app_cons in Hs. destruct s as [|c' s]; simpl in Hs; [done|].
    injection Hs as Hc Hs. apply IH in Hs as (a' & b' & -> & <- & <-).
    exists (String c' a'), b'. by rewrite <- Hc.
Qed.

(** The keyword test of the code against the wording of the
    specification, for lower-case keywords. *)
Lemma any_in_mentions (words : list string) (content : string) :
  Forall (λ w, PyStr.lower w = w) words →
  PyStr.any_in words (PyStr.lower content) = true ↔ Spec.mentions content words.
Proof.
  intros Hlow. unfold PyStr.any_in, Spec.mentions.
  rewrite existsb_exists. rewrite Forall_forall in Hlow.
  split.
  - intros (w & Hw%list_elem_of_In & Hc). apply contains_app in Hc as (pre & suf & Heq).
    apply lower_split in Heq as (pre' & rest & -> & _ & Hrest).
    apply lower_split in Hrest as (mid & suf' & -> & Hmid & _).
    exists w, pre', mid, suf'. rewrite (Hlow w Hw). done.
  - intros (w & pre & mid & suf & Hw & -> & Hmid).
    exists w. split; [by apply list_elem_of_In|].
    apply contains_app. exists (PyStr.lower pre), (PyStr.lower suf).
    rewrite !lower_app, Hmid, (Hlow w Hw). done.
Qed.

End strings.

(** ** Severity *)

Section severity.

Import Severity.
Local Open Scope Q_scope.

Lemma clamp_python (x : Q) : pymax 1 (pymin 10 x) == Spec.clamp x.
Proof.
  unfold pymax, pymin, Spec.clamp.
  destruct (Q.min_spec 10 x) as [[? Hmin]|[? Hmin]];
    destruct (Q.max_spec 1 (Qmin 10 x)) as [[? Hmax]|[? Hmax]];
    rewrite Hmax; repeat destruct Qlt_le_dec; lra.
Qed.

Lemma clamp_bounds (x : Q) : 1 <= Spec.clamp x ∧ Spec.clamp x <= 10.
Proof.
  unfold Spec.clamp.
  destruct (Q.min_spec 10 x) as [[? Hmin]|[? Hmin]];
    destruct (Q.max_spec 1 (Qmin 10 x)) as [[? Hmax]|[? Hmax]];
    rewrite Hmax; lra.
Qed.

(** The dict lookup with its default is the table of the specification,
    unknown types counting as [Other]. *)
Lemma base_severity_kind (ty : option string) :
  base_severity ty = Spec.kind_base (Spec.kind_of ty).
Proof.
  destruct ty as [t|]; [|done]. unfold Spec.kind_of, base_severity.
  repeat case_decide; subst; try reflexivity.
  destruct (decide (t = "Other")) as [->|]; [reflexivity|].
  unfold type_severity. rewrite !lookup_insert_ne by congruence. by rewrite lookup_empty.
Qed.

Lemma words_lower :
  Forall (λ w, PyStr.lower w = w) Spec.critical_words
  ∧ Forall (λ w, PyStr.lower w = w) Spec.major_words
  ∧ Forall (λ w, PyStr.lower w = w) Spec.minor_words.
Proof. repeat split; repeat constructor. Qed.

(** C6. The severity of an instance is the base value of its debt type
    (unknown types counting as [Other], 5), plus 2 when the content
    mentions a critical word, else plus 1 for a major word, else minus 2
    for a minor word, clamped to the range from 1 to 10; an [Architecture]
    debt whose content mentions "critical" has severity 10. *)
Theorem severity_by_type_and_keywords (debt : TechnicalDebt) :
  let s := _calculate_intrinsic_severity debt in
  let b := Spec.kind_base (Spec.kind_of (debt_type debt)) in
  let c := debt_content debt in
  (Spec.mentions c Spec.critical_words → s == Spec.clamp (b + 2))
  ∧ (¬ Spec.mentions c Spec.critical_words → Spec.mentions c Spec.major_words →
     s == Spec.clamp (b + 1))
  ∧ (¬ Spec.mentions c Spec.critical_words → ¬ Spec.mentions c Spec.major_words →
     Spec.mentions c Spec.minor_words → s == Spec.clamp (b - 2))
  ∧ (¬ Spec.mentions c Spec.critical_words → ¬ Spec.mentions c Spec.major_words →
     ¬ Spec.mentions c Spec.minor_words → s == Spec.clamp b)
  ∧ (debt_type debt = Some "Architecture" → Spec.mentions c ["critical"] → s == 10)
  ∧ 1 <= s ∧ s <= 10.
Proof.
  intros s b c. subst s b c. unfold _calculate_intrinsic_severity.
  rewrite base_severity_kind.
  destruct words_lower as (Hc & Hm & Hn).
  pose proof (any_in_mentions _ (debt_content debt) Hc) as Ec.
  pose proof (any_in_mentions _ (debt_content debt) Hm) as Em.
  pose proof (any_in_mentions _ (debt_content debt) Hn) as En.
  fold Spec.critical_words Spec.major_words Spec.minor_words.
  set (kb := Spec.kind_base _).
  assert (Harch : debt_type debt = Some "Architecture" →
                  Spec.mentions (debt_content debt) ["critical"] →
                  Spec.mentions (debt_content debt) Spec.critical_words ∧ kb = 9).
  { intros Hty (w & pre & mid & suf & Hw & Heq & Hlow). split.
    - exists w, pre, mid, suf. split; [|done].
      apply list_elem_of_singleton in Hw as ->. by left.
    - subst kb. by rewrite Hty. }
  destruct (PyStr.any_in Spec.critical_words _) eqn:Kc;
    [|destruct (PyStr.any_in Spec.major_words _) eqn:Km;
      [|destruct (PyStr.any_in Spec.minor_words _) eqn:Kn]];
    rewrite clamp_python;
    repeat match goal with
           | H : true = true ↔ _ |- _ => destruct H as [H _]; specialize (H eq_refl)
           | H : false = true ↔ ?P |- _ =>
               let N := fresh "N" in
               assert (N : ¬ P) by (let X := fresh in intros X; apply H in X; discriminate X);
               clear H
           end.
  all: repeat split; try tauto; try apply clamp_bounds.
  all: intros Hty Hcrit; destruct (Harch Hty Hcrit) as [? Hkb]; try tauto.
  rewrite Hkb. reflexivity.
Qed.

Lemma severity_by_type_and_keywords_witness :
  _calculate_intrinsic_severity
    (TechnicalDebt_init "a_py_1" "a.py" 1 "Critical: split this module" None) == 7.
Proof.
  refine (Qeq_trans _ _ _
            (proj1 (severity_by_type_and_keywords
                      (TechnicalDebt_init "a_py_1" "a.py" 1
                         "Critical: split this module" None)) _) _).
  - exists "critical", "", "Critical", ": split this module".
    split; [by left | split; reflexivity].
  - reflexivity.
Defined.

End severity.

(** ** Tiering *)

Section tiering.

Import Exp22.
Local Open Scope Q_scope.

Lemma pymin_unit (x : Q) : 0 <= x → 0 <= Severity.pymin x 1 <= 1.
Proof. intros Hx. unfold Severity.pymin. destruct Qlt_le_dec; lra. Qed.

(** Rounding to four decimals keeps a number between 0 and 1 there. *)
Lemma round4_unit (x : Q) : 0 <= x <= 1 → 0 <= round4 x <= 1.
Proof.
  intros [H0 H1]. unfold round4.
  set (y := x * 10000). set (f := Qfloor y).
  assert (Hy0 : 0 <= y) by (subst y; lra).
  assert (Hy1 : y <= 10000) by (subst y; lra).
  assert (Hf0 : (0 <= f)%Z) by (apply (Qfloor_resp_le 0 y Hy0)).
  assert (Hfy : inject_Z f <= y) by apply Qfloor_le.
  assert (Hn : ∀ n : Z, (0 <= n <= 10000)%Z → 0 <= inject_Z n / 10000 <= 1).
  { intros n [Hn0 Hn1]. rewrite Zle_Qle in Hn0, Hn1.
    change (inject_Z 0) with 0 in Hn0. change (inject_Z 10000) with 10000 in Hn1.
    split.
    - apply Qle_shift_div_l; lra.
    - apply Qle_shift_div_r; lra. }
  assert (Hf1 : (f <= 10000)%Z) by (apply (Qfloor_resp_le y 10000 Hy1)).
  assert (Hhalf : 1 # 2 <= y - inject_Z f → (f + 1 <= 10000)%Z).
  { intros Hr. destruct (Z.eq_dec f 10000%Z) as [Heq|Hne]; [|lia].
    rewrite Heq in Hr. change (inject_Z 10000) with 10000 in Hr. lra. }
  destruct (y - inject_Z f ?= 1 # 2) eqn:Hcmp; apply Hn.
  - apply Qeq_alt in Hcmp. destruct (Z.even f); [lia|].
    split; [lia|]. apply Hhalf. lra.
  - lia.
  - apply Qgt_alt in Hcmp. split; [lia|]. apply Hhalf. lra.
Qed.

(** The score that is bucketed is normalized: with the default weights and
    non-negative inputs it lies between 0 and 1. *)
Lemma calculate_sir_score_unit (chain_length num_dependencies reachability : Q) :
  0 <= chain_length → 0 <= num_dependencies → 0 <= reachability →
  0 <= calculate_sir_score chain_length num_dependencies reachability default_weights <= 1.
Proof.
  intros Hc Hd Hr. unfold calculate_sir_score, default_weights.
  apply round4_unit.
  assert (H1 : 0 <= num_dependencies / 10) by (apply Qle_shift_div_l; lra).
  assert (H2 : 0 <= chain_length / 7) by (apply Qle_shift_div_l; lra).
  assert (H3 : 0 <= reachability / 15) by (apply Qle_shift_div_l; lra).
  apply pymin_unit in H1, H2, H3. lra.
Qed.

(** C9. The tier follows from fixed thresholds on the score: at least 0.7
    gives the top tier, from 0.4 up to 0.7 the middle tier, below 0.4 the
    bottom tier; 0.75, 0.45 and 0.1 fall in the top, middle and bottom
    tier. *)
Theorem tier_by_thresholds (s : Q) :
  (7#10 <= s → sir_bucket s = "Top-5")
  ∧ (4#10 <= s → s < 7#10 → sir_bucket s = "Mid-5")
  ∧ (s < 4#10 → sir_bucket s = "Bottom-5")
  ∧ sir_bucket (75#100) = "Top-5"
  ∧ sir_bucket (45#100) = "Mid-5"
  ∧ sir_bucket (1#10) = "Bottom-5".
Proof.
  unfold sir_bucket. repeat split; try reflexivity.
  - intros H. apply Qle_bool_iff in H. by rewrite H.
  - intros H1 H2. apply Qle_bool_iff in H1. rewrite H1.
    destruct (Qle_bool (7#10) s) eqn:E; [|done].
    apply Qle_bool_iff in E. lra.
  - intros H.
    destruct (Qle_bool (7#10) s) eqn:E1; [apply Qle_bool_iff in E1; lra|].
    destruct (Qle_bool (4#10) s) eqn:E2; [apply Qle_bool_iff in E2; lra|done].
Qed.

Lemma tier_by_thresholds_witness : sir_bucket (5#10) = "Mid-5".
Proof.
  apply (proj1 (proj2 (tier_by_thresholds (5#10)))); [discriminate | reflexivity].
Defined.

End tiering.

(** ** The graph model *)

Section graph.

Implicit Types (g : nx.DiGraph) (u v n : string) (d : nx.EdgeData).

Lemma has_node_true g n : nx.has_node g n = true ↔ n ∈ nx.nodes g.
Proof. unfold nx.has_node. apply bool_decide_eq_true. Qed.

Lemma nodes_add_node g n n' :
  n' ∈ nx.nodes (nx.add_node g n) ↔ n' ∈ nx.nodes g ∨ n' = n.
Proof.
  unfold nx.add_node. destruct (nx.has_node g n) eqn:E; simpl.
  - apply has_node_true in E. split; [auto | intros [?| ->]; done].
  - rewrite elem_of_app, list_elem_of_singleton. done.
Qed.

Lemma edges_add_node g n : nx.edges (nx.add_node g n) = nx.edges g.
Proof. unfold nx.add_node. by destruct (nx.has_node g n). Qed.

Lemma NoDup_add_node g n : NoDup (nx.nodes g) → NoDup (nx.nodes (nx.add_node g n)).
Proof.
  intros Hnd. unfold nx.add_node. destruct (nx.has_node g n) eqn:E; simpl; [done|].
  apply NoDup_app. split_and!; [done | | apply NoDup_singleton].
  intros x Hx ->%list_elem_of_singleton.
  apply has_node_true in Hx. congruence.
Qed.

Lemma upsert_keys u v d (es : list (string * string * nx.EdgeData)) (k : string * string) :
  k ∈ (nx.upsert u v d es).*1 ↔ k ∈ es.*1 ∨ k = (u, v).
Proof.
  induction es as [|e es IH]; simpl.
  - rewrite list_elem_of_singleton. split; [auto | intros [H| ->]; [inversion H | done]].
  - case_decide as He; simpl; rewrite !elem_of_cons.
    + rewrite He. tauto.
    + rewrite IH. tauto.
Qed.

Lemma NoDup_upsert u v d (es : list (string * string * nx.EdgeData)) :
  NoDup es.*1 → NoDup (nx.upsert u v d es).*1.
Proof.
  induction es as [|e es IH]; simpl; intros Hnd.
  - apply NoDup_singleton.
  - apply NoDup_cons in Hnd as [Hnot Hnd]. case_decide as He; simpl.
    + rewrite <- He. by apply NoDup_cons.
    + apply NoDup_cons. split; [|auto].
      rewrite upsert_keys. intros [?| ?]; done.
Qed.

Lemma has_edge_add_edge g u v d a b :
  nx.has_edge (nx.add_edge g u v d) a b ↔ nx.has_edge g a b ∨ (a = u ∧ b = v).
Proof.
  unfold nx.has_edge, nx.add_edge. simpl.
  rewrite upsert_keys, !edges_add_node. split; intros [?|H]; auto.
  - right. by injection H.
  - right. by destruct H as [-> ->].
Qed.

Lemma nodes_add_edge g u v d n :
  n ∈ nx.nodes (nx.add_edge g u v d) ↔ n ∈ nx.nodes g ∨ n = u ∨ n = v.
Proof. unfold nx.add_edge. simpl. rewrite !nodes_add_node. tauto. Qed.

Lemma graph_ok_empty : Spec.graph_ok nx.empty.
Proof.
  split_and!; simpl; try apply NoDup_nil_2.
  intros a b H. unfold nx.has_edge in H. simpl in H. inversion H.
Qed.

Lemma graph_ok_add_node g n : Spec.graph_ok g → Spec.graph_ok (nx.add_node g n).
Proof.
  intros (Hn & He & Hin). split_and!.
  - by apply NoDup_add_node.
  - by rewrite edges_add_node.
  - intros a b Hab. unfold nx.has_edge in Hab. rewrite edges_add_node in Hab.
    rewrite !nodes_add_node. destruct (Hin a b Hab). auto.
Qed.

Lemma graph_ok_add_edge g u v d : Spec.graph_ok g → Spec.graph_ok (nx.add_edge g u v d).
Proof.
  intros Hok. split_and!.
  - unfold nx.add_edge. simpl. apply NoDup_add_node, NoDup_add_node, Hok.
  - unfold nx.add_edge. simpl. apply NoDup_upsert.
    rewrite !edges_add_node. apply Hok.
  - intros a b [Hab|[-> ->]]%has_edge_add_edge; rewrite !nodes_add_edge.
    + destruct Hok as (_ & _ & Hin). destruct (Hin a b Hab). auto.
    + auto.
Qed.

Lemma successors_has_edge g u v : v ∈ nx.successors g u ↔ nx.has_edge g u v.
Proof.
  unfold nx.successors, nx.has_edge. rewrite !list_elem_of_fmap. split.
  - intros (e & -> & He). apply list_elem_of_filter in He as [Hu He].
    exists e. split; [|done]. destruct e as [[a b] x]. simpl in *. by subst.
  - intros (e & Heq & He). exists e. destruct e as [[a b] x]. simpl in *.
    injection Heq as -> ->. split; [done|]. by apply list_elem_of_filter.
Qed.

Lemma predecessors_has_edge g u v : u ∈ nx.predecessors g v ↔ nx.has_edge g u v.
Proof.
  unfold nx.predecessors, nx.has_edge. rewrite !list_elem_of_fmap. split.
  - intros (e & -> & He). apply list_elem_of_filter in He as [Hu He].
    exists e. split; [|done]. destruct e as [[a b] x]. simpl in *. by subst.
  - intros (e & Heq & He). exists e. destruct e as [[a b] x]. simpl in *.
    injection Heq as -> ->. split; [done|]. by apply list_elem_of_filter.
Qed.

End graph.

(** ** Enumeration of simple paths *)

Section paths.

Implicit Types (g : nx.DiGraph) (p rest visited : list string) (s t : string).

Lemma follows_edges_cons g a b p :
  Spec.follows_edges g (a :: b :: p)
  ↔ nx.has_edge g a b ∧ Spec.follows_edges g (b :: p).
Proof.
  unfold Spec.follows_edges.
  change (ChainAnalyzer.consecutive_pairs (a :: b :: p))
    with ((a, b) :: ChainAnalyzer.consecutive_pairs (b :: p)).
  split.
  - intros H. split; [apply H; left|intros u v Huv; apply H; by right].
  - intros [Hab H] u v [Heq|Huv]%elem_of_cons; [by injection Heq as -> ->|auto].
Qed.

Lemma follows_edges_single g a : Spec.follows_edges g [a].
Proof. intros u v H. inversion H. Qed.

Lemma follows_edges_app_r g p q : Spec.follows_edges g (p ++ q) → Spec.follows_edges g q.
Proof.
  induction p as [|a p IH]; [done|]. intros H. apply IH.
  destruct p as [|b p]; simpl in *.
  - destruct q as [|b q]; [intros u v Hx; inversion Hx|].
    by apply follows_edges_cons in H as [_ H].
  - by apply follows_edges_cons in H as [_ H].
Qed.

Lemma consecutive_pairs_elem p u v :
  (u, v) ∈ ChainAnalyzer.consecutive_pairs p → u ∈ p ∧ v ∈ p.
Proof.
  induction p as [|a [|b p] IH]; try (intros H; by inversion H).
  change (ChainAnalyzer.consecutive_pairs (a :: b :: p))
    with ((a, b) :: ChainAnalyzer.consecutive_pairs (b :: p)).
  intros [Heq|H]%elem_of_cons.
  - injection Heq as -> ->. split; [left | right; left].
  - destruct (IH H). split; by right.
Qed.

(** The search returns the simple extensions of [visited] that end in the
    target and add at most [fuel] edges. *)
Lemma simple_paths_from_spec g t fuel visited cur p :
  p ∈ nx.simple_paths_from g t fuel visited cur
  ↔ ∃ rest, p = visited ++ rest ∧ rest ≠ [] ∧ length rest ≤ fuel
            ∧ Spec.follows_edges g (cur :: rest) ∧ NoDup rest
            ∧ (∀ x, x ∈ rest → x ∉ visited) ∧ last rest = Some t.
Proof.
  revert visited cur p. induction fuel as [|fuel IH]; intros visited cur p; simpl.
  - split; [intros H; inversion H|].
    intros (rest & _ & Hne & Hlen & _). destruct rest; simpl in *; [done | lia].
  - rewrite list_elem_of_bind. split.
    + intros (child & Hp & Hchild). apply successors_has_edge in Hchild.
      case_decide as Hvis; [inversion Hp|].
      case_decide as Ht.
      * apply list_elem_of_singleton in Hp as ->. subst child.
        exists [t]. split_and!; simpl; try done; try lia.
        -- apply follows_edges_cons. split; [done | apply follows_edges_single].
        -- apply NoDup_singleton.
        -- by intros x ->%list_elem_of_singleton.
      * apply IH in Hp as (rest & -> & Hne & Hlen & Hfol & Hnd & Hfresh & Hlast).
        exists (child :: rest). split_and!; simpl; try done; try lia.
        -- by rewrite <- app_assoc.
        -- apply follows_edges_cons. done.
        -- apply NoDup_cons. split; [|done]. intros Hin.
           apply (Hfresh child Hin). apply elem_of_app. right. left.
        -- intros x [->|Hx]%elem_of_cons; [done|].
           intros Hv. apply (Hfresh x Hx). apply elem_of_app. by left.
        -- destruct rest; done.
    + intros (rest & -> & Hne & Hlen & Hfol & Hnd & Hfresh & Hlast).
      destruct rest as [|child rest]; [done|].
      exists child. destruct rest as [|b rest].
      * apply follows_edges_cons in Hfol as [Hedge _].
        split; [|by apply successors_has_edge].
        rewrite decide_False by (apply Hfresh; left).
        simpl in Hlast. injection Hlast as ->.
        rewrite decide_True by done. left.
      * apply follows_edges_cons in Hfol as [Hedge Hfol].
        split; [|by apply successors_has_edge].
        rewrite decide_False by (apply Hfresh; left).
        apply NoDup_cons in Hnd as [Hnot Hnd].
        assert (Hlast' : last (b :: rest) = Some t) by done.
        rewrite decide_False.
        2:{ intros ->. apply Hnot. by apply last_Some_elem_of. }
        apply IH. exists (b :: rest). split_and!; try done.
        -- by rewrite <- app_assoc.
        -- simpl in *. lia.
        -- intros x Hx [Hv| ->%list_elem_of_singleton]%elem_of_app.
           ++ apply (Hfresh x); [by right | done].
           ++ done.
Qed.

End paths.

(** ** The graph and the candidate chains of [find_chains] *)

Section chains.

Implicit Types (g : nx.DiGraph) (p : list string) (s t : string).
Implicit Types (rels : list SatdRelationship) (items : list TechnicalDebt).

Lemma fold_add_node_nodes items g n :
  n ∈ nx.nodes (foldl (λ g debt, nx.add_node g (debt_id debt)) g items)
  ↔ n ∈ nx.nodes g ∨ ∃ debt, debt ∈ items ∧ debt_id debt = n.
Proof.
  revert g. induction items as [|d items IH]; intros g; simpl.
  - split; [auto | intros [?|(? & H & _)]; [done | inversion H]].
  - rewrite IH, nodes_add_node. split.
    + intros [[?| ->]|(d' & ? & ?)]; eauto.
      * right. exists d. split; [left | done].
      * right. exists d'. split; [by right | done].
    + intros [?|(d' & [->|?]%elem_of_cons & ?)]; eauto.
Qed.

Lemma fold_add_node_edges items g :
  nx.edges (foldl (λ g debt, nx.add_node g (debt_id debt)) g items) = nx.edges g.
Proof.
  revert g. induction items as [|d items IH]; intros g; simpl; [done|].
  by rewrite IH, edges_add_node.
Qed.

Lemma fold_add_node_ok items g :
  Spec.graph_ok g → Spec.graph_ok (foldl (λ g debt, nx.add_node g (debt_id debt)) g items).
Proof.
  revert g. induction items as [|d items IH]; intros g Hok; simpl; [done|].
  by apply IH, graph_ok_add_node.
Qed.

Lemma fold_add_edge_has_edge rels g a b :
  nx.has_edge (foldl (λ g rel, nx.add_edge g (source_id rel) (target_id rel)
                                 (RelationshipAnalyzer.edge_attrs rel)) g rels) a b
  ↔ nx.has_edge g a b ∨ ∃ rel, rel ∈ rels ∧ source_id rel = a ∧ target_id rel = b.
Proof.
  revert g. induction rels as [|r rels IH]; intros g; simpl.
  - split; [auto | intros [?|(? & H & _)]; [done | inversion H]].
  - rewrite IH, has_edge_add_edge. split.
    + intros [[?|[-> ->]]|(r' & ? & ?)]; eauto.
      * right. exists r. split; [left | done].
      * right. exists r'. split; [by right | done].
    + intros [?|(r' & [->|?]%elem_of_cons & <- & <-)]; eauto.
Qed.

Lemma fold_add_edge_nodes rels g n :
  n ∈ nx.nodes (foldl (λ g rel, nx.add_edge g (source_id rel) (target_id rel)
                                  (RelationshipAnalyzer.edge_attrs rel)) g rels)
  ↔ n ∈ nx.nodes g ∨ ∃ rel, rel ∈ rels ∧ (n = source_id rel ∨ n = target_id rel).
Proof.
  revert g. induction rels as [|r rels IH]; intros g; simpl.
  - split; [auto | intros [?|(? & H & _)]; [done | inversion H]].
  - rewrite IH, nodes_add_edge. split.
    + intros [[?|Hn]|(r' & ? & ?)]; eauto.
      * right. exists r. split; [left | done].
      * right. exists r'. split; [by right | done].
    + intros [?|(r' & [->|?]%elem_of_cons & Hn)]; eauto; left; by right.
Qed.

Lemma fold_add_edge_ok rels g :
  Spec.graph_ok g →
  Spec.graph_ok (foldl (λ g rel, nx.add_edge g (source_id rel) (target_id rel)
                                   (RelationshipAnalyzer.edge_attrs rel)) g rels).
Proof.
  revert g. induction rels as [|r rels IH]; intros g Hok; simpl; [done|].
  by apply IH, graph_ok_add_edge.
Qed.

Lemma build_graph_ok rels items : Spec.graph_ok (ChainAnalyzer.build_graph rels items).
Proof. apply fold_add_edge_ok, fold_add_node_ok, graph_ok_empty. Qed.

(** The edges of the graph of [find_chains] are the ordered pairs that the
    relationships relate. *)
Lemma build_graph_has_edge rels items a b :
  nx.has_edge (ChainAnalyzer.build_graph rels items) a b
  ↔ ∃ rel, rel ∈ rels ∧ source_id rel = a ∧ target_id rel = b.
Proof.
  unfold ChainAnalyzer.build_graph. rewrite fold_add_edge_has_edge.
  unfold nx.has_edge at 1. rewrite fold_add_node_edges. simpl.
  split; [intros [H|?]; [inversion H | done] | auto].
Qed.

(** Its nodes are the ids of the debt items and the ends of the
    relationships. *)
Lemma build_graph_nodes rels items n :
  n ∈ nx.nodes (ChainAnalyzer.build_graph rels items)
  ↔ (∃ debt, debt ∈ items ∧ debt_id debt = n)
    ∨ ∃ rel, rel ∈ rels ∧ (n = source_id rel ∨ n = target_id rel).
Proof.
  unfold ChainAnalyzer.build_graph. rewrite fold_add_edge_nodes, fold_add_node_nodes.
  simpl. split; [intros [[H|?]|?]; [inversion H | auto | auto] | intros [?|?]; auto].
Qed.

Lemma follows_edges_last g a rest t :
  Spec.follows_edges g (a :: rest) → last rest = Some t → ∃ y, nx.has_edge g y t.
Proof.
  revert a. induction rest as [|b rest IH]; intros a Hfol Hlast; [done|].
  apply follows_edges_cons in Hfol as [Hab Hfol].
  destruct rest as [|c rest].
  - injection Hlast as <-. eauto.
  - eapply IH; [exact Hfol | done].
Qed.

(** [all_simple_paths] on a node pair of the graph: the simple paths from
    the source to the target with at most [cutoff] edges. *)
Lemma all_simple_paths_spec g s t cutoff p :
  s ∈ nx.nodes g → t ∈ nx.nodes g → s ≠ t →
  p ∈ default [] (nx.all_simple_paths g s t cutoff)
  ↔ Spec.bounded_chain g cutoff p ∧ head p = Some s ∧ last p = Some t.
Proof.
  intros Hs Ht Hst. unfold nx.all_simple_paths.
  apply has_node_true in Hs, Ht. rewrite Hs, Ht. simpl.
  rewrite decide_False by done. simpl.
  rewrite simple_paths_from_spec. unfold Spec.bounded_chain, Spec.simple_path. split.
  - intros (rest & -> & Hne & Hlen & Hfol & Hnd & Hfresh & Hlast).
    split_and!; simpl; try done.
    + apply NoDup_cons. split; [|done]. intros Hin.
      apply (Hfresh s Hin). left.
    + destruct rest; simpl; [done | lia].
    + unfold Spec.edge_count. simpl. lia.
    + destruct rest; done.
  - intros (((Hnd & Hfol) & Hlen & Hcnt) & Hhead & Hlast).
    destruct p as [|a rest]; [done|]. injection Hhead as ->.
    exists rest. apply NoDup_cons in Hnd as [Hnot Hnd].
    unfold Spec.edge_count in Hcnt. simpl in *.
    split_and!; try done; try lia.
    + intros ->. simpl in Hlen. lia.
    + by intros x Hx ->%list_elem_of_singleton.
    + destruct rest; [simpl in Hlen; lia | done].
Qed.

End chains.

Section candidates.

Import ChainAnalyzer.

Implicit Types (g : nx.DiGraph) (p : list string) (s t : string).
Implicit Types (st : list Chain * nat).

Lemma fold_add_path st paths p :
  p ∈ chain_nodes <$> (foldl add_path st paths).1
  ↔ p ∈ chain_nodes <$> st.1 ∨ (p ∈ paths ∧ 2 ≤ length p).
Proof.
  revert st. induction paths as [|q paths IH]; intros st; simpl.
  - split; [auto | intros [?|[H _]]; [done | inversion H]].
  - rewrite IH. unfold add_path. case_decide as Hq; simpl.
    + rewrite fmap_app, elem_of_app. simpl. rewrite list_elem_of_singleton, elem_of_cons.
      split; [intros [[?| ->]|[? ?]]; auto | intros [?|[[->|?] ?]]; auto].
    + rewrite elem_of_cons. split; [intros [?|[? ?]]; auto|].
      intros [?|[[->|?] ?]]; auto. lia.
Qed.

Lemma fold_add_path_constructed st paths :
  Forall Spec.constructed st.1 → Forall Spec.constructed (foldl add_path st paths).1.
Proof.
  revert st. induction paths as [|q paths IH]; intros st Hst; simpl; [done|].
  apply IH. unfold add_path. case_decide; simpl; [|done].
  apply Forall_app. split; [done|]. by repeat constructor.
Qed.

Lemma scan_pair_elem g s st t p :
  p ∈ chain_nodes <$> (scan_pair g s st t).1
  ↔ p ∈ chain_nodes <$> st.1
    ∨ (s ≠ t ∧ p ∈ default [] (nx.all_simple_paths g s t cutoff) ∧ 2 ≤ length p).
Proof.
  unfold scan_pair. case_decide as Hst.
  - split; [auto | intros [?|[? _]]; done].
  - destruct (nx.all_simple_paths g s t cutoff) as [paths|]; simpl.
    + rewrite fold_add_path. tauto.
    + split; [auto | intros [?|(_ & H & _)]; [done | inversion H]].
Qed.

Lemma scan_pair_constructed g s st t :
  Forall Spec.constructed st.1 → Forall Spec.constructed (scan_pair g s st t).1.
Proof.
  intros Hst. unfold scan_pair. case_decide; [done|].
  destruct (nx.all_simple_paths g s t cutoff); [|done].
  by apply fold_add_path_constructed.
Qed.

Lemma scan_targets_elem g s st ts p :
  p ∈ chain_nodes <$> (foldl (scan_pair g s) st ts).1
  ↔ p ∈ chain_nodes <$> st.1
    ∨ ∃ t, t ∈ ts ∧ s ≠ t
           ∧ p ∈ default [] (nx.all_simple_paths g s t cutoff) ∧ 2 ≤ length p.
Proof.
  revert st. induction ts as [|t ts IH]; intros st; simpl.
  - split; [auto | intros [?|(? & H & _)]; [done | inversion H]].
  - rewrite IH, scan_pair_elem. split.
    + intros [[?|?]|(t' & ? & ?)]; auto.
      * right. exists t. split; [left | done].
      * right. exists t'. split; [by right | done].
    + intros [?|(t' & [->|?]%elem_of_cons & ?)]; eauto.
Qed.

Lemma scan_targets_constructed g s st ts :
  Forall Spec.constructed st.1 → Forall Spec.constructed (foldl (scan_pair g s) st ts).1.
Proof.
  revert st. induction ts as [|t ts IH]; intros st Hst; simpl; [done|].
  by apply IH, scan_pair_constructed.
Qed.

Lemma scan_sources_elem g st ss ts p :
  p ∈ chain_nodes <$> (foldl (λ st source, foldl (scan_pair g source) st ts) st ss).1
  ↔ p ∈ chain_nodes <$> st.1
    ∨ ∃ s t, s ∈ ss ∧ t ∈ ts ∧ s ≠ t
             ∧ p ∈ default [] (nx.all_simple_paths g s t cutoff) ∧ 2 ≤ length p.
Proof.
  revert st. induction ss as [|s ss IH]; intros st; simpl.
  - split; [auto | intros [?|(? & ? & H & _)]; [done | inversion H]].
  - rewrite IH, scan_targets_elem. split.
    + intros [[?|(t & ? & ?)]|(s' & t & ? & ?)]; auto.
      * right. exists s, t. split; [left | done].
      * right. exists s', t. split; [by right | done].
    + intros [?|(s' & t & [->|?]%elem_of_cons & ?)]; eauto 8.
Qed.

Lemma scan_sources_constructed g st ss ts :
  Forall Spec.constructed st.1 →
  Forall Spec.constructed
    (foldl (λ st source, foldl (scan_pair g source) st ts) st ss).1.
Proof.
  revert st. induction ss as [|s ss IH]; intros st Hst; simpl; [done|].
  by apply IH, scan_targets_constructed.
Qed.

Lemma candidate_chains_constructed g : Forall Spec.constructed (candidate_chains g).
Proof. apply scan_sources_constructed. constructor. Qed.

(** The candidate chains of a graph are its simple paths with at least two
    nodes and at most [cutoff] edges. *)
Lemma candidate_chains_spec g p :
  Spec.graph_ok g →
  p ∈ chain_nodes <$> candidate_chains g ↔ Spec.bounded_chain g cutoff p.
Proof.
  intros (_ & _ & Hin). unfold candidate_chains. rewrite scan_sources_elem. simpl.
  split.
  - intros [H|(s & t & Hs & Ht & Hst & Hp & _)]; [inversion H|].
    by apply all_simple_paths_spec in Hp as [? _].
  - intros Hp. right.
    pose proof Hp as ((Hnd & Hfol) & Hlen & Hcnt).
    destruct p as [|s [|b rest]]; simpl in Hlen; try lia.
    assert (is_Some (last (b :: rest))) as [t Hlast] by by apply last_is_Some.
    destruct (follows_edges_last g s (b :: rest) t Hfol Hlast) as [y Hy%Hin].
    pose proof Hfol as [[Hs _]%Hin _]%follows_edges_cons.
    assert (s ≠ t).
    { intros ->. apply NoDup_cons in Hnd as [Hnot _].
      apply Hnot. by apply last_Some_elem_of. }
    destruct Hy as [_ Ht].
    exists s, t. split_and!; try done; try (simpl; lia).
    by apply all_simple_paths_spec.
Qed.

End candidates.

(** C3. The candidate chains of [find_chains] are exactly the simple paths
    of its graph with at least 2 nodes and at most 20 edges, the cutoff that
    the code passes to the path enumeration; their ends are two distinct
    nodes. *)
Theorem candidate_chains_bounded_by_cutoff
    (rels : list SatdRelationship) (items : list TechnicalDebt) (p : list string) :
  p ∈ chain_nodes <$> ChainAnalyzer.candidate_chains (ChainAnalyzer.build_graph rels items)
  ↔ Spec.bounded_chain (ChainAnalyzer.build_graph rels items) 20 p.
Proof.
  pose proof (build_graph_ok rels items) as Hok.
  split; intros H.
  - by apply candidate_chains_spec in H.
  - by apply candidate_chains_spec.
Qed.

(** C3, as stated, fails: on a line of seven instances a candidate chain has
    six edges, more than the default [max_hops] of 5. *)
Lemma candidate_chain_longer_than_max_hops :
  ¬ (∀ c, c ∈ ChainAnalyzer.candidate_chains
               (ChainAnalyzer.build_graph Examples.line7_rels Examples.line7_items) →
          Spec.edge_count (chain_nodes c) ≤ Spec.default_max_hops).
Proof.
  intros H.
  assert (Hin : ["n0"; "n1"; "n2"; "n3"; "n4"; "n5"; "n6"]
                ∈ chain_nodes <$> ChainAnalyzer.candidate_chains
                    (ChainAnalyzer.build_graph Examples.line7_rels Examples.line7_items)).
  { apply (bool_decide_unpack _). vm_compute. exact I. }
  apply list_elem_of_fmap in Hin as (c & Hc & Hin).
  apply H in Hin. rewrite <- Hc in Hin. vm_compute in Hin. lia.
Qed.

(** ** Deduplication and sorting *)

Section dedup_sort.

Import ChainAnalyzer.

Implicit Types (c : Chain) (l chains : list Chain).

Lemma dedup_fold_inv (st : list Chain * gset string) chains :
  (∀ x, x ∈ st.2 ↔ x ∈ (λ c, PyStr.join "," (chain_nodes c)) <$> st.1) →
  NoDup ((λ c, PyStr.join "," (chain_nodes c)) <$> st.1) →
  NoDup ((λ c, PyStr.join "," (chain_nodes c)) <$> (foldl dedup_step st chains).1).
Proof.
  revert st. induction chains as [|c chains IH]; intros st Hset Hnd; simpl; [done|].
  apply IH; unfold dedup_step; case_decide as Hseen; simpl; try done.
  - intros x. rewrite elem_of_union, elem_of_singleton, fmap_app, elem_of_app, Hset.
    simpl. rewrite list_elem_of_singleton. tauto.
  - rewrite fmap_app. apply NoDup_app. split_and!; [done | | apply NoDup_singleton].
    intros x Hx ->%list_elem_of_singleton. apply Hseen, Hset, Hx.
Qed.

Lemma dedup_fold_sub (st : list Chain * gset string) chains c :
  c ∈ (foldl dedup_step st chains).1 → c ∈ st.1 ∨ c ∈ chains.
Proof.
  revert st. induction chains as [|c' chains IH]; intros st; simpl; [auto|].
  intros [Hc|Hc]%IH; [|right; by right].
  unfold dedup_step in Hc. case_decide; simpl in Hc; [auto|].
  apply elem_of_app in Hc as [?| ->%list_elem_of_singleton]; [auto | right; left].
Qed.

(** No two deduplicated chains have the same joined string, hence none the
    same node sequence. *)
Lemma dedup_chains_NoDup chains : NoDup (chain_nodes <$> dedup_chains chains).
Proof.
  apply (NoDup_fmap_1 (PyStr.join ",")). rewrite <- list_fmap_compose.
  apply dedup_fold_inv; simpl; [|apply NoDup_nil_2].
  intros x. split; intros H; [by apply not_elem_of_empty in H | inversion H].
Qed.

Lemma dedup_chains_sub chains c : c ∈ dedup_chains chains → c ∈ chains.
Proof. intros [H|H]%dedup_fold_sub; [inversion H | done]. Qed.

Lemma insert_by_length_perm c l : insert_by_length c l ≡ₚ c :: l.
Proof.
  induction l as [|x l IH]; simpl; [done|].
  case_decide; [|done]. rewrite IH. apply Permutation_swap.
Qed.

Lemma sort_by_length_desc_perm l : sort_by_length_desc l ≡ₚ l.
Proof.
  induction l as [|x l IH]; simpl; [done|].
  rewrite insert_by_length_perm. by constructor.
Qed.

Lemma insert_by_length_sorted c l :
  Sorted Spec.longer_or_equal l → Sorted Spec.longer_or_equal (insert_by_length c l).
Proof.
  induction l as [|x l IH]; simpl; intros Hs.
  - by repeat constructor.
  - apply Sorted_inv in Hs as [Hs Hhd]. case_decide as Hlt.
    + constructor; [auto|].
      destruct l as [|y l]; simpl.
      * constructor. unfold Spec.longer_or_equal. lia.
      * case_decide; constructor.
        -- by apply HdRel_inv in Hhd.
        -- unfold Spec.longer_or_equal. lia.
    + constructor; [by constructor|].
      constructor. unfold Spec.longer_or_equal. lia.
Qed.

Lemma sort_by_length_desc_sorted l : Sorted Spec.longer_or_equal (sort_by_length_desc l).
Proof.
  induction l as [|x l IH]; simpl; [constructor|].
  by apply insert_by_length_sorted.
Qed.

Lemma insert_by_length_stable c l n :
  filter (λ x, chain_length x = n) (insert_by_length c l)
  = filter (λ x, chain_length x = n) (c :: l).
Proof.
  induction l as [|x l IH]; simpl; [done|].
  case_decide as Hlt; [|done].
  rewrite !filter_cons in *. rewrite IH.
  repeat case_decide; try done; lia.
Qed.

Lemma sort_by_length_desc_stable l n :
  filter (λ x, chain_length x = n) (sort_by_length_desc l)
  = filter (λ x, chain_length x = n) l.
Proof.
  induction l as [|x l IH]; simpl; [done|].
  rewrite insert_by_length_stable, !filter_cons, IH. done.
Qed.

End dedup_sort.

(** ** The chains returned by [find_chains] *)

Section find_chains.

Import ChainAnalyzer.

Lemma find_chains_elem rels items c :
  c ∈ (find_chains rels items).2 → c ∈ candidate_chains (build_graph rels items).
Proof.
  unfold find_chains. simpl. rewrite sort_by_length_desc_perm. apply dedup_chains_sub.
Qed.

(** A chain that [find_chains] returns is a simple path of its graph. *)
Lemma returned_chain_facts rels items c :
  c ∈ (find_chains rels items).2 →
  2 ≤ chain_length c ∧ chain_length c = length (chain_nodes c)
  ∧ NoDup (chain_nodes c)
  ∧ ∀ u v, (u, v) ∈ consecutive_pairs (chain_nodes c) →
      nx.has_edge (build_graph rels items) u v
      ∧ ∃ rel, rel ∈ rels ∧ source_id rel = u ∧ target_id rel = v.
Proof.
  intros Hc%find_chains_elem.
  assert (Hcon : Spec.constructed c).
  { pose proof (candidate_chains_constructed (build_graph rels items)) as Hall.
    rewrite Forall_forall in Hall. by apply Hall. }
  assert (Hp : chain_nodes c ∈ chain_nodes <$> candidate_chains (build_graph rels items))
    by (apply list_elem_of_fmap; eauto).
  apply candidate_chains_spec in Hp as ((Hnd & Hfol) & Hlen & _);
    [|apply build_graph_ok].
  unfold Spec.constructed in Hcon. split_and!; try done; [lia|].
  intros u v Huv. split; [by apply Hfol|].
  apply (build_graph_has_edge rels items). by apply Hfol.
Qed.

(** C5. Every chain that [find_chains] returns has at least two nodes (and
    its [length] is the number of its nodes), repeats no node, and each of
    its consecutive pairs is an edge of the graph, that is a pair that some
    relationship relates; no two returned chains have the same node
    sequence. *)
Theorem returned_chains_are_simple_paths
    (rels : list SatdRelationship) (items : list TechnicalDebt) :
  (∀ c, c ∈ (find_chains rels items).2 →
     2 ≤ chain_length c ∧ chain_length c = length (chain_nodes c)
     ∧ NoDup (chain_nodes c)
     ∧ ∀ u v, (u, v) ∈ consecutive_pairs (chain_nodes c) →
         nx.has_edge (build_graph rels items) u v
         ∧ ∃ rel, rel ∈ rels ∧ source_id rel = u ∧ target_id rel = v)
  ∧ NoDup (chain_nodes <$> (find_chains rels items).2).
Proof.
  split.
  - intros c Hc. by apply returned_chain_facts.
  - unfold find_chains. simpl.
    rewrite sort_by_length_desc_perm. apply dedup_chains_NoDup.
Qed.

Lemma returned_chains_are_simple_paths_witness :
  NoDup ["A"; "B"; "C"; "D"]
  ∧ nx.has_edge (build_graph Examples.abcd_rels Examples.abcd_items) "B" "C".
Proof.
  assert (Hin : Chain_init "chain-3" ["A"; "B"; "C"; "D"]
                ∈ (find_chains Examples.abcd_rels Examples.abcd_items).2)
    by (vm_compute; left).
  destruct (proj1 (returned_chains_are_simple_paths
                     Examples.abcd_rels Examples.abcd_items) _ Hin)
    as (_ & _ & Hnd & Hedges).
  split; [exact Hnd|].
  apply (Hedges "B" "C"). right. left.
Defined.

(** C7. [find_chains] returns the deduplicated chains sorted by length,
    longest first, and the sort is stable: chains of equal length stay in
    the order in which they were enumerated. *)
Theorem chains_stably_sorted_by_length
    (rels : list SatdRelationship) (items : list TechnicalDebt) :
  let unique := dedup_chains (candidate_chains (build_graph rels items)) in
  let returned := (find_chains rels items).2 in
  returned ≡ₚ unique
  ∧ Sorted Spec.longer_or_equal returned
  ∧ ∀ n, filter (λ c, chain_length c = n) returned
         = filter (λ c, chain_length c = n) unique.
Proof.
  intros unique returned. subst unique returned. unfold find_chains. simpl.
  split_and!.
  - apply sort_by_length_desc_perm.
  - apply sort_by_length_desc_sorted.
  - intros n. apply sort_by_length_desc_stable.
Qed.

(** C7, as stated, fails: two chains of equal length are returned in the
    order of enumeration, [B, A] before [A, B], against the order of the
    first node ids. *)
Lemma ties_not_broken_by_node_id :
  ¬ Sorted Spec.chain_before (find_chains Examples.ba_rels Examples.ba_items).2.
Proof.
  intros H. vm_compute in H.
  apply Sorted_inv in H as [_ H]. apply HdRel_inv in H.
  destruct H as [H|[_ H]]; vm_compute in H; [lia|].
  destruct H as [H|[H _]]; discriminate H.
Qed.

End find_chains.

(** ** [find_all_relationships] *)

Section relationships.

Import RelationshipAnalyzer.

Implicit Types (g : nx.DiGraph) (rel : SatdRelationship) (rels : list SatdRelationship).

Lemma add_node_known g n : n ∈ nx.nodes g → nx.add_node g n = g.
Proof. intros H%has_node_true. unfold nx.add_node. by rewrite H. Qed.

(** The guarded [add_node] calls of the loop body change nothing that
    [add_edge] would not do. *)
Lemma add_relationship_add_edge g rel :
  add_relationship g rel = nx.add_edge g (source_id rel) (target_id rel) (edge_attrs rel).
Proof.
  unfold add_relationship.
  assert (Hs : (if nx.has_node g (source_id rel) then g
                else nx.add_node g (source_id rel)) = nx.add_node g (source_id rel)).
  { unfold nx.add_node. by destruct (nx.has_node g (source_id rel)). }
  rewrite Hs. set (g1 := nx.add_node g (source_id rel)).
  assert (Ht : (if nx.has_node g1 (target_id rel) then g1
                else nx.add_node g1 (target_id rel)) = nx.add_node g1 (target_id rel)).
  { unfold nx.add_node. by destruct (nx.has_node g1 (target_id rel)). }
  rewrite Ht. set (g2 := nx.add_node g1 (target_id rel)).
  unfold nx.add_edge. fold g1. fold g2.
  assert (Hin1 : source_id rel ∈ nx.nodes g2).
  { subst g2 g1. rewrite !nodes_add_node. auto. }
  rewrite (add_node_known g2 _ Hin1).
  assert (Hin2 : target_id rel ∈ nx.nodes g2).
  { subst g2. rewrite nodes_add_node. auto. }
  by rewrite (add_node_known g2 _ Hin2).
Qed.

Lemma fold_add_relationship g rels :
  foldl add_relationship g rels
  = foldl (λ g rel, nx.add_edge g (source_id rel) (target_id rel) (edge_attrs rel)) g rels.
Proof.
  revert g. induction rels as [|r rels IH]; intros g; simpl; [done|].
  by rewrite add_relationship_add_edge, IH.
Qed.






End relationships.

(** ** Reachability: [nx.descendants] and [nx.ancestors] *)

Section closure.

Variable E : string → string → Prop.
Variable step : string → list string.
Hypothesis step_spec : ∀ a b, b ∈ step a ↔ E a b.

(** The pairs that [E] relates, listed. *)
Variable pairs : list (string * string).
Hypothesis pairs_spec : ∀ a b, E a b → (a, b) ∈ pairs.

Lemma reach_within_succ n s t :
  t ∈ nx.reach_within step (S n) s
  ↔ t ∈ nx.reach_within step n s ∨ ∃ y, y ∈ nx.reach_within step n s ∧ E y t.
Proof.
  simpl. rewrite elem_of_remove_dups, elem_of_app, list_elem_of_bind.
  split; (intros [?|(y & ? & ?)]; [by left | right; exists y]).
  - split; [done | by apply step_spec].
  - split; [by apply step_spec | done].
Qed.

Lemma reach_within_start n s : s ∈ nx.reach_within step n s.
Proof.
  induction n as [|n IH]; [left|]. apply reach_within_succ. by left.
Qed.

Lemma reach_within_sound n s t : t ∈ nx.reach_within step n s → rtc E s t.
Proof.
  revert t. induction n as [|n IH]; intros t.
  - by intros ->%list_elem_of_singleton.
  - intros [?|(y & Hy & Hyt)]%reach_within_succ; [auto|].
    eapply rtc_r; [by apply IH | done].
Qed.

Lemma reach_within_first_step n s b t :
  E s b → t ∈ nx.reach_within step n b → t ∈ nx.reach_within step (S n) s.
Proof.
  intros Hsb. revert t. induction n as [|n IH]; intros t Ht.
  - apply list_elem_of_singleton in Ht as ->.
    apply reach_within_succ. right. exists s. split; [left | done].
  - apply reach_within_succ in Ht as [Ht|(y & Hy & Hyt)]; apply reach_within_succ.
    + left. by apply IH.
    + right. exists y. split; [by apply IH | done].
Qed.

Lemma linked_cons a b p :
  Spec.linked E (a :: b :: p) ↔ E a b ∧ Spec.linked E (b :: p).
Proof.
  unfold Spec.linked.
  change (ChainAnalyzer.consecutive_pairs (a :: b :: p))
    with ((a, b) :: ChainAnalyzer.consecutive_pairs (b :: p)).
  split.
  - intros H. split; [apply H; left|intros u v Huv; apply H; by right].
  - intros [Hab H] u v [Heq|Huv]%elem_of_cons; [by injection Heq as -> ->|auto].
Qed.

Lemma linked_suffix p q : Spec.linked E (p ++ q) → Spec.linked E q.
Proof.
  induction p as [|a p IH]; [done|]. intros H. apply IH.
  destruct p as [|b p]; simpl in *.
  - destruct q as [|b q]; [intros u v Hx; inversion Hx|].
    by apply linked_cons in H as [_ H].
  - by apply linked_cons in H as [_ H].
Qed.

Lemma reach_within_complete_path n s q t :
  Spec.linked E (s :: q) → last (s :: q) = Some t → length q ≤ n →
  t ∈ nx.reach_within step n s.
Proof.
  revert n s. induction q as [|b q IH]; intros n s Hl Hlast Hlen.
  - injection Hlast as <-. apply reach_within_start.
  - destruct n as [|n]; simpl in Hlen; [lia|].
    apply linked_cons in Hl as [Hsb Hl].
    apply (reach_within_first_step n s b t Hsb).
    apply IH; [done | | lia]. by destruct q.
Qed.

(** A walk can be cut down to one that repeats no node. *)
Lemma rtc_simple_path s t :
  rtc E s t → ∃ q, Spec.linked E (s :: q) ∧ last (s :: q) = Some t ∧ NoDup (s :: q).
Proof.
  induction 1 as [s|s b t Hsb _ (q & Hl & Hlast & Hnd)].
  - exists []. split_and!; [intros u v H; inversion H | done | apply NoDup_singleton].
  - destruct (decide (s ∈ b :: q)) as [Hin|Hnot].
    + apply list_elem_of_split in Hin as (l1 & l2 & Heq).
      exists l2. rewrite Heq in Hl, Hlast, Hnd. split_and!.
      * by apply linked_suffix in Hl.
      * rewrite last_app in Hlast.
        assert (is_Some (last (s :: l2))) as [y Hy] by by apply last_is_Some.
        by rewrite Hy in *.
      * by apply NoDup_app in Hnd as (_ & _ & ?).
    + exists (b :: q). split_and!.
      * by apply linked_cons.
      * by rewrite last_cons_cons.
      * by apply NoDup_cons.
Qed.

Lemma NoDup_consecutive_pairs (p : list string) :
  NoDup p → NoDup (ChainAnalyzer.consecutive_pairs p).
Proof.
  induction p as [|a [|b p] IH]; intros Hnd; try apply NoDup_nil_2.
  change (ChainAnalyzer.consecutive_pairs (a :: b :: p))
    with ((a, b) :: ChainAnalyzer.consecutive_pairs (b :: p)).
  apply NoDup_cons in Hnd as [Hnot Hnd]. apply NoDup_cons. split; [|auto].
  by intros [? _]%consecutive_pairs_elem.
Qed.

Lemma length_consecutive_pairs (a : string) (q : list string) :
  length (ChainAnalyzer.consecutive_pairs (a :: q)) = length q.
Proof.
  revert a. induction q as [|b q IH]; intros a; [done|].
  change (ChainAnalyzer.consecutive_pairs (a :: b :: q))
    with ((a, b) :: ChainAnalyzer.consecutive_pairs (b :: q)).
  by rewrite !length_cons, IH.
Qed.

(** As many rounds as there are pairs reach every node that is reachable. *)
Lemma reach_within_complete s t :
  rtc E s t → t ∈ nx.reach_within step (length pairs) s.
Proof.
  intros (q & Hl & Hlast & Hnd)%rtc_simple_path.
  apply (reach_within_complete_path _ s q t Hl Hlast).
  rewrite <- (length_consecutive_pairs s q).
  apply submseteq_length, NoDup_submseteq; [by apply NoDup_consecutive_pairs|].
  intros [u v] Huv. by apply pairs_spec, Hl.
Qed.

Lemma reach_within_rtc s t :
  t ∈ nx.reach_within step (length pairs) s ↔ rtc E s t.
Proof. split; [apply reach_within_sound | apply reach_within_complete]. Qed.

End closure.

Section reachability.

Implicit Types (g : nx.DiGraph) (s t : string).

Lemma rtc_backwards g s t :
  rtc (λ a b, nx.has_edge g b a) s t ↔ Spec.reaches g t s.
Proof.
  unfold Spec.reaches. split.
  - induction 1 as [|a b c Hab _ IH]; [done|]. eapply rtc_r; [exact IH | done].
  - induction 1 as [|a b c Hab _ IH]; [done|]. eapply rtc_r; [exact IH | done].
Qed.

(** [nx.descendants]: the nodes other than the source that the source
    reaches. *)
Lemma descendants_elem g s D t :
  nx.descendants g s = Some D → t ∈ D ↔ t ≠ s ∧ Spec.reaches g s t.
Proof.
  unfold nx.descendants. destruct (nx.has_node g s); [|done]. intros [= <-].
  rewrite elem_of_difference, elem_of_list_to_set, elem_of_singleton.
  rewrite <- (length_fmap fst (nx.edges g)).
  rewrite (reach_within_rtc (nx.has_edge g) (nx.successors g)
             (λ a b, successors_has_edge g a b) ((nx.edges g).*1)
             (λ a b H, H)).
  unfold Spec.reaches. tauto.
Qed.

(** [nx.ancestors]: the nodes other than the source that reach the
    source. *)
Lemma ancestors_elem g s A t :
  nx.ancestors g s = Some A → t ∈ A ↔ t ≠ s ∧ Spec.reaches g t s.
Proof.
  unfold nx.ancestors. destruct (nx.has_node g s); [|done]. intros [= <-].
  rewrite elem_of_difference, elem_of_list_to_set, elem_of_singleton.
  rewrite <- (length_fmap fst (nx.edges g)),
    <- (length_fmap (λ k, (k.2, k.1)) ((nx.edges g).*1)).
  rewrite (reach_within_rtc (λ a b, nx.has_edge g b a) (nx.predecessors g)
             (λ a b, predecessors_has_edge g b a)
             ((λ k, (k.2, k.1)) <$> (nx.edges g).*1)).
  - rewrite rtc_backwards. tauto.
  - intros a b Hab. apply list_elem_of_fmap. by exists (b, a).
Qed.

Lemma descendants_is_Some g s :
  s ∈ nx.nodes g → is_Some (nx.descendants g s) ∧ is_Some (nx.ancestors g s).
Proof.
  intros H%has_node_true. unfold nx.descendants, nx.ancestors. rewrite H. eauto.
Qed.

Lemma descendants_None g s :
  s ∉ nx.nodes g → nx.descendants g s = None ∧ nx.ancestors g s = None.
Proof.
  intros H. unfold nx.descendants, nx.ancestors, nx.has_node.
  by rewrite bool_decide_eq_false_2.
Qed.

End reachability.

(** ** The scoring loop *)

Section scoring.

Import SirCalculator.

Implicit Types (w : gmap string Q) (idx : gmap string (list Chain)).
Implicit Types (g : nx.DiGraph) (h : gmap loc TechnicalDebt) (d : TechnicalDebt).

(** The score of an instance depends on its id, content and type only. *)
Lemma score_debt_identity w idx m g d d' :
  Spec.same_identity d d' → score_debt w idx m g d' = score_debt w idx m g d.
Proof.
  intros (Hid & _ & _ & Hc & Hty).
  unfold score_debt, Severity._calculate_intrinsic_severity.
  by rewrite Hid, Hc, Hty.
Qed.

Lemma store_score_same d r : Spec.same_but_scores d (store_score d r).
Proof. by repeat split. Qed.

Lemma score_debt_is_Some w idx m g d :
  Spec.weights_complete w → is_Some (score_debt w idx m g d).
Proof.
  intros ([? Hs] & [? Ho] & [? Hi] & [? Hc]). unfold score_debt.
  rewrite Hs, Ho, Hi, Hc. simpl. eauto.
Qed.

Lemma score_loop_spec w idx m g refs h h' :
  score_loop w idx m g refs h = Some h' →
  ∀ ℓ, (ℓ ∉ refs → h' !! ℓ = h !! ℓ)
       ∧ (ℓ ∈ refs → ∃ d r, h !! ℓ = Some d ∧ score_debt w idx m g d = Some r
                            ∧ h' !! ℓ = Some (store_score d r)).
Proof.
  revert h. induction refs as [|a refs IH]; simpl; intros h Hloop ℓ.
  - injection Hloop as <-. split; [done | intros H; inversion H].
  - destruct (h !! a) as [d0|] eqn:Hd0; simpl in Hloop; [|done].
    destruct (score_debt w idx m g d0) as [r0|] eqn:Hr0; simpl in Hloop; [|done].
    destruct (IH _ Hloop ℓ) as [IHout IHin]. split.
    + intros [Hne Hnot]%not_elem_of_cons.
      rewrite IHout by done. by rewrite lookup_insert_ne.
    + intros Hin. destruct (decide (ℓ ∈ refs)) as [Hr|Hr].
      * destruct (IHin Hr) as (d1 & r1 & Hd1 & Hr1 & Hh').
        destruct (decide (ℓ = a)) as [->|Hne].
        -- rewrite lookup_insert_eq in Hd1. injection Hd1 as <-.
           rewrite (score_debt_identity w idx m g d0) in Hr1
             by apply store_score_same.
           exists d0, r0. split_and!; try done.
           rewrite Hh'. assert (r1 = r0) as -> by congruence. reflexivity.
        -- rewrite lookup_insert_ne in Hd1 by done. by exists d1, r1.
      * apply elem_of_cons in Hin as [->|?]; [|done].
        rewrite IHout by done. rewrite lookup_insert_eq. by exists d0, r0.
Qed.

Lemma score_loop_is_Some w idx m g refs h :
  Spec.weights_complete w → (∀ ℓ, ℓ ∈ refs → is_Some (h !! ℓ)) →
  is_Some (score_loop w idx m g refs h).
Proof.
  intros Hw. revert h. induction refs as [|a refs IH]; simpl; intros h Hrefs; [eauto|].
  destruct (Hrefs a) as [d0 Hd0]; [left|]. rewrite Hd0. simpl.
  destruct (score_debt_is_Some w idx m g d0 Hw) as [r0 Hr0]. rewrite Hr0. simpl.
  apply IH. intros ℓ Hℓ. rewrite lookup_insert_is_Some.
  destruct (decide (a = ℓ)); [by left | right]. split; [done|]. apply Hrefs. by right.
Qed.

(** [calculate_sir_scores] returns; it returns the reference that it
    received, leaves the lists and the instances outside the list alone,
    and stores in every instance of the list the score of that instance. *)
Lemma calculate_sir_scores_spec w σ l refs rels chains g :
  Spec.weights_complete w → Spec.valid_refs σ l refs →
  ∃ h', calculate_sir_scores w σ l rels chains g = Some (mkStore h' (lists σ), l)
        ∧ ∀ ℓ, (ℓ ∉ refs → h' !! ℓ = debts σ !! ℓ)
               ∧ (ℓ ∈ refs →
                  ∃ d r, debts σ !! ℓ = Some d
                         ∧ score_debt w (debt_in_chains chains)
                             (max_chain_length chains) g d = Some r
                         ∧ h' !! ℓ = Some (store_score d r)).
Proof.
  intros Hw [Hl Hrefs]. unfold calculate_sir_scores. rewrite Hl. simpl.
  destruct (score_loop_is_Some w (debt_in_chains chains) (max_chain_length chains)
              g refs (debts σ) Hw Hrefs) as [h' Hh'].
  rewrite Hh'. simpl. exists h'. split; [done|].
  by apply score_loop_spec.
Qed.

End scoring.

Section sir.

Import SirCalculator.
Local Open Scope Q_scope.

Lemma default_weights_complete : Spec.weights_complete (init None).
Proof. repeat split; by eexists. Qed.

Lemma store2_valid_refs :
  Spec.valid_refs Examples.store2 3%positive [1%positive; 2%positive].
Proof.
  split; [reflexivity|].
  intros ℓ [->|[->|H]%elem_of_cons]%elem_of_cons; [by eexists | by eexists |].
  inversion H.
Qed.

(** C10. [calculate_sir_scores] returns the list reference that it
    received and stores its results in the instances of the list: every
    instance of the list gets as [sir_score] and [sir_components] the
    weighted sum and the four components that the loop body computes for
    it (its severity, its outgoing influence and incoming dependency in
    the graph, its chain length factor).  The list is unchanged, and so is
    every attribute of every instance other than [sir_score] and
    [sir_components]: id, file, line, content and debt type (and
    description and creation data) keep their values, instances outside
    the list are untouched, and no instance is created or removed. *)
Theorem scoring_reassigns_only_scores
    (w : gmap string Q) (σ : Store) (l : loc) (refs : list loc)
    (rels : list SatdRelationship) (chains : list Chain) (g : nx.DiGraph) :
  Spec.weights_complete w → Spec.valid_refs σ l refs →
  ∃ σ', calculate_sir_scores w σ l rels chains g = Some (σ', l)
        ∧ lists σ' = lists σ
        ∧ (∀ ℓ d, debts σ !! ℓ = Some d →
             ∃ d', debts σ' !! ℓ = Some d' ∧ Spec.same_but_scores d d'
                   ∧ (ℓ ∈ refs →
                        ∃ r, score_debt w (debt_in_chains chains)
                               (max_chain_length chains) g d = Some r
                             ∧ d' = store_score d r
                             ∧ sir_score d' = r.1 ∧ sir_components d' = r.2
                             ∧ sir_components d'
                               = mkSirComponents
                                   (Severity._calculate_intrinsic_severity d)
                                   (_calculate_outgoing_influence (debt_id d) g)
                                   (_calculate_incoming_dependency (debt_id d) g)
                                   (_calculate_chain_length_factor (debt_id d)
                                      (default [] (debt_in_chains chains !! debt_id d))
                                      (max_chain_length chains))
                             ∧ ∃ w_sev w_out w_in w_chain,
                                 w !! "severity" = Some w_sev
                                 ∧ w !! "outgoing" = Some w_out
                                 ∧ w !! "incoming" = Some w_in
                                 ∧ w !! "chain_length" = Some w_chain
                                 ∧ let c := sir_components d' in
                                   sir_score d'
                                   = w_sev * severity c
                                     + w_out * of_nat (outDependencies c)
                                     - w_in * of_nat (inDependencies c)
                                     + w_chain * chainLengthFactor c)
                   ∧ (ℓ ∉ refs → d' = d))
        ∧ (∀ ℓ, debts σ !! ℓ = None → debts σ' !! ℓ = None).
Proof.
  intros Hw Hrefs.
  destruct (calculate_sir_scores_spec w σ l refs rels chains g Hw Hrefs)
    as (h' & Hcall & Hspec).
  exists (mkStore h' (lists σ)). split_and!; simpl; try done.
  - intros ℓ d Hd. destruct (Hspec ℓ) as [Hout Hin].
    destruct (decide (ℓ ∈ refs)) as [Hr|Hr].
    + destruct (Hin Hr) as (d1 & r & Hd1 & Hsc & Hh').
      assert (d1 = d) as -> by congruence.
      exists (store_score d r). split_and!; try done.
      intros _. exists r. split_and!; try done.
      * pose proof Hsc as Hsc'. unfold score_debt in Hsc'.
        destruct Hw as ([w_sev Hs] & [w_out Ho] & [w_in Hi] & [w_chain Hc]).
        rewrite Hs, Ho, Hi, Hc in Hsc'. simpl in Hsc'. by injection Hsc' as <-.
      * pose proof Hsc as Hsc'. unfold score_debt in Hsc'.
        destruct Hw as ([w_sev Hs] & [w_out Ho] & [w_in Hi] & [w_chain Hc]).
        exists w_sev, w_out, w_in, w_chain. split_and!; try done.
        rewrite Hs, Ho, Hi, Hc in Hsc'. simpl in Hsc'. by injection Hsc' as <-.
    + exists d. rewrite (Hout Hr). by repeat split.
  - intros ℓ Hnone. destruct (Hspec ℓ) as [Hout Hin].
    destruct (decide (ℓ ∈ refs)) as [Hr|Hr]; [|by rewrite Hout].
    destruct (Hin Hr) as (d1 & _ & Hd1 & _). congruence.
Qed.

Lemma scoring_reassigns_only_scores_witness :
  ∃ σ' d', calculate_sir_scores (init None) Examples.store2 3%positive
             Examples.ab_call Examples.ab_chains
             (RelationshipAnalyzer.add_relationships nx.empty Examples.ab_call)
           = Some (σ', 3%positive)
        ∧ lists σ' = lists Examples.store2
        ∧ debts σ' !! 1%positive = Some d'
        ∧ debt_id d' = "A" ∧ debt_content d' = "TODO: critical rewrite"
        ∧ sir_score d' == 35#10
        ∧ outDependencies (sir_components d') = 1%nat.
Proof.
  destruct (scoring_reassigns_only_scores (init None) Examples.store2 3%positive
              [1%positive; 2%positive] Examples.ab_call Examples.ab_chains
              (RelationshipAnalyzer.add_relationships nx.empty Examples.ab_call)
              default_weights_complete store2_valid_refs)
    as (σ' & Hcall & Hlists & Hdebts & _).
  destruct (Hdebts 1%positive (Examples.debt "A" "src/a.py" "TODO: critical rewrite")
              eq_refl) as (d' & Hd' & Hsame & Hin & _).
  destruct Hin as (r & Hr & _ & Hscore & Hcomp & _); [set_solver|].
  destruct Hsame as ((Hid & _ & _ & Hcontent & _) & _).
  exists σ', d'. split_and!; try done.
  - rewrite Hscore. vm_compute in Hr. injection Hr as <-. reflexivity.
  - rewrite Hcomp. vm_compute in Hr. injection Hr as <-. reflexivity.
Defined.

End sir.

(** ** Chain metrics and the chain length factor *)

Section metrics.

Import ChainAnalyzer.
Local Open Scope Q_scope.

Lemma of_nat_nonneg (n : nat) : 0 <= inject_Z (Z.of_nat n).
Proof. change 0 with (inject_Z 0). rewrite <- Zle_Qle. lia. Qed.

Lemma truediv_nonneg (a b : nat) : 0 <= truediv a b.
Proof.
  unfold truediv, Qdiv.
  apply Qmult_le_0_compat; [|apply Qinv_le_0_compat]; apply of_nat_nonneg.
Qed.

Lemma truediv_le_1 (a b : nat) : (a ≤ b)%nat → (0 < b)%nat → truediv a b <= 1.
Proof.
  intros Hab Hb. unfold truediv. apply Qle_shift_div_r.
  - change 0 with (inject_Z 0). rewrite <- Zlt_Qlt. lia.
  - rewrite Qmult_1_l. rewrite <- Zle_Qle. lia.
Qed.

Lemma truediv_same (a : nat) : (0 < a)%nat → truediv a a == 1.
Proof.
  intros Ha. unfold truediv, Qdiv. apply Qmult_inv_r.
  intros H. assert (Hlt : inject_Z 0 < inject_Z (Z.of_nat a))
    by (rewrite <- Zlt_Qlt; lia).
  change (inject_Z 0) with 0 in Hlt. rewrite H in Hlt. by apply Qlt_irrefl in Hlt.
Qed.

Lemma participating_nodes_elem (chains : list Chain) (x : string) :
  x ∈ participating_nodes chains ↔ ∃ c, c ∈ chains ∧ x ∈ chain_nodes c.
Proof.
  unfold participating_nodes.
  assert (Hgen : ∀ acc : gset string,
    x ∈ foldl (λ acc chain, acc ∪ list_to_set (chain_nodes chain)) acc chains
    ↔ x ∈ acc ∨ ∃ c, c ∈ chains ∧ x ∈ chain_nodes c).
  { induction chains as [|c chains IH]; intros acc; simpl.
    - split; [auto | intros [?|(? & H & _)]; [done | inversion H]].
    - rewrite IH, elem_of_union, elem_of_list_to_set. split.
      + intros [[?|?]|(c' & ? & ?)]; auto.
        * right. exists c. split; [left | done].
        * right. exists c'. split; [by right | done].
      + intros [?|(c' & [->|?]%elem_of_cons & ?)]; eauto. }
  rewrite Hgen. split; [intros [H|?]; [by apply not_elem_of_empty in H | done] | auto].
Qed.

Lemma size_list_to_set_le (l : list string) :
  (size (list_to_set l : gset string) ≤ length l)%nat.
Proof.
  induction l as [|x l IH].
  - by rewrite list_to_set_nil, size_empty.
  - rewrite list_to_set_cons, size_union_alt, size_singleton, length_cons.
    assert (size (list_to_set l ∖ {[x]} : gset string) ≤ size (list_to_set l : gset string))%nat
      by (apply subseteq_size; by intros y [? _]%elem_of_difference).
    lia.
Qed.

Lemma cross_module_count_le dm (chains : list Chain) :
  (cross_module_count dm chains ≤ length chains)%nat.
Proof.
  unfold cross_module_count.
  assert (Hgen : ∀ n : nat,
    (foldl (λ n chain, if decide (1 < size (chain_modules dm chain))%nat then S n else n)
       n chains ≤ n + length chains)%nat).
  { induction chains as [|c chains IH]; intros n; simpl; [lia|].
    etransitivity; [apply IH|]. case_decide; lia. }
  apply (Hgen 0%nat).
Qed.

(** The rates are fractions of the instances and of the chains. *)
Lemma chain_metrics_bounds (chains : list Chain) (items : list TechnicalDebt) :
  (∀ c x, c ∈ chains → x ∈ chain_nodes c → x ∈ debt_id <$> items) →
  let m := calculate_chain_metrics chains items in
  0 <= participation_rate m <= 1 ∧ 0 <= cross_module_chains m <= 1.
Proof.
  intros Hknown. unfold calculate_chain_metrics.
  destruct chains as [|c0 chains]; [simpl; by repeat split|].
  set (cs := c0 :: chains) in *. simpl. split.
  - destruct items as [|d0 items]; [by split|]. set (ds := d0 :: items) in *.
    split; [apply truediv_nonneg|]. apply truediv_le_1; [|simpl; lia].
    etransitivity; [|etransitivity; [apply (size_list_to_set_le (debt_id <$> ds))|]].
    + apply subseteq_size. intros x (c & Hc & Hx)%participating_nodes_elem.
      apply elem_of_list_to_set. by apply (Hknown c).
    + by rewrite length_fmap.
  - split; [apply truediv_nonneg|]. apply truediv_le_1; [|simpl; lia].
    apply cross_module_count_le.
Qed.

End metrics.

Section factor.

Import ChainAnalyzer SirCalculator.
Local Open Scope Q_scope.

Implicit Types (c : Chain) (chains cs : list Chain) (id : string).

Lemma index_nodes_elem (m : gmap string (list Chain)) chain (nodes : list string) id c :
  c ∈ default [] (foldl (λ m node_id,
                           <[node_id := default [] (m !! node_id) ++ [chain]]> m)
                        m nodes !! id)
  ↔ c ∈ default [] (m !! id) ∨ (c = chain ∧ id ∈ nodes).
Proof.
  revert m. induction nodes as [|n nodes IH]; intros m; simpl.
  - split; [auto | intros [?|[_ H]]; [done | inversion H]].
  - rewrite IH, lookup_insert, elem_of_cons. case_decide as Hn; simpl.
    + subst n. rewrite elem_of_app, list_elem_of_singleton. tauto.
    + split; [intros [?|[? ?]]; auto | intros [?|[? [?|?]]]; auto]. congruence.
Qed.

(** [debt_in_chains] maps an id to the chains that hold it. *)
Lemma debt_in_chains_elem chains id c :
  c ∈ default [] (debt_in_chains chains !! id) ↔ c ∈ chains ∧ id ∈ chain_nodes c.
Proof.
  unfold debt_in_chains.
  assert (Hgen : ∀ m : gmap string (list Chain),
    c ∈ default [] (foldl (λ m chain,
                             foldl (λ m node_id,
                                      <[node_id := default [] (m !! node_id) ++ [chain]]> m)
                                   m (chain_nodes chain)) m chains !! id)
    ↔ c ∈ default [] (m !! id) ∨ (c ∈ chains ∧ id ∈ chain_nodes c)).
  { induction chains as [|c0 chains IH]; intros m; simpl.
    - split; [auto | intros [?|[H _]]; [done | inversion H]].
    - rewrite IH, index_nodes_elem, elem_of_cons. split.
      + intros [[?|[-> ?]]|[? ?]]; auto.
      + intros [?|[[->|?] ?]]; auto. }
  rewrite Hgen, lookup_empty. simpl.
  split; [intros [H|?]; [inversion H | done] | auto].
Qed.

Lemma max_list_eq (n : nat) (l : list nat) :
  n ∈ l → (∀ x, x ∈ l → (x ≤ n)%nat) → max_list l = n.
Proof.
  intros Hn Hle. apply Nat.le_antisymm; [|by apply max_list_elem_of_le].
  apply Hle, max_list_elem_of. intros ->. inversion Hn.
Qed.

Lemma score_debt_factor w (idx : gmap string (list Chain)) m g d r :
  score_debt w idx m g d = Some r →
  chainLengthFactor r.2
  = _calculate_chain_length_factor (debt_id d) (default [] (idx !! debt_id d)) m.
Proof.
  unfold score_debt.
  destruct (w !! "severity"), (w !! "outgoing"), (w !! "incoming"),
    (w !! "chain_length"); simpl; try done.
  by intros [= <-].
Qed.

(** The factor of an instance among [chains]: between 0 and 1, 1 for a
    member of a longest chain of more than one node, 0 for an instance in
    no chain. *)
Lemma chain_length_factor_spec chains id :
  let f := _calculate_chain_length_factor id
             (default [] (debt_in_chains chains !! id)) (max_chain_length chains) in
  (0 <= f <= 1)
  ∧ ((∃ c, c ∈ chains ∧ id ∈ chain_nodes c ∧ (2 ≤ chain_length c)%nat
           ∧ ∀ c', c' ∈ chains → (chain_length c' ≤ chain_length c)%nat) → f == 1)
  ∧ ((∀ c, c ∈ chains → id ∉ chain_nodes c) → f == 0).
Proof.
  intros f. subst f.
  pose proof (debt_in_chains_elem chains id) as Hcs.
  set (cs := default [] (debt_in_chains chains !! id)) in *.
  unfold _calculate_chain_length_factor. split_and!.
  - destruct cs as [|c0 cs'] eqn:Ecs; [done|]. case_decide as HM; [done|].
    apply truediv_nonneg.
  - destruct cs as [|c0 cs'] eqn:Ecs; [done|]. case_decide as HM; [done|].
    apply truediv_le_1; [|lia].
    assert (Hne : chains ≠ []).
    { intros ->. destruct (proj1 (Hcs c0)) as [H _]; [left | inversion H]. }
    unfold max_chain_length. destruct chains as [|c1 chains'] eqn:Ech; [done|].
    rewrite <- Ech in *.
    apply max_list_elem_of_le, list_elem_of_fmap.
    assert (Hin : max_list (chain_length <$> c0 :: cs') ∈ chain_length <$> c0 :: cs')
      by (by apply max_list_elem_of).
    apply list_elem_of_fmap in Hin as (c & Hc & Hin).
    exists c. split; [done|]. by apply Hcs.
  - intros (c & Hc & Hid & Hlen & Hmax).
    assert (Hin : c ∈ cs) by (by apply Hcs).
    assert (HM : max_chain_length chains = chain_length c).
    { unfold max_chain_length. destruct chains as [|c1 chains'] eqn:Ech; [inversion Hc|].
      rewrite <- Ech in *. apply max_list_eq.
      - apply list_elem_of_fmap. eauto.
      - intros x (c' & -> & Hc')%list_elem_of_fmap. by apply Hmax. }
    assert (Hcsmax : max_list (chain_length <$> cs) = chain_length c).
    { apply max_list_eq.
      - apply list_elem_of_fmap. eauto.
      - intros x (c' & -> & Hc')%list_elem_of_fmap. apply Hmax. by apply Hcs. }
    rewrite HM. destruct cs as [|c0 cs'] eqn:Ecs; [inversion Hin|].
    rewrite decide_False by lia. rewrite Hcsmax. apply truediv_same. lia.
  - intros Hnone. destruct cs as [|c0 cs'] eqn:Ecs; [done|].
    exfalso. destruct (proj1 (Hcs c0)) as [Hc Hid]; [left|]. by apply (Hnone c0).
Qed.

(** The value of the factor of an instance that some chain holds: with
    [own] a longest of the chains that hold it and [top] a longest of all
    the chains, the length of [own] over the length of [top], and 0 when no
    chain has more than one node. *)
Lemma chain_length_factor_value chains id own top :
  own ∈ chains → id ∈ chain_nodes own →
  (∀ c', c' ∈ chains → id ∈ chain_nodes c' → (chain_length c' ≤ chain_length own)%nat) →
  top ∈ chains → (∀ c', c' ∈ chains → (chain_length c' ≤ chain_length top)%nat) →
  _calculate_chain_length_factor id
    (default [] (debt_in_chains chains !! id)) (max_chain_length chains)
  = if decide (chain_length top ≤ 1)%nat then 0
    else of_nat (chain_length own) / of_nat (chain_length top).
Proof.
  intros Hown Hid Hlongest Htop Hmax.
  pose proof (debt_in_chains_elem chains id) as Hcs.
  set (cs := default [] (debt_in_chains chains !! id)) in *.
  assert (Hin : own ∈ cs) by (by apply Hcs).
  assert (HM : max_chain_length chains = chain_length top).
  { unfold max_chain_length. destruct chains as [|c1 chains'] eqn:Ech; [inversion Htop|].
    rewrite <- Ech in *. apply max_list_eq.
    - apply list_elem_of_fmap. eauto.
    - intros x (c' & -> & Hc')%list_elem_of_fmap. by apply Hmax. }
  assert (Hcsmax : max_list (chain_length <$> cs) = chain_length own).
  { apply max_list_eq.
    - apply list_elem_of_fmap. eauto.
    - intros x (c' & -> & Hc')%list_elem_of_fmap.
      apply Hcs in Hc' as [Hc' Hid']. by apply Hlongest. }
  unfold _calculate_chain_length_factor. rewrite HM.
  destruct cs as [|c0 cs'] eqn:Ecs; [inversion Hin|].
  case_decide; [done|]. by rewrite Hcsmax.
Qed.

Lemma in_consecutive_pair (p : list string) (x : string) :
  (2 ≤ length p)%nat → x ∈ p →
  ∃ u v, (u, v) ∈ consecutive_pairs p ∧ (x = u ∨ x = v).
Proof.
  induction p as [|a [|b p] IH]; simpl; intros Hlen Hx; try lia.
  change (consecutive_pairs (a :: b :: p)) with ((a, b) :: consecutive_pairs (b :: p)).
  apply elem_of_cons in Hx as [->|Hx]; [exists a, b; split; [left | auto]|].
  destruct p as [|c p].
  - apply list_elem_of_singleton in Hx as ->. exists a, b. split; [left | auto].
  - destruct IH as (u & v & Huv & Hor); [simpl; lia | done |].
    exists u, v. split; [by right | done].
Qed.

End factor.

Section formula.

Import ChainAnalyzer SirCalculator.
Local Open Scope Q_scope.

(** C1. With the default weights every instance of the list is scored, and
    its score is
    [0.4 * severity + 0.3 * outgoing - 0.1 * incoming + 0.4 * chain factor];
    [severity] is the intrinsic severity of the instance; [outgoing] is the
    number of the nodes other than the instance that it reaches in the
    graph, [incoming] the number of the nodes other than it that reach it,
    and both are 0 for an instance that is not a node of the graph; the
    chain factor is 0 for an instance in no chain, and otherwise the length
    of the longest chain that holds the instance over the length of the
    longest chain (0 when no chain has more than one node). *)
Theorem sir_score_formula
    (σ : Store) (l : loc) (refs : list loc)
    (rels : list SatdRelationship) (chains : list Chain) (g : nx.DiGraph) :
  Spec.valid_refs σ l refs →
  ∃ σ', calculate_sir_scores (init None) σ l rels chains g = Some (σ', l)
    ∧ ∀ ℓ d, ℓ ∈ refs → debts σ !! ℓ = Some d →
        ∃ d', debts σ' !! ℓ = Some d'
          ∧ let c := sir_components d' in
            sir_score d' == (4#10) * severity c + (3#10) * of_nat (outDependencies c)
                            - (1#10) * of_nat (inDependencies c)
                            + (4#10) * chainLengthFactor c
            ∧ severity c = Severity._calculate_intrinsic_severity d
            ∧ (debt_id d ∈ nx.nodes g →
                 ∃ D A : gset string,
                   (∀ t, t ∈ D ↔ t ≠ debt_id d ∧ Spec.reaches g (debt_id d) t)
                   ∧ (∀ t, t ∈ A ↔ t ≠ debt_id d ∧ Spec.reaches g t (debt_id d))
                   ∧ outDependencies c = size D ∧ inDependencies c = size A)
            ∧ (debt_id d ∉ nx.nodes g →
                 outDependencies c = 0%nat ∧ inDependencies c = 0%nat)
            ∧ ((∀ c', c' ∈ chains → debt_id d ∉ chain_nodes c') →
                 chainLengthFactor c == 0)
            ∧ (∀ own top,
                 own ∈ chains → debt_id d ∈ chain_nodes own →
                 (∀ c', c' ∈ chains → debt_id d ∈ chain_nodes c' →
                        (chain_length c' ≤ chain_length own)%nat) →
                 top ∈ chains →
                 (∀ c', c' ∈ chains → (chain_length c' ≤ chain_length top)%nat) →
                 chainLengthFactor c
                 = if decide (chain_length top ≤ 1)%nat then 0
                   else of_nat (chain_length own) / of_nat (chain_length top)).
Proof.
  intros Hrefs.
  destruct (calculate_sir_scores_spec (init None) σ l refs rels chains g
              default_weights_complete Hrefs) as (h' & Hcall & Hspec).
  exists (mkStore h' (lists σ)). split; [done|]. simpl.
  intros ℓ d Hℓ Hd. destruct (Hspec ℓ) as [_ Hin].
  destruct (Hin Hℓ) as (d1 & r & Hd1 & Hr & Hh').
  assert (d1 = d) as -> by congruence.
  exists (store_score d r). split; [done|].
  pose proof (score_debt_factor _ _ _ _ _ _ Hr) as Hf.
  unfold score_debt in Hr. simpl in Hr.
  change (init None !! "severity") with (Some (4#10)) in Hr.
  change (init None !! "outgoing") with (Some (3#10)) in Hr.
  change (init None !! "incoming") with (Some (1#10)) in Hr.
  change (init None !! "chain_length") with (Some (4#10)) in Hr.
  simpl in Hr. injection Hr as <-. simpl. simpl in Hf.
  split_and!; try reflexivity.
  - intros Hnode. destruct (descendants_is_Some g _ Hnode) as [[D HD] [A HA]].
    exists D, A. unfold _calculate_outgoing_influence, _calculate_incoming_dependency.
    rewrite HD, HA. split_and!; try done.
    + intros t. by apply descendants_elem.
    + intros t. by apply ancestors_elem.
  - intros Hnode. destruct (descendants_None g _ Hnode) as [HD HA].
    unfold _calculate_outgoing_influence, _calculate_incoming_dependency.
    by rewrite HD, HA.
  - intros Hnone.
    by destruct (chain_length_factor_spec chains (debt_id d)) as (_ & _ & Hzero);
      apply Hzero.
  - intros own top Hown Hid Hlongest Htop Hmax.
    by apply chain_length_factor_value.
Qed.

Lemma sir_score_formula_witness :
  ∃ σ' d', calculate_sir_scores (init None) Examples.store2 3%positive
             Examples.ab_call Examples.ab_chains
             (RelationshipAnalyzer.add_relationships nx.empty Examples.ab_call)
           = Some (σ', 3%positive)
        ∧ debts σ' !! 2%positive = Some d'
        ∧ severity (sir_components d') = 3
        ∧ outDependencies (sir_components d') = 0%nat
        ∧ inDependencies (sir_components d') = 1%nat
        ∧ chainLengthFactor (sir_components d') == 1
        ∧ sir_score d' == 15#10.
Proof.
  destruct (sir_score_formula Examples.store2 3%positive
              [1%positive; 2%positive] Examples.ab_call Examples.ab_chains
              (RelationshipAnalyzer.add_relationships nx.empty Examples.ab_call)
              store2_valid_refs)
    as (σ' & Hcall & Hdebts).
  destruct (Hdebts 2%positive (Examples.debt "B" "lib/b.py" "FIXME minor"))
    as (d' & Hd' & Hscore & Hsev & Hnode & _ & _ & Hfactor);
    [set_solver | reflexivity |].
  set (g := RelationshipAnalyzer.add_relationships nx.empty Examples.ab_call) in *.
  assert (Hedge : ∀ s t, nx.has_edge g s t ↔ s = "A" ∧ t = "B").
  { intros s t. unfold nx.has_edge.
    change ((nx.edges g).*1) with [("A", "B")].
    rewrite list_elem_of_singleton. split; [by intros [= -> ->] | by intros [-> ->]]. }
  destruct Hnode as (D & A & HD & HA & Hout & Hin).
  { change (nx.nodes g) with ["A"; "B"]. right. left. }
  assert (Hs : severity (sir_components d') = 3) by (by rewrite Hsev).
  assert (Ho : outDependencies (sir_components d') = 0%nat).
  { rewrite Hout. apply size_empty_iff, elem_of_equiv_empty.
    intros t [Hne Hreach]%HD.
    apply rtc_inv in Hreach as [Heq | (y & [Hy _]%Hedge & _)]; [by apply Hne|].
    discriminate Hy. }
  assert (Hi : inDependencies (sir_components d') = 1%nat).
  { rewrite Hin. assert (A = {["A"]}) as ->; [|apply size_singleton].
    apply set_eq. intros t. rewrite HA, elem_of_singleton. split.
    - intros [Hne Hreach].
      by apply rtc_inv in Hreach as [Heq | (y & [Ht _]%Hedge & _)].
    - intros ->. split; [done|]. apply rtc_once. by apply Hedge. }
  assert (Hf : chainLengthFactor (sir_components d') = of_nat 2 / of_nat 2).
  { apply (Hfactor (Chain_init "chain-1" ["A"; "B"]) (Chain_init "chain-1" ["A"; "B"]));
      try (by intros c' ->%list_elem_of_singleton); repeat constructor. }
  exists σ', d'. split_and!; try done.
  - by rewrite Hf.
  - rewrite Hscore, Hs, Ho, Hi, Hf. reflexivity.
Defined.

End formula.

Section bounds.

Import ChainAnalyzer SirCalculator.
Local Open Scope Q_scope.

(** C8. For a corpus whose relationships relate registered instances only,
    the participation rate and the cross-module rate lie between 0 and 1;
    the chain length factor of every scored instance lies between 0 and 1,
    is 1 for every member of a longest chain and 0 for every instance in no
    chain. *)
Theorem rates_and_factor_bounded
    (rels : list SatdRelationship) (items : list TechnicalDebt) :
  (∀ rel, rel ∈ rels →
     source_id rel ∈ debt_id <$> items ∧ target_id rel ∈ debt_id <$> items) →
  let chains := (find_chains rels items).2 in
  let m := calculate_chain_metrics chains items in
  0 <= participation_rate m <= 1
  ∧ 0 <= cross_module_chains m <= 1
  ∧ ∀ w σ l refs enhanced g,
      Spec.weights_complete w → Spec.valid_refs σ l refs →
      ∃ σ', calculate_sir_scores w σ l enhanced chains g = Some (σ', l)
        ∧ ∀ ℓ d, ℓ ∈ refs → debts σ !! ℓ = Some d →
            ∃ d', debts σ' !! ℓ = Some d'
              ∧ let f := chainLengthFactor (sir_components d') in
                0 <= f <= 1
                ∧ ((∃ c, c ∈ chains ∧ debt_id d ∈ chain_nodes c
                         ∧ ∀ c', c' ∈ chains → (chain_length c' ≤ chain_length c)%nat)
                   → f == 1)
                ∧ ((∀ c, c ∈ chains → debt_id d ∉ chain_nodes c) → f == 0).
Proof.
  intros Hknown chains m.
  assert (Hnodes : ∀ c x, c ∈ chains → x ∈ chain_nodes c → x ∈ debt_id <$> items).
  { intros c x Hc Hx.
    destruct (returned_chain_facts rels items c Hc) as (Hlen & Hcon & _ & Hedges).
    destruct (in_consecutive_pair (chain_nodes c) x) as (u & v & Huv & Hor);
      [lia | done |].
    destruct (Hedges u v Huv) as (_ & rel & Hrel & Hu & Hv).
    destruct (Hknown rel Hrel). destruct Hor as [-> | ->]; congruence. }
  destruct (chain_metrics_bounds chains items Hnodes) as [Hp Hc].
  split; [exact Hp|]. split; [exact Hc|].
  intros w σ l refs enhanced g Hw Hrefs.
  destruct (calculate_sir_scores_spec w σ l refs enhanced chains g Hw Hrefs)
    as (h' & Hcall & Hspec).
  exists (mkStore h' (lists σ)). split; [done|]. simpl.
  intros ℓ d Hℓ Hd. destruct (Hspec ℓ) as [_ Hin].
  destruct (Hin Hℓ) as (d1 & r & Hd1 & Hr & Hh').
  assert (d1 = d) as -> by congruence.
  exists (store_score d r). split; [done|]. cbv zeta. simpl.
  pose proof (score_debt_factor _ _ _ _ _ _ Hr) as Hf. rewrite Hf.
  destruct (chain_length_factor_spec chains (debt_id d)) as (Hb & Hone & Hzero).
  split; [exact Hb|]. split; [|exact Hzero].
  intros (c & Hc' & Hid & Hmax). apply Hone. exists c. split_and!; try done.
  by destruct (returned_chain_facts rels items c Hc').
Qed.

Lemma rates_and_factor_bounded_witness :
  participation_rate
    (calculate_chain_metrics (find_chains Examples.abcd_rels Examples.abcd_items).2
       Examples.abcd_items) <= 1.
Proof.
  refine (proj2 (proj1 (rates_and_factor_bounded Examples.abcd_rels Examples.abcd_items _))).
  apply Forall_forall. apply (bool_decide_unpack _). vm_compute. exact I.
Defined.

(** C8, as stated, fails: with one registered instance and a relationship
    between two other ids, two nodes take part in a chain and the
    participation rate is 2. *)
Lemma participation_rate_above_one :
  ¬ participation_rate
      (calculate_chain_metrics (find_chains Examples.orphan_rels Examples.orphan_items).2
         Examples.orphan_items) <= 1.
Proof. intros H. vm_compute in H. by apply H. Qed.

End bounds.

(** * Further properties of the engine *)

(** ** Edge annotation ([_enhance_relationships_with_chain_info]) *)

Section annotation.

Import ChainAnalyzer.

Implicit Types (c : Chain) (chains : list Chain) (e : string * string).
Implicit Types (rel : SatdRelationship) (rels : list SatdRelationship).

Lemma index_edges_elem (m : gmap (string * string) (list string)) (cid : string)
    (pairs : list (string * string)) e (id : string) :
  id ∈ default [] (foldl (λ m edge, <[edge := default [] (m !! edge) ++ [cid]]> m)
                         m pairs !! e)
  ↔ id ∈ default [] (m !! e) ∨ (id = cid ∧ e ∈ pairs).
Proof.
  revert m. induction pairs as [|x pairs IH]; intros m; simpl.
  - split; [auto | intros [?|[_ H]]; [done | inversion H]].
  - rewrite IH, lookup_insert, elem_of_cons. case_decide as Hx; simpl.
    + subst x. rewrite elem_of_app, list_elem_of_singleton. tauto.
    + split; [intros [?|[? ?]]; auto | intros [?|[? [?|?]]]; auto]. congruence.
Qed.

(** [edge_to_chains] maps an edge to the ids of the chains that run along
    it. *)
Lemma edge_to_chains_elem chains e (id : string) :
  id ∈ default [] (edge_to_chains chains !! e)
  ↔ ∃ c, c ∈ chains ∧ chain_id c = id ∧ e ∈ consecutive_pairs (chain_nodes c).
Proof.
  unfold edge_to_chains.
  assert (Hgen : ∀ m : gmap (string * string) (list string),
    id ∈ default [] (foldl (λ m chain,
                              foldl (λ m edge,
                                       <[edge := default [] (m !! edge) ++ [chain_id chain]]> m)
                                    m (consecutive_pairs (chain_nodes chain))) m chains !! e)
    ↔ id ∈ default [] (m !! e)
      ∨ ∃ c, c ∈ chains ∧ chain_id c = id ∧ e ∈ consecutive_pairs (chain_nodes c)).
  { induction chains as [|c0 chains IH]; intros m; simpl.
    - split; [auto | intros [?|(? & H & _)]; [done | inversion H]].
    - rewrite IH, index_edges_elem. split.
      + intros [[?|[-> ?]]|(c & ? & ? & ?)]; auto.
        * right. exists c0. split_and!; [left | done | done].
        * right. exists c. split_and!; [by right | done | done].
      + intros [?|(c & [->|?]%elem_of_cons & <- & ?)]; eauto 8. }
  rewrite Hgen, lookup_empty. simpl.
  split; [intros [H|?]; [inversion H | done] | auto].
Qed.

(** X1. The enhanced relationships are copies of the relationships, in the
    same order and with the same source, target, types, strength and
    description; the [chain_ids] of a copy are the ids of the chains in
    which its (source, target) pair is a consecutive pair, and [in_chain]
    is set exactly when there is such a chain. *)
Theorem enhanced_relationships_mark_chain_edges rels chains i rel :
  rels !! i = Some rel →
  length (_enhance_relationships_with_chain_info rels chains) = length rels
  ∧ ∃ rel', _enhance_relationships_with_chain_info rels chains !! i = Some rel'
      ∧ source_id rel' = source_id rel ∧ target_id rel' = target_id rel
      ∧ types rel' = types rel ∧ strength rel' = strength rel
      ∧ description rel' = description rel
      ∧ (∀ id, id ∈ chain_ids rel'
               ↔ ∃ c, c ∈ chains ∧ chain_id c = id
                      ∧ (source_id rel, target_id rel)
                        ∈ consecutive_pairs (chain_nodes c))
      ∧ (in_chain rel' = true
         ↔ ∃ c, c ∈ chains
                ∧ (source_id rel, target_id rel) ∈ consecutive_pairs (chain_nodes c)).
Proof.
  intros Hi. unfold _enhance_relationships_with_chain_info.
  split; [apply length_fmap|].
  rewrite list_lookup_fmap, Hi. simpl. eexists. split; [reflexivity|]. simpl.
  split_and!; try done.
  - intros id. apply edge_to_chains_elem.
  - rewrite bool_decide_eq_true.
    set (ids := default [] (edge_to_chains chains !! (source_id rel, target_id rel))).
    pose proof (λ id, edge_to_chains_elem chains (source_id rel, target_id rel) id) as Hids.
    fold ids in Hids. split.
    + intros Hlen. destruct ids as [|id ids']; simpl in Hlen; [lia|].
      destruct (proj1 (Hids id)) as (c & Hc & _ & Hp); [left | eauto].
    + intros (c & Hc & Hp).
      assert (Hin : chain_id c ∈ ids) by (apply Hids; eauto).
      destruct ids; [inversion Hin | simpl; lia].
Qed.

Lemma enhanced_relationships_mark_chain_edges_witness :
  ∃ rel', _enhance_relationships_with_chain_info Examples.abcd_rels
            [Chain_init "chain-1" ["A"; "B"; "C"]] !! 1%nat = Some rel'
          ∧ in_chain rel' = true.
Proof.
  destruct (enhanced_relationships_mark_chain_edges Examples.abcd_rels
              [Chain_init "chain-1" ["A"; "B"; "C"]] 1 (Examples.call_edge "B" "C")
              eq_refl) as (_ & rel' & Hrel' & _ & _ & _ & _ & _ & _ & Hin).
  exists rel'. split; [exact Hrel'|]. apply Hin.
  exists (Chain_init "chain-1" ["A"; "B"; "C"]). split; [left | right; left].
Defined.

End annotation.

(** ** The deduplication key *)

Section join.

Lemma app_empty_r (s : string) : s +:+ "" = s.
Proof. induction s as [|c s IH]; [done|]. by rewrite app_cons, IH. Qed.

Lemma comma_free_cons (c : ascii) (s : string) :
  Spec.comma_free (String c s) ↔ c ≠ ","%char ∧ Spec.comma_free s.
Proof.
  unfold Spec.comma_free. rewrite contains_unfold.
  destruct (String.prefix "," (String c s)) eqn:Hp.
  - apply prefix_app in Hp as [suf Hs]. rewrite app_cons in Hs.
    injection Hs as -> _. split; [done | by intros [? _]].
  - split; [|by intros [_ ?]]. intros H. split; [|done]. intros ->.
    assert (String.prefix "," (String "," s) = true); [|congruence].
    apply prefix_app. by exists s.
Qed.

Lemma join_cons (x : string) (l : list string) :
  PyStr.join "," (x :: l)
  = x +:+ match l with [] => "" | _ => "," +:+ PyStr.join "," l end.
Proof. destruct l; [by rewrite app_empty_r | done]. Qed.

(** Two strings that continue after a comma-free head either with nothing
    or with a comma have the same head. *)
Lemma comma_free_head (x y r1 r2 : string) :
  Spec.comma_free x → Spec.comma_free y →
  (r1 = "" ∨ ∃ r, r1 = String "," r) → (r2 = "" ∨ ∃ r, r2 = String "," r) →
  x +:+ r1 = y +:+ r2 → x = y ∧ r1 = r2.
Proof.
  revert y. induction x as [|c x IH]; intros y Hx Hy H1 H2 Heq.
  - destruct y as [|c' y]; [done|]. rewrite app_nil, app_cons in Heq.
    apply comma_free_cons in Hy as [Hc' _].
    destruct H1 as [->|[r ->]]; [done | congruence].
  - apply comma_free_cons in Hx as [Hc Hx]. destruct y as [|c' y].
    + rewrite app_nil, app_cons in Heq.
      destruct H2 as [->|[r ->]]; [done | congruence].
    + rewrite !app_cons in Heq. injection Heq as <- Heq.
      apply comma_free_cons in Hy as [_ Hy].
      destruct (IH y Hx Hy H1 H2 Heq) as [-> ->]. done.
Qed.

(** On non-empty lists of comma-free ids the key determines the list. *)
Lemma join_inj (x y : string) (l1 l2 : list string) :
  Forall Spec.comma_free (x :: l1) → Forall Spec.comma_free (y :: l2) →
  PyStr.join "," (x :: l1) = PyStr.join "," (y :: l2) → x :: l1 = y :: l2.
Proof.
  revert x y l2. induction l1 as [|a l1 IH]; intros x y l2 H1 H2 Heq;
    rewrite !join_cons in Heq;
    apply Forall_cons in H1 as [Hx H1]; apply Forall_cons in H2 as [Hy H2].
  - destruct l2 as [|b l2].
    + by destruct (comma_free_head x y "" "" Hx Hy (or_introl eq_refl)
                     (or_introl eq_refl) Heq) as [-> _].
    + destruct (comma_free_head x y _ _ Hx Hy (or_introl eq_refl)
                  (or_intror (ex_intro _ _ eq_refl)) Heq) as [_ Hr]. done.
  - destruct l2 as [|b l2].
    + destruct (comma_free_head x y _ _ Hx Hy
                  (or_intror (ex_intro _ _ eq_refl)) (or_introl eq_refl) Heq)
        as [_ Hr]. done.
    + destruct (comma_free_head x y _ _ Hx Hy
                  (or_intror (ex_intro _ _ eq_refl))
                  (or_intror (ex_intro _ _ eq_refl)) Heq) as [-> Hr].
      injection Hr as Hr. rewrite <- ?join_cons in Hr.
      by rewrite (IH a b l2 H1 H2 Hr).
Qed.

End join.

(** ** More on the chains of [find_chains] *)

Section more_chains.

Import ChainAnalyzer.

Implicit Types (c : Chain) (chains : list Chain) (g : nx.DiGraph).
Implicit Types (rels : list SatdRelationship) (items : list TechnicalDebt).

(** Deduplication keeps a chain with the key of every chain. *)
Lemma dedup_fold_complete (st : list Chain * gset string) chains :
  (∀ x, x ∈ st.2 ↔ x ∈ (λ c, PyStr.join "," (chain_nodes c)) <$> st.1) →
  (∀ c, c ∈ st.1 → c ∈ (foldl dedup_step st chains).1)
  ∧ ∀ c, c ∈ chains →
      ∃ c', c' ∈ (foldl dedup_step st chains).1
            ∧ PyStr.join "," (chain_nodes c') = PyStr.join "," (chain_nodes c).
Proof.
  revert st. induction chains as [|c0 chains IH]; intros st Hset; simpl.
  - split; [done | intros c H; inversion H].
  - assert (Hset' : ∀ x, x ∈ (dedup_step st c0).2
                        ↔ x ∈ (λ c, PyStr.join "," (chain_nodes c)) <$> (dedup_step st c0).1).
    { unfold dedup_step. case_decide; simpl; [done|]. intros x.
      rewrite elem_of_union, elem_of_singleton, fmap_app, elem_of_app, Hset.
      simpl. rewrite list_elem_of_singleton. tauto. }
    destruct (IH _ Hset') as [Hkeep Hall]. split.
    + intros c Hc. apply Hkeep. unfold dedup_step. case_decide; simpl; [done|].
      apply elem_of_app. by left.
    + intros c [->|Hc]%elem_of_cons; [|by apply Hall].
      clear Hall Hset'. unfold dedup_step in Hkeep |- *.
      destruct (decide (PyStr.join "," (chain_nodes c0) ∈ st.2)) as [Hseen|Hseen];
        simpl in Hkeep |- *.
      * apply Hset, list_elem_of_fmap in Hseen as (c' & Heq & Hc').
        exists c'. split; [by apply Hkeep | done].
      * exists c0. split; [|done]. apply Hkeep, elem_of_app. right. left.
Qed.

Lemma dedup_chains_complete chains c :
  c ∈ chains →
  ∃ c', c' ∈ dedup_chains chains
        ∧ PyStr.join "," (chain_nodes c') = PyStr.join "," (chain_nodes c).
Proof.
  apply dedup_fold_complete. simpl.
  intros x. split; intros H; [by apply not_elem_of_empty in H | inversion H].
Qed.

Lemma dedup_fold_sublist (st : list Chain * gset string) chains :
  ∃ k, (foldl dedup_step st chains).1 = st.1 ++ k ∧ k `sublist_of` chains.
Proof.
  revert st. induction chains as [|c0 chains IH]; intros st; simpl.
  - exists []. by rewrite app_nil_r.
  - destruct (IH (dedup_step st c0)) as (k & -> & Hk).
    unfold dedup_step. case_decide; simpl.
    + exists k. split; [done | by apply sublist_cons].
    + exists (c0 :: k). split; [by rewrite <- app_assoc | by apply sublist_skip].
Qed.

Lemma dedup_chains_sublist chains : dedup_chains chains `sublist_of` chains.
Proof.
  unfold dedup_chains. by destruct (dedup_fold_sublist ([], ∅) chains) as (k & -> & Hk).
Qed.

(** The node ids of a chain of [find_chains] are ends of relationships. *)
Lemma bounded_chain_endpoints rels items p x :
  Spec.bounded_chain (build_graph rels items) cutoff p → x ∈ p →
  ∃ rel, rel ∈ rels ∧ (x = source_id rel ∨ x = target_id rel).
Proof.
  intros ((_ & Hfol) & Hlen & _) Hx.
  destruct (in_consecutive_pair p x Hlen Hx) as (u & v & Huv & Hor).
  apply Hfol, build_graph_has_edge in Huv as (rel & Hrel & <- & <-). eauto.
Qed.

(** Where no end of a relationship holds a comma, every simple path of at
    most [cutoff] edges is the node sequence of a returned chain. *)
Lemma find_chains_complete rels items p :
  (∀ rel, rel ∈ rels →
     Spec.comma_free (source_id rel) ∧ Spec.comma_free (target_id rel)) →
  Spec.bounded_chain (build_graph rels items) cutoff p →
  ∃ c, c ∈ dedup_chains (candidate_chains (build_graph rels items))
       ∧ chain_nodes c = p.
Proof.
  intros Hfree Hp.
  assert (Hok := build_graph_ok rels items).
  assert (Hfree' : ∀ q, Spec.bounded_chain (build_graph rels items) cutoff q →
                        Forall Spec.comma_free q).
  { intros q Hq. apply Forall_forall. intros x Hx.
    destruct (bounded_chain_endpoints rels items q x Hq Hx) as (rel & Hrel & [-> | ->]);
      by destruct (Hfree rel Hrel). }
  pose proof Hp as Hin. apply candidate_chains_spec in Hin; [|done].
  apply list_elem_of_fmap in Hin as (c & -> & Hc).
  destruct (dedup_chains_complete _ c Hc) as (c' & Hc' & Hkey).
  exists c'. split; [done|].
  assert (Hp' : Spec.bounded_chain (build_graph rels items) cutoff (chain_nodes c')).
  { apply candidate_chains_spec; [done|]. apply list_elem_of_fmap.
    exists c'. split; [done | by apply dedup_chains_sub]. }
  pose proof (Hfree' _ Hp) as F1. pose proof (Hfree' _ Hp') as F2.
  destruct Hp as (_ & Hl1 & _), Hp' as (_ & Hl2 & _).
  destruct (chain_nodes c) as [|x l1]; [simpl in Hl1; lia|].
  destruct (chain_nodes c') as [|y l2]; [simpl in Hl2; lia|].
  by apply join_inj.
Qed.

End more_chains.

Section chain_extras.

Import ChainAnalyzer.

Implicit Types (c : Chain) (chains : list Chain) (g : nx.DiGraph).
Implicit Types (rels : list SatdRelationship) (items : list TechnicalDebt).

Lemma consecutive_pair_distinct (p : list string) (u v : string) :
  NoDup p → (u, v) ∈ consecutive_pairs p → u ≠ v.
Proof.
  induction p as [|a [|b p] IH]; intros Hnd Huv; try by inversion Huv.
  change (consecutive_pairs (a :: b :: p)) with ((a, b) :: consecutive_pairs (b :: p)) in Huv.
  apply NoDup_cons in Hnd as [Hnot Hnd].
  apply elem_of_cons in Huv as [[= -> ->]|Huv]; [|by apply IH].
  intros ->. apply Hnot. left.
Qed.

Lemma unique_chain_is_path rels items c :
  c ∈ dedup_chains (candidate_chains (build_graph rels items)) →
  Spec.bounded_chain (build_graph rels items) cutoff (chain_nodes c).
Proof.
  intros Hc%dedup_chains_sub. apply candidate_chains_spec; [apply build_graph_ok|].
  apply list_elem_of_fmap. eauto.
Qed.

Lemma pair_is_bounded_chain rels items rel :
  rel ∈ rels → source_id rel ≠ target_id rel →
  Spec.bounded_chain (build_graph rels items) cutoff [source_id rel; target_id rel].
Proof.
  intros Hrel Hne. unfold Spec.bounded_chain, Spec.simple_path, Spec.edge_count, cutoff.
  split_and!; simpl; try lia.
  - apply NoDup_cons. split; [by intros H%list_elem_of_singleton | apply NoDup_singleton].
  - apply follows_edges_cons. split; [|apply follows_edges_single].
    apply build_graph_has_edge. eauto.
Qed.

(** X2. In the relationships that [find_chains] returns, a self-loop is
    never marked as part of a chain; where no end of a relationship holds a
    comma, every relationship between two different ids is marked. *)
Theorem in_chain_marks_non_self_loops rels items :
  (∀ rel', rel' ∈ (find_chains rels items).1 →
     source_id rel' = target_id rel' → in_chain rel' = false ∧ chain_ids rel' = [])
  ∧ ((∀ rel, rel ∈ rels →
        Spec.comma_free (source_id rel) ∧ Spec.comma_free (target_id rel)) →
     ∀ rel', rel' ∈ (find_chains rels items).1 →
       source_id rel' ≠ target_id rel' → in_chain rel' = true).
Proof.
  unfold find_chains. simpl. unfold _enhance_relationships_with_chain_info.
  set (unique := dedup_chains (candidate_chains (build_graph rels items))).
  split.
  - intros rel' (rel & -> & Hrel)%list_elem_of_fmap. simpl. intros Heq.
    assert (Hnil : default [] (edge_to_chains unique !! (source_id rel, target_id rel)) = []).
    { destruct (default [] _) as [|id ids] eqn:E; [done|]. exfalso.
      assert (Hid : id ∈ default [] (edge_to_chains unique
                                       !! (source_id rel, target_id rel)))
        by (rewrite E; left).
      apply edge_to_chains_elem in Hid as (c & Hc & _ & Hp).
      apply unique_chain_is_path in Hc as ((Hnd & _) & _).
      by apply (consecutive_pair_distinct _ _ _ Hnd Hp). }
    rewrite Hnil. done.
  - intros Hfree rel' (rel & -> & Hrel)%list_elem_of_fmap. simpl. intros Hne.
    destruct (find_chains_complete rels items [source_id rel; target_id rel] Hfree)
      as (c & Hc & Hnodes); [by apply pair_is_bounded_chain|].
    apply bool_decide_eq_true.
    assert (Hid : chain_id c ∈ default [] (edge_to_chains unique
                                             !! (source_id rel, target_id rel))).
    { apply edge_to_chains_elem. exists c. split_and!; try done.
      rewrite Hnodes. left. }
    destruct (default [] _); [inversion Hid | simpl; lia].
Qed.

Lemma in_chain_marks_non_self_loops_witness :
  Forall (λ rel', source_id rel' ≠ target_id rel' → in_chain rel' = true)
    (find_chains Examples.abcd_rels Examples.abcd_items).1.
Proof.
  apply Forall_forall.
  apply (proj2 (in_chain_marks_non_self_loops Examples.abcd_rels Examples.abcd_items)).
  apply Forall_forall. repeat constructor.
Defined.

(** X3. [find_chains] finds a chain exactly when some relationship relates
    two different ids: without relationships, or with self-loops only, it
    returns no chain. *)
Theorem chains_exist_iff_proper_relationship rels items :
  (find_chains rels items).2 = [] ↔ ∀ rel, rel ∈ rels → source_id rel = target_id rel.
Proof.
  split.
  - intros Hnil rel Hrel. destruct (decide (source_id rel = target_id rel)) as [|Hne]; [done|].
    exfalso.
    pose proof (pair_is_bounded_chain rels items rel Hrel Hne) as Hp.
    apply candidate_chains_spec in Hp; [|apply build_graph_ok].
    apply list_elem_of_fmap in Hp as (c & _ & Hc).
    destruct (dedup_chains_complete _ c Hc) as (c' & Hc' & _).
    assert (Hin : c' ∈ (find_chains rels items).2)
      by (unfold find_chains; simpl; by rewrite sort_by_length_desc_perm).
    rewrite Hnil in Hin. inversion Hin.
  - intros Hloops. destruct ((find_chains rels items).2) as [|c l] eqn:E; [done|].
    exfalso. assert (Hc : c ∈ (find_chains rels items).2) by (rewrite E; left).
    destruct (returned_chain_facts rels items c Hc) as (Hlen & Hcon & Hnd & Hedges).
    destruct (chain_nodes c) as [|a [|b p]] eqn:En; simpl in Hcon; try lia.
    destruct (Hedges a b) as (_ & rel & Hrel & <- & <-); [left|].
    apply NoDup_cons in Hnd as [Hnot _]. apply Hnot.
    rewrite (Hloops rel Hrel). left.
Qed.

Lemma chains_exist_iff_proper_relationship_witness :
  (find_chains [Examples.call_edge "A" "A"] Examples.abcd_items).2 = [].
Proof.
  apply (proj2 (chains_exist_iff_proper_relationship
                  [Examples.call_edge "A" "A"] Examples.abcd_items)).
  intros rel ->%list_elem_of_singleton. reflexivity.
Defined.

(** X4. Where no end of a relationship holds a comma, deduplication loses
    nothing: the node sequences of the returned chains are exactly the
    simple paths of the graph with at least 2 nodes and at most 20 edges. *)
Theorem returned_chains_complete_without_commas rels items p :
  (∀ rel, rel ∈ rels →
     Spec.comma_free (source_id rel) ∧ Spec.comma_free (target_id rel)) →
  p ∈ chain_nodes <$> (find_chains rels items).2
  ↔ Spec.bounded_chain (build_graph rels items) 20 p.
Proof.
  intros Hfree. unfold find_chains. simpl. rewrite sort_by_length_desc_perm. split.
  - intros (c & -> & Hc)%list_elem_of_fmap. by apply unique_chain_is_path.
  - intros Hp. destruct (find_chains_complete rels items p Hfree Hp) as (c & Hc & <-).
    apply list_elem_of_fmap. eauto.
Qed.

Lemma returned_chains_complete_without_commas_witness :
  ["B"; "C"; "D"] ∈ chain_nodes <$> (find_chains Examples.abcd_rels Examples.abcd_items).2.
Proof.
  apply (returned_chains_complete_without_commas Examples.abcd_rels Examples.abcd_items).
  - apply Forall_forall. repeat constructor.
  - unfold Spec.bounded_chain, Spec.simple_path, Spec.edge_count. split_and!; simpl; try lia.
    + apply (bool_decide_unpack _). vm_compute. exact I.
    + intros u v Huv. apply build_graph_has_edge.
      apply elem_of_cons in Huv as [[= -> ->]|Huv].
      * exists (Examples.call_edge "B" "C"). split; [right; left | done].
      * apply list_elem_of_singleton in Huv as [= -> ->].
        exists (Examples.call_edge "C" "D"). split; [right; right; left | done].
Defined.

End chain_extras.

Section chain_ids.

Import ChainAnalyzer.

Implicit Types (st : list Chain * nat) (g : nx.DiGraph).

(** The ids of the chains so far are [chain-1], [chain-2], ... and the
    counter is the next number. *)
Lemma add_path_numbering st path :
  chain_id <$> st.1 = (λ k, "chain-" +:+ pretty k) <$> seq 1 (length st.1) →
  st.2 = S (length st.1) →
  chain_id <$> (add_path st path).1
  = (λ k, "chain-" +:+ pretty k) <$> seq 1 (length (add_path st path).1)
  ∧ (add_path st path).2 = S (length (add_path st path).1).
Proof.
  intros Hids Hk. unfold add_path. case_decide; simpl; [|done].
  rewrite length_app, Nat.add_1_r, seq_S, !fmap_app, Hids, Hk. simpl. done.
Qed.

Lemma fold_numbering {A} (f : list Chain * nat → A → list Chain * nat) (l : list A) st :
  (∀ st x,
     chain_id <$> st.1 = (λ k, "chain-" +:+ pretty k) <$> seq 1 (length st.1) →
     st.2 = S (length st.1) →
     chain_id <$> (f st x).1
     = (λ k, "chain-" +:+ pretty k) <$> seq 1 (length (f st x).1)
     ∧ (f st x).2 = S (length (f st x).1)) →
  chain_id <$> st.1 = (λ k, "chain-" +:+ pretty k) <$> seq 1 (length st.1) →
  st.2 = S (length st.1) →
  chain_id <$> (foldl f st l).1
  = (λ k, "chain-" +:+ pretty k) <$> seq 1 (length (foldl f st l).1)
  ∧ (foldl f st l).2 = S (length (foldl f st l).1).
Proof.
  intros Hf. revert st. induction l as [|x l IH]; intros st Hids Hk; simpl; [done|].
  destruct (Hf st x Hids Hk). by apply IH.
Qed.

Lemma candidate_chains_numbering g :
  chain_id <$> candidate_chains g
  = (λ k, "chain-" +:+ pretty k) <$> seq 1 (length (candidate_chains g)).
Proof.
  unfold candidate_chains. apply fold_numbering; [|done|done].
  intros st source. apply fold_numbering.
  intros st' target Hids Hk. unfold scan_pair. case_decide; [done|].
  destruct (nx.all_simple_paths g source target cutoff) as [paths|]; [|done].
  apply fold_numbering; [|done|done]. intros st'' path. apply add_path_numbering.
Qed.

Lemma chain_label_inj : Inj (=) (=) (λ k : nat, "chain-" +:+ pretty k).
Proof. intros a b H. by apply (inj (String.app "chain-")), (inj pretty) in H. Qed.

(** X5. The chains that [find_chains] returns have pairwise different ids,
    each of the form [chain-k] with [k] between 1 and the number of
    candidate chains. *)
Theorem returned_chain_ids_distinct
    (rels : list SatdRelationship) (items : list TechnicalDebt) :
  NoDup (chain_id <$> (find_chains rels items).2)
  ∧ ∀ c, c ∈ (find_chains rels items).2 →
      ∃ k, 1 ≤ k ≤ length (candidate_chains (build_graph rels items))
           ∧ chain_id c = "chain-" +:+ pretty k.
Proof.
  set (g := build_graph rels items).
  assert (Hcand : NoDup (chain_id <$> candidate_chains g)).
  { rewrite candidate_chains_numbering.
    apply (NoDup_fmap_2 _ (Inj0 := chain_label_inj)), NoDup_seq. }
  split.
  - unfold find_chains. simpl. fold g. rewrite sort_by_length_desc_perm.
    eapply sublist_NoDup; [exact Hcand|].
    apply fmap_sublist, dedup_chains_sublist.
  - intros c Hc%find_chains_elem. fold g in Hc.
    assert (Hid : chain_id c ∈ chain_id <$> candidate_chains g)
      by (apply list_elem_of_fmap; eauto).
    rewrite candidate_chains_numbering in Hid.
    apply list_elem_of_fmap in Hid as (k & Hk & Hin).
    apply elem_of_seq in Hin. exists k. split; [lia | done].
Qed.

End chain_ids.

Lemma returned_chain_ids_distinct_witness :
  ∃ k, 1 ≤ k ≤ length (ChainAnalyzer.candidate_chains
                         (ChainAnalyzer.build_graph Examples.abcd_rels Examples.abcd_items))
       ∧ "chain-3" = "chain-" +:+ pretty k.
Proof.
  apply (proj2 (returned_chain_ids_distinct Examples.abcd_rels Examples.abcd_items)
           (Chain_init "chain-3" ["A"; "B"; "C"; "D"])).
  vm_compute. left.
Defined.

(** ** More on the chain metrics *)

Section more_metrics.

Import ChainAnalyzer.
Local Open Scope Q_scope.

Implicit Types (c : Chain) (chains : list Chain) (items : list TechnicalDebt).

Lemma sum_list_le_max (l : list nat) : (sum_list l ≤ length l * max_list l)%nat.
Proof. induction l as [|x l IH]; simpl; nia. Qed.

Lemma sum_list_ge_min (l : list nat) (lo : nat) :
  (∀ x, x ∈ l → (lo ≤ x)%nat) → (length l * lo ≤ sum_list l)%nat.
Proof.
  induction l as [|x l IH]; intros Hlo; simpl; [lia|].
  assert (lo ≤ x)%nat by (apply Hlo; left).
  assert (length l * lo ≤ sum_list l)%nat by (apply IH; intros y Hy; apply Hlo; by right).
  lia.
Qed.

Lemma truediv_le_nat (a b n : nat) :
  (0 < b)%nat → (a ≤ n * b)%nat → truediv a b <= inject_Z (Z.of_nat n).
Proof.
  intros Hb Hab. unfold truediv. apply Qle_shift_div_r.
  - change 0 with (inject_Z 0). rewrite <- Zlt_Qlt. lia.
  - rewrite <- inject_Z_mult, <- Zle_Qle. lia.
Qed.

Lemma truediv_ge_nat (a b n : nat) :
  (0 < b)%nat → (n * b ≤ a)%nat → inject_Z (Z.of_nat n) <= truediv a b.
Proof.
  intros Hb Hab. unfold truediv. apply Qle_shift_div_l.
  - change 0 with (inject_Z 0). rewrite <- Zlt_Qlt. lia.
  - rewrite <- inject_Z_mult, <- Zle_Qle. lia.
Qed.

Lemma calculate_chain_metrics_nonempty chains items :
  chains ≠ [] →
  calculate_chain_metrics chains items
  = mkChainMetrics
      (truediv (sum_list (chain_length <$> chains)) (length (chain_length <$> chains)))
      (max_list (chain_length <$> chains))
      (match items with
       | [] => 0
       | _ => truediv (size (participating_nodes chains)) (length items)
       end)
      (truediv (cross_module_count (debt_map items) chains) (length chains)).
Proof. by destruct chains. Qed.

(** X6. For a non-empty chain list the maximum chain length is the length
    of one of the chains and bounds all of them, and the average chain
    length lies between every lower bound of the lengths and the
    maximum. *)
Theorem average_between_bounds_and_maximum chains items :
  chains ≠ [] →
  let m := calculate_chain_metrics chains items in
  (∃ c, c ∈ chains ∧ chain_length c = maximum_chain_length m)
  ∧ (∀ c, c ∈ chains → (chain_length c ≤ maximum_chain_length m)%nat)
  ∧ average_chain_length m <= inject_Z (Z.of_nat (maximum_chain_length m))
  ∧ ∀ lo : nat, (∀ c, c ∈ chains → (lo ≤ chain_length c)%nat) →
      inject_Z (Z.of_nat lo) <= average_chain_length m.
Proof.
  intros Hne m. subst m. rewrite calculate_chain_metrics_nonempty by done. simpl.
  assert (Hlen : (0 < length (chain_length <$> chains))%nat)
    by (destruct chains; [done | simpl; lia]).
  split_and!.
  - assert (Hin : max_list (chain_length <$> chains) ∈ chain_length <$> chains)
      by (apply max_list_elem_of; by destruct chains).
    apply list_elem_of_fmap in Hin as (c & Hc & Hin). eauto.
  - intros c Hc. apply max_list_elem_of_le, list_elem_of_fmap. eauto.
  - apply truediv_le_nat; [done|].
    rewrite Nat.mul_comm. apply sum_list_le_max.
  - intros lo Hlo. apply truediv_ge_nat; [done|].
    rewrite Nat.mul_comm. apply sum_list_ge_min.
    intros x (c & -> & Hc)%list_elem_of_fmap. by apply Hlo.
Qed.

Lemma average_between_bounds_and_maximum_witness :
  average_chain_length
    (calculate_chain_metrics (find_chains Examples.abcd_rels Examples.abcd_items).2
       Examples.abcd_items) <= 4.
Proof.
  refine (proj1 (proj2 (proj2 (average_between_bounds_and_maximum
             (find_chains Examples.abcd_rels Examples.abcd_items).2
             Examples.abcd_items _)))).
  vm_compute. discriminate.
Defined.

Lemma debt_map_lookup items (k : string) d :
  debt_map items !! k = Some d → d ∈ items.
Proof.
  unfold debt_map.
  assert (Hgen : ∀ m : gmap string TechnicalDebt,
    foldl (λ m debt, <[debt_id debt := debt]> m) m items !! k = Some d →
    m !! k = Some d ∨ d ∈ items).
  { induction items as [|d0 items IH]; intros m; simpl; [auto|].
    intros [H|H]%IH; [|right; by right].
    rewrite lookup_insert in H. case_decide; [|by left].
    injection H as ->. right. left. }
  intros [H|H]%Hgen; [by rewrite lookup_empty in H | done].
Qed.

Lemma chain_modules_elem items c (x : string) :
  x ∈ chain_modules (debt_map items) c →
  ∃ d, d ∈ items ∧ x = PyStr.dirname (debt_file d).
Proof.
  unfold chain_modules.
  assert (Hgen : ∀ acc : gset string,
    x ∈ foldl (λ modules node_id,
                 match debt_map items !! node_id with
                 | Some debt => {[PyStr.dirname (debt_file debt)]} ∪ modules
                 | None => modules
                 end) acc (chain_nodes c) →
    x ∈ acc ∨ ∃ d, d ∈ items ∧ x = PyStr.dirname (debt_file d)).
  { induction (chain_nodes c) as [|n ns IH]; intros acc; simpl; [auto|].
    intros [H|H]%IH; [|by right].
    destruct (debt_map items !! n) as [d|] eqn:Hd; [|by left].
    apply elem_of_union in H as [->%elem_of_singleton|H]; [|by left].
    right. exists d. split; [by apply debt_map_lookup in Hd | done]. }
  intros [H|H]%Hgen; [by apply not_elem_of_empty in H | done].
Qed.

(** X7. Where all debt items lie in one directory, no chain counts as a
    cross-module chain: the cross-module rate is 0. *)
Theorem one_directory_no_cross_module_chain chains items :
  (∀ d d', d ∈ items → d' ∈ items →
     PyStr.dirname (debt_file d) = PyStr.dirname (debt_file d')) →
  cross_module_chains (calculate_chain_metrics chains items) == 0.
Proof.
  intros Hdir. destruct (decide (chains = [])) as [->|Hne]; [done|].
  rewrite calculate_chain_metrics_nonempty by done. simpl.
  assert (Hzero : cross_module_count (debt_map items) chains = 0%nat).
  { unfold cross_module_count.
    assert (Hgen : ∀ l : list Chain,
      foldl (λ n chain, if decide (1 < size (chain_modules (debt_map items) chain))%nat
                        then S n else n) 0%nat l = 0%nat).
    { induction l as [|c l IH] using rev_ind; [done|].
      rewrite foldl_app. simpl. rewrite IH.
      rewrite decide_False; [done|]. apply Nat.le_ngt.
      destruct (elements (chain_modules (debt_map items) c)) as [|x xs] eqn:E.
      - apply elements_empty_inv in E. apply leibniz_equiv in E.
        rewrite E, size_empty. lia.
      - assert (Hx : x ∈ chain_modules (debt_map items) c)
          by (apply elem_of_elements; rewrite E; left).
        apply chain_modules_elem in Hx as (d0 & Hd0 & ->).
        transitivity (size ({[PyStr.dirname (debt_file d0)]} : gset string));
          [|by rewrite size_singleton].
        apply subseteq_size. intros y (d & Hd & ->)%chain_modules_elem.
        apply elem_of_singleton. by apply Hdir. }
    apply Hgen. }
  rewrite Hzero. unfold truediv, Qdiv. simpl. apply Qmult_0_l.
Qed.

Lemma one_directory_no_cross_module_chain_witness :
  cross_module_chains
    (calculate_chain_metrics (find_chains Examples.abcd_rels Examples.abcd_items).2
       Examples.abcd_items) == 0.
Proof.
  apply one_directory_no_cross_module_chain.
  intros d d' Hd Hd'.
  assert (Hall : Forall (λ d, PyStr.dirname (debt_file d) = "src") Examples.abcd_items)
    by (repeat constructor).
  rewrite Forall_forall in Hall. by rewrite (Hall d Hd), (Hall d' Hd').
Defined.

End more_metrics.

(** ** More on scoring *)

Section more_scoring.

Import SirCalculator.

Implicit Types (w : gmap string Q) (idx : gmap string (list Chain)).
Implicit Types (g : nx.DiGraph) (h : gmap loc TechnicalDebt) (d : TechnicalDebt).

(** On a store whose listed instances already hold their scores the loop
    changes nothing. *)
Lemma score_loop_fixed w idx m g refs h :
  (∀ ℓ, ℓ ∈ refs → ∃ d r, h !! ℓ = Some d ∧ score_debt w idx m g d = Some r
                          ∧ store_score d r = d) →
  score_loop w idx m g refs h = Some h.
Proof.
  induction refs as [|a refs IH]; intros Hfix; simpl; [done|].
  destruct (Hfix a) as (d & r & Hd & Hr & Hs); [left|].
  rewrite Hd. simpl. rewrite Hr. simpl. rewrite Hs, insert_id by done.
  apply IH. intros ℓ Hℓ. apply Hfix. by right.
Qed.

(** X8. Scoring is idempotent: scoring the store that a first call returned
    returns that store again. *)
Theorem scoring_twice_is_scoring_once
    w (σ σ' : Store) (l l' : loc) (rels : list SatdRelationship)
    (chains : list Chain) g :
  calculate_sir_scores w σ l rels chains g = Some (σ', l') →
  calculate_sir_scores w σ' l rels chains g = Some (σ', l).
Proof.
  unfold calculate_sir_scores.
  destruct (lists σ !! l) as [refs|] eqn:Hl; simpl; [|done].
  destruct (score_loop w _ _ g refs (debts σ)) as [h'|] eqn:Hloop; simpl; [|done].
  intros [= <- <-]. simpl. rewrite Hl. simpl.
  rewrite (score_loop_fixed w _ _ g refs h'); [done|].
  intros ℓ Hℓ. destruct (score_loop_spec _ _ _ _ _ _ _ Hloop ℓ) as [_ Hin].
  destruct (Hin Hℓ) as (d & r & Hd & Hr & Hh').
  exists (store_score d r), r. split_and!; [done | | done].
  rewrite (score_debt_identity w _ _ g d); [done | apply store_score_same].
Qed.

Lemma store2_valid : Spec.valid_refs Examples.store2 3%positive [1%positive; 2%positive].
Proof.
  split; [reflexivity|].
  intros ℓ [->|[->|H]%elem_of_cons]%elem_of_cons; [by eexists | by eexists |].
  inversion H.
Qed.

Lemma scoring_twice_is_scoring_once_witness :
  ∃ σ', calculate_sir_scores (init None) Examples.store2 3%positive
          Examples.abcd_rels [] nx.empty = Some (σ', 3%positive)
        ∧ calculate_sir_scores (init None) σ' 3%positive
            Examples.abcd_rels [] nx.empty = Some (σ', 3%positive).
Proof.
  destruct (calculate_sir_scores_spec (init None) Examples.store2 3%positive
              [1%positive; 2%positive] Examples.abcd_rels [] nx.empty
              default_weights_complete store2_valid) as (h' & Hcall & _).
  exists (mkStore h' (lists Examples.store2)). split; [exact Hcall|].
  exact (scoring_twice_is_scoring_once _ _ _ _ _ _ _ _ Hcall).
Defined.

(** X10. A weights dict that lacks one of the four keys makes scoring fail
    (the [KeyError]) as soon as the list holds an instance; an empty list is
    returned as it is, whatever the weights. *)
Theorem scoring_needs_all_weights
    w (σ : Store) (l : loc) (refs : list loc) (rels : list SatdRelationship)
    (chains : list Chain) g :
  Spec.valid_refs σ l refs →
  (refs = [] → calculate_sir_scores w σ l rels chains g = Some (σ, l))
  ∧ (refs ≠ [] → ¬ Spec.weights_complete w →
     calculate_sir_scores w σ l rels chains g = None).
Proof.
  intros [Hl Hrefs]. unfold calculate_sir_scores. rewrite Hl. simpl. split.
  - intros ->. simpl. by destruct σ.
  - intros Hne Hw. destruct refs as [|a refs]; [done|]. simpl.
    destruct (Hrefs a) as [d Hd]; [left|]. rewrite Hd. simpl.
    assert (Hnone : score_debt w (debt_in_chains chains) (max_chain_length chains) g d
                    = None).
    { unfold score_debt.
      destruct (w !! "severity") eqn:E1; [|done].
      destruct (w !! "outgoing") eqn:E2; [|done].
      destruct (w !! "incoming") eqn:E3; [|done].
      destruct (w !! "chain_length") eqn:E4; [|done].
      exfalso. apply Hw. unfold Spec.weights_complete. rewrite E1, E2, E3, E4. eauto. }
    by rewrite Hnone.
Qed.

Lemma scoring_needs_all_weights_witness :
  calculate_sir_scores (<["severity" := 1%Q]> ∅) Examples.store2 3%positive
    Examples.abcd_rels [] nx.empty = None.
Proof.
  apply (proj2 (scoring_needs_all_weights (<["severity" := 1%Q]> ∅) Examples.store2
                  3%positive [1%positive; 2%positive] Examples.abcd_rels [] nx.empty
                  store2_valid)); [done|].
  intros (_ & [x Hx] & _). vm_compute in Hx. discriminate Hx.
Defined.

End more_scoring.

(** ** Chains and influence *)

Section influence.

Import ChainAnalyzer SirCalculator RelationshipAnalyzer.

Implicit Types (g : nx.DiGraph) (p pre post : list string) (x y : string).

Lemma consecutive_pairs_app_l p q (u v : string) :
  (u, v) ∈ consecutive_pairs p → (u, v) ∈ consecutive_pairs (p ++ q).
Proof.
  induction p as [|a [|b p] IH]; intros H; try by inversion H.
  change (consecutive_pairs (a :: b :: p)) with ((a, b) :: consecutive_pairs (b :: p)) in H.
  change ((a :: b :: p) ++ q) with (a :: b :: (p ++ q)).
  change (consecutive_pairs (a :: b :: (p ++ q)))
    with ((a, b) :: consecutive_pairs (b :: (p ++ q))).
  apply elem_of_cons in H as [->|H]; [left | right; by apply IH].
Qed.

Lemma path_reaches_forward g x post y :
  Spec.follows_edges g (x :: post) → y ∈ post → Spec.reaches g x y.
Proof.
  unfold Spec.reaches. revert x. induction post as [|b post IH]; intros x Hf Hy;
    [inversion Hy|].
  apply follows_edges_cons in Hf as [Hxb Hf].
  apply elem_of_cons in Hy as [->|Hy]; [by apply rtc_once|].
  eapply rtc_l; [exact Hxb | by apply IH].
Qed.

Lemma path_reaches_backward g pre x y :
  Spec.follows_edges g (pre ++ [x]) → y ∈ pre → Spec.reaches g y x.
Proof.
  induction pre as [|a pre IH]; intros Hf Hy; [inversion Hy|].
  apply elem_of_cons in Hy as [->|Hy].
  - apply (path_reaches_forward g a (pre ++ [x])); [done|].
    apply elem_of_app. right. left.
  - apply IH; [|done]. by apply (follows_edges_app_r g [a]).
Qed.

(** On a path without repeated nodes a node reaches all the nodes after it
    and is reached by all the nodes before it. *)
Lemma path_position_influence g pre x post :
  Spec.graph_ok g → NoDup (pre ++ x :: post) →
  Spec.follows_edges g (pre ++ x :: post) →
  length post ≤ _calculate_outgoing_influence x g
  ∧ length pre ≤ _calculate_incoming_dependency x g.
Proof.
  intros (_ & _ & Hin) Hnd Hfol.
  assert (Hpost : Spec.follows_edges g (x :: post)) by by apply follows_edges_app_r in Hfol.
  assert (Hpre : Spec.follows_edges g (pre ++ [x])).
  { intros u v Huv. apply Hfol.
    replace (pre ++ x :: post) with ((pre ++ [x]) ++ post) by by rewrite <- app_assoc.
    by apply consecutive_pairs_app_l. }
  apply NoDup_app in Hnd as (Hndpre & Hsep & Hndpost).
  apply NoDup_cons in Hndpost as [Hxpost Hndpost].
  split.
  - destruct post as [|b post]; [simpl; lia|].
    pose proof Hpost as [[Hx _]%Hin _]%follows_edges_cons.
    destruct (descendants_is_Some g x Hx) as [[D HD] _].
    unfold _calculate_outgoing_influence. rewrite HD.
    rewrite <- (size_list_to_set (C := gset string) (b :: post)) by done.
    apply subseteq_size. intros y Hy%elem_of_list_to_set.
    apply (descendants_elem g x D y HD). split; [by intros ->|].
    by apply (path_reaches_forward g x (b :: post)).
  - destruct pre as [|a pre _] using rev_ind; [simpl; lia|].
    assert (Hx : x ∈ nx.nodes g).
    { destruct (Hin a x) as [_ ?]; [|done]. apply Hpre.
      rewrite <- app_assoc. clear. induction pre as [|c pre IH]; [left|].
      destruct pre; [right; left | right; apply IH]. }
    destruct (descendants_is_Some g x Hx) as [_ [A HA]].
    unfold _calculate_incoming_dependency. rewrite HA.
    rewrite <- (size_list_to_set (C := gset string) (pre ++ [a])) by done.
    apply subseteq_size. intros y Hy%elem_of_list_to_set.
    apply (ancestors_elem g x A y HA). split.
    + intros ->. apply (Hsep x Hy). left.
    + by apply (path_reaches_backward g (pre ++ [a])).
Qed.

Lemma analyzer_graph_has_edge (rels : list SatdRelationship) (a b : string) :
  nx.has_edge (foldl add_relationship nx.empty rels) a b
  ↔ ∃ rel, rel ∈ rels ∧ source_id rel = a ∧ target_id rel = b.
Proof.
  rewrite fold_add_relationship, fold_add_edge_has_edge.
  split; [intros [H|?]; [inversion H | done] | auto].
Qed.

Lemma analyzer_graph_ok (rels : list SatdRelationship) :
  Spec.graph_ok (foldl add_relationship nx.empty rels).
Proof. rewrite fold_add_relationship. apply fold_add_edge_ok, graph_ok_empty. Qed.

(** X12. With the graph that the loop of [find_all_relationships] builds
    from a list of relationships and the chains that [find_chains] returns
    for the same relationships, an instance at some position of a returned
    chain has an outgoing influence of at least the number of nodes after
    it in the chain and an incoming dependency of at least the number of
    nodes before it. *)
Theorem chain_position_bounds_influence
    (rels : list SatdRelationship) (items : list TechnicalDebt) (c : Chain)
    (pre post : list string) (x : string) :
  let g := add_relationships nx.empty rels in
  c ∈ (find_chains rels items).2 →
  chain_nodes c = pre ++ x :: post →
  length post ≤ _calculate_outgoing_influence x g
  ∧ length pre ≤ _calculate_incoming_dependency x g.
Proof.
  intros g Hc Hnodes. subst g. unfold add_relationships.
  destruct (returned_chain_facts rels items c Hc) as (_ & _ & Hnd & Hedges).
  rewrite Hnodes in Hnd, Hedges.
  apply path_position_influence; [apply analyzer_graph_ok | done |].
  intros u v Huv. apply analyzer_graph_has_edge.
  by destruct (Hedges u v Huv) as [_ ?].
Qed.

Lemma chain_position_bounds_influence_witness :
  2 ≤ _calculate_outgoing_influence "B"
        (add_relationships nx.empty Examples.abcd_rels).
Proof.
  refine (proj1 (chain_position_bounds_influence Examples.abcd_rels
                   Examples.abcd_items (Chain_init "chain-3" ["A"; "B"; "C"; "D"])
                   ["A"] ["C"; "D"] "B" _ eq_refl)).
  vm_compute. left.
Defined.

End influence.

(** ** Scoring an instance outside all relationships *)

Section isolated.

Import ChainAnalyzer SirCalculator RelationshipAnalyzer.
Local Open Scope Q_scope.

Lemma score_debt_default (idx : gmap string (list Chain)) m g d r :
  score_debt (init None) idx m g d = Some r →
  r = ((4#10) * Severity._calculate_intrinsic_severity d
       + (3#10) * of_nat (_calculate_outgoing_influence (debt_id d) g)
       - (1#10) * of_nat (_calculate_incoming_dependency (debt_id d) g)
       + (4#10) * _calculate_chain_length_factor (debt_id d)
                    (default [] (idx !! debt_id d)) m,
       mkSirComponents (Severity._calculate_intrinsic_severity d)
         (_calculate_outgoing_influence (debt_id d) g)
         (_calculate_incoming_dependency (debt_id d) g)
         (_calculate_chain_length_factor (debt_id d)
            (default [] (idx !! debt_id d)) m)).
Proof.
  unfold score_debt.
  change (init None !! "severity") with (Some (4#10)).
  change (init None !! "outgoing") with (Some (3#10)).
  change (init None !! "incoming") with (Some (1#10)).
  change (init None !! "chain_length") with (Some (4#10)).
  by intros [= <-].
Qed.

(** X9. Scoring with the default weights, the graph that the loop of
    [find_all_relationships] builds from a list of relationships and the
    chains that [find_chains] returns for the same relationships: an
    instance that no relationship names gets no outgoing influence, no
    incoming dependency and no chain length factor, and so a score of 0.4
    times its severity. *)
Theorem isolated_instance_scores_severity_only
    (σ : Store) (l : loc) (refs : list loc)
    (rels : list SatdRelationship) (items : list TechnicalDebt) :
  Spec.valid_refs σ l refs →
  let g := add_relationships nx.empty rels in
  let found := find_chains rels items in
  ∃ σ', calculate_sir_scores (init None) σ l found.1 found.2 g = Some (σ', l)
    ∧ ∀ ℓ d, ℓ ∈ refs → debts σ !! ℓ = Some d →
        (∀ rel, rel ∈ rels →
           source_id rel ≠ debt_id d ∧ target_id rel ≠ debt_id d) →
        ∃ d', debts σ' !! ℓ = Some d'
          ∧ outDependencies (sir_components d') = 0%nat
          ∧ inDependencies (sir_components d') = 0%nat
          ∧ chainLengthFactor (sir_components d') == 0
          ∧ sir_score d' == (4#10) * Severity._calculate_intrinsic_severity d.
Proof.
  intros Hvalid g found.
  destruct (calculate_sir_scores_spec (init None) σ l refs found.1 found.2 g
              default_weights_complete Hvalid) as (h' & Hcall & Hspec).
  eexists. split; [exact Hcall|]. simpl.
  intros ℓ d Hℓ Hd Hiso. destruct (Hspec ℓ) as [_ Hin].
  destruct (Hin Hℓ) as (d1 & r & Hd1 & Hr & Hh').
  assert (d1 = d) as -> by congruence.
  exists (store_score d r). split; [done|].
  assert (Hnode : debt_id d ∉ nx.nodes g).
  { subst g. unfold add_relationships.
    rewrite fold_add_relationship, fold_add_edge_nodes.
    intros [H|(rel & Hrel & Hor)]; [inversion H|].
    destruct (Hiso rel Hrel). by destruct Hor. }
  destruct (descendants_None g _ Hnode) as [HD HA].
  assert (Hnochain : ∀ c, c ∈ found.2 → debt_id d ∉ chain_nodes c).
  { intros c Hc Hx.
    destruct (returned_chain_facts rels items c Hc) as (Hlen2 & Hcon & _ & Hedges).
    destruct (in_consecutive_pair (chain_nodes c) (debt_id d)) as (u & v & Huv & Hor);
      [lia | done |].
    destruct (Hedges u v Huv) as (_ & rel & Hrel & Hu & Hv).
    destruct (Hiso rel Hrel). destruct Hor; congruence. }
  destruct (chain_length_factor_spec found.2 (debt_id d)) as (_ & _ & Hzero).
  specialize (Hzero Hnochain).
  apply score_debt_default in Hr. subst r. unfold store_score.
  cbn [sir_score sir_components fst snd outDependencies inDependencies
       chainLengthFactor].
  assert (Hout : _calculate_outgoing_influence (debt_id d) g = 0%nat).
  { unfold _calculate_outgoing_influence. by rewrite HD. }
  assert (Hinc : _calculate_incoming_dependency (debt_id d) g = 0%nat).
  { unfold _calculate_incoming_dependency. by rewrite HA. }
  rewrite Hout, Hinc. split_and!; [done | done | exact Hzero |].
  rewrite Hzero. unfold of_nat. simpl. ring.
Qed.

Lemma isolated_instance_scores_severity_only_witness :
  ∃ σ' d',
    calculate_sir_scores (init None) Examples.store2 3%positive
      (find_chains Examples.orphan_rels Examples.ba_items).1
      (find_chains Examples.orphan_rels Examples.ba_items).2
      (add_relationships nx.empty Examples.orphan_rels) = Some (σ', 3%positive)
    ∧ debts σ' !! 1%positive = Some d'
    ∧ sir_score d' == (4#10) * 7.
Proof.
  destruct (isolated_instance_scores_severity_only Examples.store2 3%positive
              [1%positive; 2%positive] Examples.orphan_rels Examples.ba_items
              store2_valid) as (σ' & Hcall & Hiso).
  destruct (Hiso 1%positive (Examples.debt "A" "src/a.py" "TODO: critical rewrite"))
    as (d' & Hd' & _ & _ & _ & Hscore).
  - left.
  - reflexivity.
  - intros rel ->%list_elem_of_singleton. by split.
  - exists σ', d'. split_and!; [done | done |]. rewrite Hscore. reflexivity.
Defined.

End isolated.

(** * The detector *)

(** ** More on strings *)

Section text.

Import PyText.

Lemma lower_ascii_idem (c : ascii) :
  PyStr.lower_ascii (PyStr.lower_ascii c) = PyStr.lower_ascii c.
Proof. by destruct c as [[] [] [] [] [] [] [] []]. Qed.

Lemma lower_idem (s : string) : PyStr.lower (PyStr.lower s) = PyStr.lower s.
Proof. induction s as [|c s IH]; [done|]. simpl. by rewrite lower_ascii_idem, IH. Qed.

Lemma is_space_lower (c : ascii) :
  is_space (PyStr.lower_ascii c) = is_space c.
Proof. by destruct c as [[] [] [] [] [] [] [] []]. Qed.

(** The test [w.lower() in s.lower()]: [s] has a block that is [w] up to
    letter case. *)
Lemma contains_lower (s w : string) :
  PyStr.contains (PyStr.lower s) (PyStr.lower w) = true
  ↔ ∃ pre mid suf, s = pre +:+ mid +:+ suf ∧ PyStr.lower mid = PyStr.lower w.
Proof.
  rewrite contains_app. split.
  - intros (pre & suf & Heq).
    apply lower_split in Heq as (pre' & rest & -> & _ & Hrest).
    apply lower_split in Hrest as (mid & suf' & -> & Hmid & _).
    by exists pre', mid, suf'.
  - intros (pre & mid & suf & -> & Hmid).
    exists (PyStr.lower pre), (PyStr.lower suf). by rewrite !lower_app, Hmid.
Qed.

Lemma existsb_lower_mentions (words : list string) (content : string) :
  existsb (λ w, PyStr.contains (PyStr.lower content) (PyStr.lower w)) words = true
  ↔ Spec.mentions content words.
Proof.
  rewrite existsb_exists. unfold Spec.mentions. split.
  - intros (w & Hw%list_elem_of_In & Hc).
    apply contains_lower in Hc as (pre & mid & suf & -> & Hmid).
    by exists w, pre, mid, suf.
  - intros (w & pre & mid & suf & Hw & -> & Hmid).
    exists w. split; [by apply list_elem_of_In|].
    apply contains_lower. by exists pre, mid, suf.
Qed.

(** A word without white space occurs in a string exactly when it occurs
    in the stripped string. *)
Lemma prefix_cons (a b : ascii) (w s : string) :
  String.prefix (String a w) (String b s)
  = (if Ascii.ascii_dec a b then String.prefix w s else false).
Proof. reflexivity. Qed.

Lemma prefix_rstrip (s w : string) :
  Forall (λ c, is_space c = false) (String.list_ascii_of_string w) →
  String.prefix w (rstrip s) = String.prefix w s.
Proof.
  revert w. induction s as [|c s IH]; intros w Hw; [done|].
  destruct w as [|x w]; [by destruct (rstrip (String c s))|].
  simpl in Hw. apply Forall_cons in Hw as [Hx Hw].
  specialize (IH w Hw). simpl rstrip.
  destruct (rstrip s) as [|y r] eqn:Hr.
  - destruct (is_space c) eqn:Hc.
    + rewrite prefix_cons. destruct (Ascii.ascii_dec x c) as [->|]; [congruence|].
      by destruct w.
    + rewrite !prefix_cons. destruct (Ascii.ascii_dec x c); [|done]. done.
  - rewrite !prefix_cons. by destruct (Ascii.ascii_dec x c).
Qed.

Lemma contains_rstrip (s w : string) :
  w ≠ EmptyString →
  Forall (λ c, is_space c = false) (String.list_ascii_of_string w) →
  PyStr.contains (rstrip s) w = PyStr.contains s w.
Proof.
  intros Hne Hw. induction s as [|c s IH]; [done|].
  rewrite (contains_unfold (String c s)). rewrite <- (prefix_rstrip (String c s) w Hw).
  rewrite <- IH. simpl rstrip.
  destruct (rstrip s) as [|y r] eqn:Hr.
  - destruct (is_space c).
    + destruct w; [done|]. reflexivity.
    + rewrite (contains_unfold (String c "")). done.
  - by rewrite (contains_unfold (String c (String y r))).
Qed.

Lemma contains_lstrip (s w : string) :
  w ≠ EmptyString →
  Forall (λ c, is_space c = false) (String.list_ascii_of_string w) →
  PyStr.contains (lstrip s) w = PyStr.contains s w.
Proof.
  intros Hne Hw. induction s as [|c s IH]; [done|].
  simpl lstrip. destruct (is_space c) eqn:Hc; [|done].
  rewrite IH, (contains_unfold (String c s)).
  destruct w as [|x w]; [done|]. rewrite prefix_cons.
  simpl in Hw. apply Forall_cons in Hw as [Hx _].
  destruct (Ascii.ascii_dec x c) as [->|]; [congruence|done].
Qed.

Lemma lower_lstrip (s : string) : PyStr.lower (lstrip s) = lstrip (PyStr.lower s).
Proof.
  induction s as [|c s IH]; [done|]. simpl. rewrite is_space_lower.
  by destruct (is_space c).
Qed.

Lemma lower_rstrip (s : string) : PyStr.lower (rstrip s) = rstrip (PyStr.lower s).
Proof.
  induction s as [|c s IH]; [done|]. simpl. rewrite <- IH.
  destruct (rstrip s); simpl; [|done]. rewrite is_space_lower.
  by destruct (is_space c).
Qed.

Lemma contains_strip (s w : string) :
  w ≠ EmptyString →
  Forall (λ c, is_space c = false) (String.list_ascii_of_string w) →
  PyStr.contains (PyStr.lower (strip s)) w = PyStr.contains (PyStr.lower s) w.
Proof.
  intros Hne Hw. unfold strip.
  by rewrite lower_rstrip, lower_lstrip, contains_rstrip, contains_lstrip.
Qed.

End text.

(** ** Detection and classification of one comment *)

Section detector.

Import SatdDetector.
Local Open Scope Q_scope.

(** X11. A comment is SATD exactly when it contains one of the indicators
    in any letter case, or when there is a client, the draw is below 0.1
    and the reply of the client contains [yes] in any letter case; the
    white space around the reply makes no difference, and a request that
    raises counts as a no. *)
Theorem is_satd_by_indicator_or_reply (client : bool) (call : Call)
    (comment : string) :
  is_satd client call comment = true
  ↔ Spec.mentions comment debt_indicators
    ∨ (client = true ∧ draw call < 1#10
       ∧ ∃ content, satd_reply call = Some content
                    ∧ Spec.mentions content ["yes"]).
Proof.
  unfold is_satd.
  destruct (existsb _ debt_indicators) eqn:Hind.
  { apply existsb_lower_mentions in Hind. tauto. }
  assert (Hno : ¬ Spec.mentions comment debt_indicators).
  { intros H%existsb_lower_mentions. congruence. }
  assert (Hyes : ∀ content,
    PyStr.contains (PyStr.lower (PyText.strip content)) "yes" = true
    ↔ Spec.mentions content ["yes"]).
  { intros content. rewrite contains_strip; [|done|by repeat constructor].
    rewrite <- (existsb_lower_mentions ["yes"] content). simpl.
    by rewrite orb_false_r. }
  destruct client; simpl.
  - destruct (Qlt_le_dec (draw call) (1#10)) as [Hlt|Hge].
    + destruct (satd_reply call) as [content|].
      * rewrite Hyes. split; [intros H; right; eauto|].
        intros [?|(_ & _ & c & [= <-] & Hc)]; done.
      * split; [done|]. intros [?|(_ & _ & c & ? & _)]; done.
    + split; [done|]. intros [?|(_ & Hlt & _)]; [done|]. lra.
  - split; [done|]. intros [?|(? & _)]; done.
Qed.

(** The names of the debt types are the keys of the severity table. *)
Lemma debt_type_names_have_severity (ty : string) :
  ty ∈ debt_types.*1 → is_Some (Severity.type_severity !! ty).
Proof.
  intros Hty. apply (bool_decide_unpack _).
  revert ty Hty. apply Forall_forall. by repeat constructor.
Qed.

Lemma find_elem {A} (P : A → bool) (l : list A) (x : A) :
  find P l = Some x → x ∈ l ∧ P x = true.
Proof.
  intros H. apply find_some in H as [H1 H2]. by apply list_elem_of_In in H1.
Qed.

Lemma classify_in_types (client : bool) (call : Call) (comment : string)
    (context : option string) :
  classify_debt_type client call comment context ∈ debt_types.*1.
Proof.
  assert (Hother : "Other" ∈ debt_types.*1).
  { apply (bool_decide_unpack _). by vm_compute. }
  assert (Hfind : ∀ P (e : string * list string),
            find P debt_types = Some e → e.1 ∈ debt_types.*1).
  { intros P e [He _]%find_elem. apply list_elem_of_fmap. eauto. }
  unfold classify_debt_type.
  destruct (find _ debt_types) as [e|] eqn:Hpat; [by eapply Hfind|].
  destruct client; [|done].
  destruct (type_reply call) as [content|]; [|done]. clear Hpat.
  destruct (find _ debt_types) as [e|] eqn:Hrep; [by eapply Hfind|done].
Qed.

(** X13. Whatever the client replies, the type that the classification
    returns is one of the eight type names, so the severity table has an
    entry for it; and the client is asked only about a comment that the
    patterns leave unclassified: when the classification without client is
    not [Other], the one with a client is the same. *)
Theorem classification_is_a_known_type (client : bool) (call : Call)
    (comment : string) (context : option string) :
  let ty := classify_debt_type client call comment context in
  ty ∈ ["Design"; "Implementation"; "Documentation"; "Defect"; "Test";
        "Requirement"; "Architecture"; "Other"]
  ∧ is_Some (Severity.type_severity !! ty)
  ∧ (classify_debt_type false call comment context ≠ "Other" →
     ty = classify_debt_type false call comment context).
Proof.
  intros ty. pose proof (classify_in_types client call comment context) as Hin.
  split_and!.
  - exact Hin.
  - by apply debt_type_names_have_severity.
  - subst ty. unfold classify_debt_type.
    destruct (find _ debt_types) as [e|] eqn:Hpat; [done|].
    intros Hne. by destruct Hne.
Qed.

Lemma classification_is_a_known_type_witness :
  classify_debt_type true (mkCall 0 None (Some "Test") "") "slow, optimize it"
    (Some "x = 1") = "Implementation".
Proof.
  destruct (classification_is_a_known_type true (mkCall 0 None (Some "Test") "")
              "slow, optimize it" (Some "x = 1")) as (_ & _ & H).
  rewrite H; [reflexivity|]. by vm_compute.
Defined.

(** The first entry of a list that passes a test. *)
Lemma find_first {A} (P : A → bool) (l : list A) (i : nat) (x : A) :
  l !! i = Some x → P x = true →
  (∀ j y, (j < i)%nat → l !! j = Some y → P y = false) →
  find P l = Some x.
Proof.
  revert i. induction l as [|a l IH]; intros i Hi HP Hbefore; [done|].
  destruct i as [|i]; simpl in *.
  - injection Hi as ->. by rewrite HP.
  - rewrite (Hbefore 0%nat a); [|lia|done].
    apply (IH i); [done..|]. intros j y Hj Hy. apply (Hbefore (S j) y); [lia|done].
Qed.

(** X14. The patterns are tried type by type in the order Design,
    Implementation, Documentation, Defect, Test, Requirement, Architecture:
    the classification is the first type one of whose patterns occurs, in
    any letter case, in the comment followed by a space and the context;
    without a client a text in which no pattern occurs is [Other]. *)
Theorem classification_is_first_matching_type (client : bool) (call : Call)
    (comment : string) (context : option string) :
  let full_content := comment +:+ " " +:+ default "" context in
  (∀ i name patterns,
     debt_types !! i = Some (name, patterns) →
     Spec.mentions full_content patterns →
     (∀ j e, (j < i)%nat → debt_types !! j = Some e →
             ¬ Spec.mentions full_content e.2) →
     classify_debt_type client call comment context = name)
  ∧ ((∀ e, e ∈ debt_types → ¬ Spec.mentions full_content e.2) →
     classify_debt_type false call comment context = "Other").
Proof.
  intros full_content. split.
  - intros i name patterns Hi Hm Hbefore. unfold classify_debt_type.
    fold full_content.
    rewrite (find_first _ debt_types i (name, patterns) Hi); [done | |].
    + simpl. by apply existsb_lower_mentions.
    + intros j e Hj He. apply not_true_is_false.
      intros H%existsb_lower_mentions. by apply (Hbefore j e).
  - intros Hnone. unfold classify_debt_type. fold full_content.
    destruct (find _ debt_types) as [e|] eqn:Hpat; [|done].
    apply find_elem in Hpat as [He Hp]. apply existsb_lower_mentions in Hp.
    by destruct (Hnone e He).
Qed.

Lemma classification_is_first_matching_type_witness :
  classify_debt_type false (mkCall 0 None None "") "the structure of the component"
    None = "Design".
Proof.
  destruct (classification_is_first_matching_type false (mkCall 0 None None "")
              "the structure of the component" None) as [H _].
  apply (H 0%nat "Design" ["design"; "architectural"; "structure"; "abstract"]).
  - reflexivity.
  - exists "structure", "the ", "structure", " of the component ".
    split; [|done]. apply (bool_decide_unpack _). by vm_compute.
  - intros j e Hj. lia.
Defined.

End detector.

Lemma is_satd_by_indicator_or_reply_witness :
  SatdDetector.is_satd true (SatdDetector.mkCall 0 (Some " Yes. ") None "")
    "this could be cleaner" = true.
Proof.
  apply is_satd_by_indicator_or_reply. right. split_and!; [done..|].
  exists " Yes. ". split; [done|].
  exists "yes", " ", "Yes", ". ". split_and!; [|done..].
  apply list_elem_of_singleton. done.
Defined.

(** ** The comment parts of a line *)

Section comment_parts.

Import PyText SatdDetector.

Lemma partition_unfold (sep s : string) :
  partition sep s =
  if String.prefix sep s then Some (EmptyString, drop (String.length sep) s)
  else match s with
       | EmptyString => None
       | String c s' =>
           match partition sep s' with
           | Some (before, after) => Some (String c before, after)
           | None => None
           end
       end.
Proof. by destruct s. Qed.

Lemma drop_app_length (a b : string) : drop (String.length a) (a +:+ b) = b.
Proof. induction a as [|c a IH]; [by destruct b|]. by rewrite app_cons. Qed.

Lemma prefix_drop (sep s : string) :
  String.prefix sep s = true → s = sep +:+ drop (String.length sep) s.
Proof. intros [suf ->]%prefix_app. by rewrite drop_app_length. Qed.

(** [partition] splits at the first occurrence of the separator. *)
Lemma partition_Some (sep s before after : string) :
  partition sep s = Some (before, after) → Spec.after_first sep s after
  ∧ s = before +:+ sep +:+ after.
Proof.
  assert (Hhead : ∀ s, String.prefix sep s = true →
            Spec.after_first sep s (drop (String.length sep) s)
            ∧ s = "" +:+ sep +:+ drop (String.length sep) s).
  { intros s' Hp. pose proof (prefix_drop _ _ Hp) as Hs.
    split; [|by rewrite app_nil]. exists "". rewrite app_nil.
    split; [done|]. intros; simpl; lia. }
  revert before. induction s as [|c s IH]; intros before; rewrite partition_unfold.
  - destruct (String.prefix sep "") eqn:Hp; [|done].
    intros [= <- <-]. by apply Hhead.
  - destruct (String.prefix sep (String c s)) eqn:Hp.
    + intros [= <- <-]. by apply Hhead.
    + destruct (partition sep s) as [[b a]|] eqn:Hps; [|done].
      intros [= <- <-]. destruct (IH b eq_refl) as [(pre & Hpre & Hmin) Hs].
      split; [|by rewrite app_cons, <- Hs].
      exists (String c pre). split; [by rewrite app_cons, <- Hpre|].
      intros [|x pre'] text' Heq.
      * rewrite app_nil in Heq.
        assert (String.prefix sep (String c s) = true); [|congruence].
        apply prefix_app; eauto.
      * rewrite app_cons in Heq. injection Heq as -> Heq.
        specialize (Hmin pre' text' Heq). simpl. lia.
Qed.

Lemma partition_is_Some (sep s : string) :
  PyStr.contains s sep = true → is_Some (partition sep s).
Proof.
  induction s as [|c s IH]; rewrite contains_unfold, partition_unfold;
    destruct (String.prefix sep _); try done; try by eexists.
  intros [[b a] ->]%IH. by eexists.
Qed.

(** [line.split(marker, 1)[1]] under the guard [marker in line]. *)
Lemma split1_second (marker line : string) :
  PyStr.contains line marker = true →
  ∃ text, split1 marker line !! 1%nat = Some text ∧ Spec.after_first marker line text.
Proof.
  intros [[b a] Hp]%partition_is_Some. exists a. unfold split1. rewrite Hp.
  split; [done|]. by apply partition_Some in Hp as [? _].
Qed.

Lemma split1_second_inv (marker line text : string) :
  split1 marker line !! 1%nat = Some text → Spec.after_first marker line text.
Proof.
  unfold split1. destruct (partition marker line) as [[b a]|] eqn:Hp; [|done].
  intros [= <-]. by apply partition_Some in Hp as [? _].
Qed.

Lemma after_first_contains (marker line text : string) :
  Spec.after_first marker line text → PyStr.contains line marker = true.
Proof. intros (pre & -> & _). apply contains_app. eauto. Qed.

Lemma after_first_unique (marker line t1 t2 : string) :
  Spec.after_first marker line t1 → Spec.after_first marker line t2 → t1 = t2.
Proof.
  intros (p1 & H1 & Hm1) (p2 & H2 & Hm2).
  pose proof (Hm1 p2 t2 H2). pose proof (Hm2 p1 t1 H1).
  assert (Hlen : String.length p1 = String.length p2) by lia.
  clear Hm1 Hm2 H H0. subst line.
  revert p2 H2 Hlen. induction p1 as [|c p1 IH]; intros [|c2 p2] H2 Hlen;
    try done.
  - rewrite !app_nil in H2. by apply String.app_inj in H2.
  - rewrite !app_cons in H2. injection H2 as _ H2. apply (IH p2); [done|].
    simpl in Hlen. lia.
Qed.

(** A line of a comment block opened on the line before: no [/*] and no
    [*/] on the line, and a [/*] on the previous line. *)
Lemma block_line_prev (lines : list string) (i : nat) (line : string) :
  lines !! i = Some line → (0 < i)%nat → is_Some (lines !! (i - 1)%nat).
Proof.
  intros Hi Hpos. apply lookup_lt_is_Some. apply lookup_lt_Some in Hi. lia.
Qed.

(** The part that a marker of the line contributes: the text after its
    first occurrence, if it occurs. *)
Lemma marker_part (line m : string) :
  ∃ p,
    (if PyStr.contains line m then c ← split1 m line !! 1%nat; Some [c]
     else Some []) = Some p
    ∧ (∀ c, c ∈ p ↔ Spec.after_first m line c) ∧ (length p ≤ 1)%nat.
Proof.
  destruct (PyStr.contains line m) eqn:Hm.
  - destruct (split1_second m line Hm) as (text & -> & Htext).
    exists [text]. split; [done|]. split; [|simpl; lia].
    intros c. rewrite list_elem_of_singleton. split; [by intros ->|].
    intros Hc. by eapply after_first_unique.
  - exists []. split; [done|]. split; [|simpl; lia].
    intros c. split; [by intros ?%elem_of_nil|].
    intros Hc%after_first_contains. congruence.
Qed.

(** X17. Taking the comment parts of a line of the file never raises. The
    parts are, in this order: the text after the first [//], the text after
    the first [#], and the text after the first [/*] or, on a line without
    [/*] and [*/] that follows a line with [/*], the text after the first
    [*]. *)
Theorem comment_parts_follow_markers (lines : list string) (i : nat)
    (line : string) :
  lines !! i = Some line →
  ∃ p1 p2 p3,
    comment_parts lines i line = Some (p1 ++ p2 ++ p3)
    ∧ (∀ c, c ∈ p1 ↔ Spec.after_first "//" line c)
    ∧ (∀ c, c ∈ p2 ↔ Spec.after_first "#" line c)
    ∧ (∀ c, c ∈ p3 ↔
         Spec.after_first "/*" line c
         ∨ (PyStr.contains line "/*" = false ∧ PyStr.contains line "*/" = false
            ∧ (∃ prev, (0 < i)%nat ∧ lines !! (i - 1)%nat = Some prev
                       ∧ PyStr.contains prev "/*" = true)
            ∧ Spec.after_first "*" line c))
    ∧ (length p1 ≤ 1 ∧ length p2 ≤ 1 ∧ length p3 ≤ 1)%nat.
Proof.
  intros Hline. pose proof (marker_part line) as Hpart.
  destruct (Hpart "//") as (p1 & E1 & H1 & L1).
  destruct (Hpart "#") as (p2 & E2 & H2 & L2).
  destruct (Hpart "/*") as (p3a & E3 & H3 & L3).
  destruct (Hpart "*") as (p3b & E4 & H4 & L4).
  unfold comment_parts. rewrite E1, E2. simpl.
  destruct (PyStr.contains line "/*") eqn:Hopen.
  { simpl. rewrite E3. simpl. exists p1, p2, p3a. split_and!; try done.
    intros c. rewrite H3. split; [by left|]. by intros [?|(? & _)]. }
  assert (Hno3 : ∀ c, ¬ Spec.after_first "/*" line c).
  { intros c Hc%after_first_contains. congruence. }
  simpl. destruct (PyStr.contains line "*") eqn:Hstar; simpl.
  2: { exists p1, p2, []. split_and!; try done; try (simpl; lia).
       intros c. split; [by intros ?%elem_of_nil|].
       intros [Hc|(_ & _ & _ & Hc%after_first_contains)]; [by destruct (Hno3 c)|].
       congruence. }
  destruct (PyStr.contains line "*/") eqn:Hclose; simpl.
  { exists p1, p2, []. split_and!; try done; try (simpl; lia).
    intros c. split; [by intros ?%elem_of_nil|].
    intros [Hc|(_ & ? & _)]; [by destruct (Hno3 c)|done]. }
  destruct (bool_decide (0 < i)%nat) eqn:Hi; simpl.
  2: { apply bool_decide_eq_false in Hi.
       exists p1, p2, []. split_and!; try done; try (simpl; lia).
       intros c. split; [by intros ?%elem_of_nil|].
       intros [Hc|(_ & _ & (prev & ? & _) & _)]; [by destruct (Hno3 c)|done]. }
  apply bool_decide_eq_true in Hi.
  destruct (block_line_prev lines i line Hline Hi) as [prev Hprev].
  rewrite Hprev. simpl.
  destruct (PyStr.contains prev "/*") eqn:Hprevopen.
  - rewrite E4. simpl. exists p1, p2, p3b.
    split_and!; try done. intros c. rewrite H4. split.
    + intros Hc. right. split_and!; try done. by exists prev.
    + intros [Hc|(_ & _ & _ & Hc)]; [by destruct (Hno3 c)|done].
  - exists p1, p2, []. split_and!; try done; try (simpl; lia).
    intros c. split; [by intros ?%elem_of_nil|].
    intros [Hc|(_ & _ & (prev' & _ & Hp' & Hc') & _)]; [by destruct (Hno3 c)|].
    congruence.
Qed.

Lemma comment_parts_follow_markers_witness :
  ∃ p1 p2 p3,
    comment_parts ["x = 1 // TODO # a"] 0 "x = 1 // TODO # a" = Some (p1 ++ p2 ++ p3).
Proof.
  destruct (comment_parts_follow_markers ["x = 1 // TODO # a"] 0
              "x = 1 // TODO # a" eq_refl) as (p1 & p2 & p3 & H & _).
  by exists p1, p2, p3.
Defined.

(** A line without [//], [#] and [*] has no comment part. *)
Lemma comment_parts_no_marker (lines : list string) (i : nat) (line : string) :
  PyStr.contains line "//" || PyStr.contains line "#"
    || PyStr.contains line "/*" || PyStr.contains line "*" = false →
  comment_parts lines i line = Some [].
Proof.
  intros H. repeat apply orb_false_elim in H as [H ?].
  unfold comment_parts. by rewrite H, H0, H1, H2.
Qed.

Lemma comment_parts_is_Some (lines : list string) (i : nat) (line : string) :
  lines !! i = Some line → is_Some (comment_parts lines i line).
Proof.
  intros Hline. unfold comment_parts.
  destruct (marker_part line "//") as (p1 & -> & _).
  destruct (marker_part line "#") as (p2 & -> & _).
  cbn [mbind option_bind].
  destruct (PyStr.contains line "/*") eqn:Hopen.
  { cbn [orb]. pose proof (marker_part line "/*") as (p3 & E3 & _).
    rewrite Hopen in E3. rewrite E3. by eexists. }
  cbn [orb]. destruct (PyStr.contains line "*") eqn:Hstar; [|by eexists].
  destruct (negb _ && true && bool_decide (0 < i)%nat) eqn:Hblock; [|by eexists].
  apply andb_true_iff in Hblock as [[Hclose _]%andb_true_iff Hi%bool_decide_eq_true].
  destruct (block_line_prev lines i line Hline Hi) as [prev ->].
  cbn [mbind option_bind]. destruct (PyStr.contains prev "/*"); [|by eexists].
  rewrite Hclose.
  pose proof (marker_part line "*") as (p4 & E4 & _).
  rewrite Hstar in E4. rewrite E4. by eexists.
Qed.

End comment_parts.

(** ** Scanning a file *)

Section scanning.

Import PyText SatdDetector.

Context (client : bool) (calls : nat → nat → Call) (rel_path : string).

Lemma first_satd_Some (cs : nat → Call) (j0 : nat) (parts : list string)
    (j : nat) (c : string) :
  first_satd client cs j0 parts = Some (j, c)
  ↔ ∃ k, j = j0 + k ∧ parts !! k = Some c ∧ is_satd client (cs j) c = true
         ∧ ∀ k' c', k' < k → parts !! k' = Some c' →
             is_satd client (cs (j0 + k')) c' = false.
Proof.
  revert j0. induction parts as [|p parts IH]; intros j0; simpl.
  - split; [done|]. by intros (k & _ & Hk & _).
  - destruct (is_satd client (cs j0) p) eqn:Hp.
    + split.
      * intros [= <- <-]. exists 0. rewrite Nat.add_0_r.
        split_and!; try done. intros; lia.
      * intros (k & -> & Hk & Hs & Hbefore). destruct k as [|k].
        -- simpl in Hk. injection Hk as <-. by rewrite Nat.add_0_r.
        -- specialize (Hbefore 0 p). rewrite Nat.add_0_r in Hbefore.
           rewrite Hbefore in Hp; [done|lia|done].
    + rewrite IH. split.
      * intros (k & -> & Hk & Hs & Hbefore). exists (S k).
        split_and!; [lia | done | by replace (j0 + S k) with (S j0 + k) by lia|].
        intros [|k'] c' Hlt Hc'.
        -- simpl in Hc'. injection Hc' as <-. by rewrite Nat.add_0_r.
        -- replace (j0 + S k') with (S j0 + k') by lia. apply Hbefore; [lia|done].
      * intros (k & -> & Hk & Hs & Hbefore). destruct k as [|k].
        -- simpl in Hk. injection Hk as <-. rewrite Nat.add_0_r in Hs. congruence.
        -- exists k.
           split_and!; [lia | done | by replace (S j0 + k) with (j0 + S k) by lia|].
           intros k' c' Hlt Hc'. replace (S j0 + k') with (j0 + S k') by lia.
           apply Hbefore; [lia|done].
Qed.

Lemma first_satd_None (cs : nat → Call) (j0 : nat) (parts : list string) :
  first_satd client cs j0 parts = None
  ↔ ∀ k c, parts !! k = Some c → is_satd client (cs (j0 + k)) c = false.
Proof.
  revert j0. induction parts as [|p parts IH]; intros j0; simpl.
  - split; [|done]. by intros _ k c.
  - destruct (is_satd client (cs j0) p) eqn:Hp.
    + split; [done|]. intros H. specialize (H 0 p eq_refl).
      rewrite Nat.add_0_r in H. congruence.
    + rewrite IH. split.
      * intros H [|k] c Hc.
        -- simpl in Hc. injection Hc as <-. by rewrite Nat.add_0_r.
        -- replace (j0 + S k) with (S j0 + k) by lia. by apply H.
      * intros H k c Hc. replace (S j0 + k) with (j0 + S k) by lia. by apply H.
Qed.

Lemma first_satd_part_unique (lines : list string) (i : nat) (line : string)
    (j1 j2 : nat) (c1 c2 : string) :
  Spec.first_satd_part client calls lines i line j1 c1 →
  Spec.first_satd_part client calls lines i line j2 c2 →
  j1 = j2 ∧ c1 = c2.
Proof.
  intros (parts & Hp & Hj1 & Hs1 & Hb1) (parts' & Hp' & Hj2 & Hs2 & Hb2).
  assert (parts' = parts) as -> by congruence.
  destruct (Nat.lt_trichotomy j1 j2) as [Hlt|[->|Hlt]].
  - rewrite (Hb2 j1 c1 Hlt Hj1) in Hs1. done.
  - split; [done|congruence].
  - rewrite (Hb1 j2 c2 Hlt Hj2) in Hs2. done.
Qed.

(** One pass of the loop over the lines: the item of the first SATD part
    of the line is appended, or nothing is. *)
Lemma scan_line_spec (lines : list string) (acc : list TechnicalDebt)
    (i : nat) (line : string) :
  lines !! i = Some line →
  (∃ j c, Spec.first_satd_part client calls lines i line j c
          ∧ scan_line client calls rel_path lines acc i line
            = Some (acc ++ [make_debt client (calls i j) rel_path lines i c]))
  ∨ ((∀ parts j c, comment_parts lines i line = Some parts →
        parts !! j = Some c → is_satd client (calls i j) c = false)
     ∧ scan_line client calls rel_path lines acc i line = Some acc).
Proof.
  intros Hline. unfold scan_line.
  destruct (comment_parts_is_Some lines i line Hline) as [parts Hparts].
  destruct (_ || _ || _ || _) eqn:Hguard.
  - rewrite Hparts. simpl.
    destruct (first_satd client (calls i) 0 parts) as [[j c]|] eqn:Hfirst.
    + left. exists j, c. split; [|done].
      apply first_satd_Some in Hfirst as (k & -> & Hk & Hs & Hbefore).
      exists parts. split_and!; try done.
    + right. split; [|done]. intros parts' j c Hp' Hj.
      assert (parts' = parts) as -> by congruence.
      rewrite first_satd_None in Hfirst. by apply (Hfirst j c).
  - right. split; [|done]. intros parts' j c Hp' Hj.
    rewrite comment_parts_no_marker in Hp' by done.
    injection Hp' as <-. done.
Qed.

Lemma debt_line_make_debt (call : Call) (lines : list string) (i : nat)
    (c : string) :
  debt_line (make_debt client call rel_path lines i c) = i + 1.
Proof. reflexivity. Qed.

(** The loop over the lines from line [i] on: what it appends to the
    items. *)
Lemma scan_from_spec (lines rest : list string) (acc : list TechnicalDebt)
    (i : nat) :
  list.drop i lines = rest →
  ∃ new,
    scan_from client calls rel_path lines acc i rest = acc ++ new
    ∧ (∀ d, d ∈ new ↔
         ∃ k line j c, i ≤ k ∧ lines !! k = Some line
           ∧ Spec.first_satd_part client calls lines k line j c
           ∧ d = make_debt client (calls k j) rel_path lines k c)
    ∧ StronglySorted (λ a b, debt_line a < debt_line b) new
    ∧ Forall (λ d, i < debt_line d) new.
Proof.
  revert acc i. induction rest as [|line rest IH]; intros acc i Hdrop.
  - exists []. simpl. rewrite app_nil_r. split_and!; try done; [|constructor].
    intros d. split; [by intros ?%elem_of_nil|].
    intros (k & line & j & c & Hk & Hline & _).
    apply lookup_lt_Some in Hline.
    assert (length (list.drop i lines) = 0) as Hlen by by rewrite Hdrop.
    rewrite length_drop in Hlen. lia.
  - assert (Hline : lines !! i = Some line).
    { rewrite <- (Nat.add_0_r i), <- lookup_drop, Hdrop. done. }
    assert (Hdrop' : list.drop (S i) lines = rest).
    { replace (S i) with (i + 1) by lia. by rewrite <- drop_drop, Hdrop. }
    simpl.
    destruct (scan_line_spec lines acc i line Hline)
      as [(j & c & Hfirst & ->)|[Hnone ->]].
    + destruct (IH (acc ++ [make_debt client (calls i j) rel_path lines i c])
                  (S i) Hdrop') as (new & -> & Helem & Hsorted & Hlow).
      exists (make_debt client (calls i j) rel_path lines i c :: new).
      split; [by rewrite <- app_assoc|]. split_and!.
      * intros d. rewrite elem_of_cons, Helem. split.
        -- intros [->|(k & l & j' & c' & Hk & ?)].
           ++ exists i, line, j, c. split_and!; try done.
           ++ exists k, l, j', c'. split; [lia|done].
        -- intros (k & l & j' & c' & Hk & Hl & Hf & ->).
           destruct (decide (k = i)) as [->|Hne].
           ++ left. assert (l = line) as -> by congruence.
              by destruct (first_satd_part_unique _ _ _ _ _ _ _ Hf Hfirst) as [-> ->].
           ++ right. exists k, l, j', c'. split; [lia|done].
      * apply StronglySorted_cons. split; [|done].
        eapply Forall_impl; [exact Hlow|]. intros d Hd. simpl in Hd.
        rewrite debt_line_make_debt. lia.
      * constructor; [rewrite debt_line_make_debt; lia|].
        eapply Forall_impl; [exact Hlow|]. intros d Hd. simpl in Hd. lia.
    + destruct (IH acc (S i) Hdrop') as (new & -> & Helem & Hsorted & Hlow).
      exists new. split_and!; try done.
      * intros d. rewrite Helem. split.
        -- intros (k & l & j' & c' & Hk & ?). exists k, l, j', c'. split; [lia|done].
        -- intros (k & l & j' & c' & Hk & Hl & Hf & ->).
           destruct (decide (k = i)) as [->|Hne].
           ++ assert (l = line) as -> by congruence.
              destruct Hf as (parts & Hp & Hj & Hs & _).
              rewrite (Hnone parts j' c' Hp Hj) in Hs. done.
           ++ exists k, l, j', c'. split; [lia|done].
      * eapply Forall_impl; [exact Hlow|]. intros d Hd. simpl in Hd. lia.
Qed.

Lemma sorted_lookup {A} (R : A → A → Prop) (l : list A) (m n : nat) (a b : A) :
  StronglySorted R l → m < n → l !! m = Some a → l !! n = Some b → R a b.
Proof.
  intros Hs. revert m n. induction Hs as [|x l Hs IH Hall]; intros m n Hmn Hm Hn;
    [done|].
  destruct n as [|n]; [lia|]. simpl in Hn. destruct m as [|m].
  - injection Hm as <-. rewrite Forall_forall in Hall. apply Hall.
    by eapply list_elem_of_lookup_2.
  - simpl in Hm. apply (IH m n); [lia|done..].
Qed.

Lemma sorted_lt_NoDup {A} (f : A → nat) (l : list A) :
  StronglySorted (λ a b, f a < f b) l → NoDup (f <$> l).
Proof.
  induction 1 as [|x l Hs IH Hall]; [constructor|].
  rewrite fmap_cons. constructor; [|done].
  intros (y & Hy & Hin)%list_elem_of_fmap.
  rewrite Forall_forall in Hall. specialize (Hall y Hin). lia.
Qed.

(** What [scan_file] returns for a file that could be read. *)
Lemma scan_file_spec (lines : list string) :
  let ds := scan_file client calls rel_path (Some lines) in
  (∀ d, d ∈ ds ↔
     ∃ k line j c, lines !! k = Some line
       ∧ Spec.first_satd_part client calls lines k line j c
       ∧ d = make_debt client (calls k j) rel_path lines k c)
  ∧ StronglySorted (λ a b, debt_line a < debt_line b) ds.
Proof.
  simpl. destruct (scan_from_spec lines lines [] 0 eq_refl)
    as (new & -> & Helem & Hsorted & _).
  rewrite app_nil_l. split; [|done]. intros d. rewrite Helem. split.
  - intros (k & l & j & c & _ & ?). by exists k, l, j, c.
  - intros (k & l & j & c & ?). exists k, l, j, c. split; [lia|done].
Qed.

Lemma strip_description (id file content : string) (line : nat) :
  debt_description (TechnicalDebt_init id file line content (Some content))
  = content.
Proof. unfold TechnicalDebt_init. simpl. by destruct (decide (content = "")). Qed.

(** X15. The items that [scan_file] returns are in the order of their lines,
    at most one per line, and have pairwise different ids. Each names the
    scanned path as its file, has the path with [_] for every [/], a [_]
    and its line number as id, a line number of the file, the same text as
    content and as description, one of the types of the severity table, the
    simulated commit, a date and no score yet. A file that
    could not be read gives no item. *)
Theorem scanned_items_ordered_with_distinct_ids (content : option (list string)) :
  let ds := scan_file client calls rel_path content in
  (∀ m n a b, m < n → ds !! m = Some a → ds !! n = Some b →
     debt_line a < debt_line b)
  ∧ NoDup (debt_id <$> ds)
  ∧ (∀ d, d ∈ ds →
       debt_file d = rel_path
       ∧ debt_id d = replace_char "/" "_" rel_path +:+ "_" +:+ pretty (debt_line d)
       ∧ 1 ≤ debt_line d ≤ length (default [] content)
       ∧ debt_description d = debt_content d
       ∧ (∃ ty, debt_type d = Some ty ∧ is_Some (Severity.type_severity !! ty))
       ∧ created_commit d = Some "simulated_commit_hash"
       ∧ is_Some (created_date d)
       ∧ (sir_score d == 0)%Q)
  ∧ (content = None → ds = []).
Proof.
  destruct content as [lines|]; simpl.
  2: { split_and!; try done; [constructor|]. by intros d ?%elem_of_nil. }
  destruct (scan_file_spec lines) as [Helem Hsorted]. simpl in Helem, Hsorted.
  set (ds := scan_from client calls rel_path lines [] 0 lines) in *.
  assert (Hfields : ∀ d, d ∈ ds →
    debt_id d = replace_char "/" "_" rel_path +:+ "_" +:+ pretty (debt_line d)).
  { intros d (k & l & j & c & Hl & Hf & ->)%Helem. reflexivity. }
  split_and!; [| | |done].
  - intros m n a b Hmn Ha Hb.
    exact (sorted_lookup _ ds m n a b Hsorted Hmn Ha Hb).
  - apply sorted_lt_NoDup in Hsorted.
    assert (Hids : debt_id <$> ds
      = (λ n, replace_char "/" "_" rel_path +:+ "_" +:+ pretty n) <$> (debt_line <$> ds)).
    { rewrite <- list_fmap_compose.
      apply Forall_fmap_ext_1, Forall_forall. intros d Hd. by apply Hfields. }
    rewrite Hids. apply NoDup_fmap_2; [|done].
    intros a b H.
    by apply (inj (String.app _)), (inj (String.app "_")), (inj pretty) in H.
  - intros d Hd. pose proof (Hfields d Hd) as Hid.
    apply Helem in Hd as (k & l & j & c & Hl & Hf & ->).
    apply lookup_lt_Some in Hl.
    split_and!; try done.
    + rewrite debt_line_make_debt. lia.
    + rewrite debt_line_make_debt. lia.
    + apply strip_description.
    + eexists. split; [reflexivity|].
      apply debt_type_names_have_severity, classify_in_types.
Qed.

(** X16. In a file that could be read, a line gives an item exactly when
    one of its comment parts is SATD for the detector; the item is the one
    made of the first such part, and its content is this part without the
    white space around it. *)
Theorem scanned_items_are_first_satd_parts (lines : list string) (i : nat)
    (line : string) :
  lines !! i = Some line →
  let ds := scan_file client calls rel_path (Some lines) in
  ((∃ d, d ∈ ds ∧ debt_line d = i + 1)
   ↔ ∃ parts j c, comment_parts lines i line = Some parts
       ∧ parts !! j = Some c ∧ is_satd client (calls i j) c = true)
  ∧ (∀ d, d ∈ ds → debt_line d = i + 1 →
       ∃ j c, Spec.first_satd_part client calls lines i line j c
         ∧ d = make_debt client (calls i j) rel_path lines i c
         ∧ debt_content d = strip c).
Proof.
  intros Hline ds. destruct (scan_file_spec lines) as [Helem _].
  fold ds in Helem.
  assert (Hat : ∀ d, d ∈ ds → debt_line d = i + 1 →
    ∃ j c, Spec.first_satd_part client calls lines i line j c
      ∧ d = make_debt client (calls i j) rel_path lines i c
      ∧ debt_content d = strip c).
  { intros d (k & l & j & c & Hl & Hf & ->)%Helem Hk.
    rewrite debt_line_make_debt in Hk. assert (k = i) as -> by lia.
    assert (l = line) as -> by congruence. by exists j, c. }
  split; [|done]. split.
  - intros (d & Hd & Hk). destruct (Hat d Hd Hk) as (j & c & Hf & _).
    destruct Hf as (parts & Hp & Hj & Hs & _). by exists parts, j, c.
  - intros (parts & j & c & Hp & Hj & Hs).
    destruct (first_satd client (calls i) 0 parts) as [[j' c']|] eqn:Hfirst.
    + apply first_satd_Some in Hfirst as (k & -> & Hk & Hs' & Hbefore).
      exists (make_debt client (calls i (0 + k)) rel_path lines i c').
      split; [|done]. apply Helem. exists i, line, (0 + k), c'.
      split_and!; try done. by exists parts.
    + rewrite first_satd_None in Hfirst. specialize (Hfirst j c Hj).
      simpl in Hfirst. congruence.
Qed.

End scanning.

Lemma scanned_items_are_first_satd_parts_witness :
  ∃ d, d ∈ SatdDetector.scan_file false (λ _ _, SatdDetector.mkCall 1 None None "2024-01-01")
             "src/a.py" (Some ["x = 1"; "y = 2  # FIXME later"])
       ∧ debt_line d = 2.
Proof.
  destruct (scanned_items_are_first_satd_parts false
              (λ _ _, SatdDetector.mkCall 1 None None "2024-01-01") "src/a.py"
              ["x = 1"; "y = 2  # FIXME later"] 1 "y = 2  # FIXME later" eq_refl)
    as [[_ H] _].
  apply H. exists [" FIXME later"], 0, " FIXME later". by vm_compute.
Defined.

Lemma scanned_items_ordered_with_distinct_ids_witness :
  NoDup (debt_id <$> SatdDetector.scan_file false
           (λ _ _, SatdDetector.mkCall 1 None None "2024-01-01") "src/a.py"
           (Some ["x = 1 // TODO"; "y = 2  # FIXME later"])).
Proof.
  by destruct (scanned_items_ordered_with_distinct_ids false
                 (λ _ _, SatdDetector.mkCall 1 None None "2024-01-01") "src/a.py"
                 (Some ["x = 1 // TODO"; "y = 2  # FIXME later"])) as (_ & H & _).
Defined.

(** * Simulated evaluations *)

(** ** Recommendation utility *)

Section recommendations.

Import RecommendationUtilityAnalyzer.
Local Open Scope Q_scope.

(** A value inside the bounds passes the clamp [max(lo, min(hi, x))]. *)
Lemma pyclamp_inside (lo hi x : Q) :
  lo <= x <= hi → Severity.pymax lo (Severity.pymin hi x) == x.
Proof.
  intros [Hlo Hhi]. unfold Severity.pymax, Severity.pymin.
  destruct (Qlt_le_dec x hi); destruct (Qlt_le_dec lo _); lra.
Qed.

Lemma base_values_cases (category : string) :
  default (mkBaseValues (37#10) (74#100) (40#100))
    (category_base_values !! category)
  = if decide (category = "Apps.") then mkBaseValues (42#10) (83#100) (52#100)
    else if decide (category = "Tools") then mkBaseValues (40#10) (80#100) (46#100)
    else mkBaseValues (37#10) (74#100) (40#100).
Proof.
  unfold category_base_values.
  destruct (decide (category = "Apps.")) as [->|Ha]; [done|].
  destruct (decide (category = "Tools")) as [->|Ht]; [done|].
  destruct (decide (category = "Libs./Framework")) as [->|Hl]; [done|].
  by rewrite !lookup_insert_ne, lookup_empty.
Qed.

(** X18. The simulated utility of the recommendations does not depend on
    the debt items. For noise within the ranges of the three
    [random.uniform] calls the clamps change nothing: each value is the
    base value of the project category plus its noise, where a category
    other than [Apps.] and [Tools] has the base values of
    [Libs./Framework]; so the usefulness lies between 3.5 and 4.4, the
    acceptance rate between 0.69 and 0.88 and the implementation rate
    between 0.35 and 0.57. *)
Theorem simulated_utility_is_base_plus_noise (n1 n2 n3 : Q)
    (debt_items : list TechnicalDebt) (project_category : string) :
  -(2#10) <= n1 <= 2#10 → -(5#100) <= n2 <= 5#100 → -(5#100) <= n3 <= 5#100 →
  ∃ u base,
    analyze_recommendations (n1, n2, n3) debt_items project_category = Some u
    ∧ base = (if decide (project_category = "Apps.")
              then mkBaseValues (42#10) (83#100) (52#100)
              else if decide (project_category = "Tools")
              then mkBaseValues (40#10) (80#100) (46#100)
              else mkBaseValues (37#10) (74#100) (40#100))
    ∧ usefulness_rating u == usefulness base + n1
    ∧ acceptance_rate u == acceptance base + n2
    ∧ implementation_rate u == implementation base + n3
    ∧ 35#10 <= usefulness_rating u <= 44#10
    ∧ 69#100 <= acceptance_rate u <= 88#100
    ∧ 35#100 <= implementation_rate u <= 57#100.
Proof.
  intros H1 H2 H3. unfold analyze_recommendations.
  change (category_base_values !! "Libs./Framework")
    with (Some (mkBaseValues (37#10) (74#100) (40#100))).
  simpl. rewrite base_values_cases.
  eexists _, _. split; [reflexivity|]. split; [reflexivity|]. simpl.
  set (base := if decide (project_category = "Apps.") then _ else _).
  assert (Hbase : (37#10 <= usefulness base <= 42#10)
                  ∧ (74#100 <= acceptance base <= 83#100)
                  ∧ (40#100 <= implementation base <= 52#100)).
  { subst base. repeat case_decide; simpl; lra. }
  destruct Hbase as (Hu & Ha & Hi).
  rewrite !pyclamp_inside by lra. repeat split; try reflexivity; lra.
Qed.

Lemma simulated_utility_is_base_plus_noise_witness :
  ∃ u, analyze_recommendations (1#10, 0, 0) [] "Games" = Some u
       ∧ usefulness_rating u == 38#10.
Proof.
  destruct (simulated_utility_is_base_plus_noise (1#10) 0 0 [] "Games")
    as (u & base & Hu & -> & Hus & _); [lra..|].
  exists u. split; [done|]. rewrite Hus. reflexivity.
Defined.

End recommendations.

(** ** Scores, buckets and ratings of the generated data set *)

Section ratings.

Import Exp22.
Local Open Scope Q_scope.

Lemma pymin_mono (x y : Q) : x <= y → Severity.pymin x 1 <= Severity.pymin y 1.
Proof.
  intros Hxy. unfold Severity.pymin.
  destruct (Qlt_le_dec 1 x), (Qlt_le_dec 1 y); lra.
Qed.

Lemma round4_mono (x y : Q) : x <= y → round4 x <= round4 y.
Proof.
  intros Hxy. unfold round4.
  set (a := x * 10000). set (b := y * 10000).
  assert (Hab : a <= b) by (subst a b; lra).
  pose proof (Qfloor_resp_le a b Hab) as Hfl.
  pose proof (Qfloor_le a) as Ha1. pose proof (Qlt_floor a) as Ha2.
  pose proof (Qfloor_le b) as Hb1. pose proof (Qlt_floor b) as Hb2.
  set (fa := Qfloor a) in *. set (fb := Qfloor b) in *.
  assert (Hn : ∀ m n : Z, (m <= n)%Z → inject_Z m / 10000 <= inject_Z n / 10000).
  { intros m n Hmn. rewrite Zle_Qle in Hmn. unfold Qdiv.
    apply Qmult_le_compat_r; [done|]. done. }
  apply Hn.
  destruct (Z.eq_dec fa fb) as [Heq|Hne].
  - rewrite <- Heq in *.
    destruct (a - inject_Z fa ?= 1 # 2) eqn:Hca;
      destruct (b - inject_Z fa ?= 1 # 2) eqn:Hcb;
      first [apply Qeq_alt in Hca | apply Qlt_alt in Hca | apply Qgt_alt in Hca];
      first [apply Qeq_alt in Hcb | apply Qlt_alt in Hcb | apply Qgt_alt in Hcb];
      try (exfalso; lra); destruct (Z.even fa); lia.
  - assert (Hlt : (fa + 1 <= fb)%Z) by lia.
    destruct (a - inject_Z fa ?= 1 # 2); destruct (b - inject_Z fb ?= 1 # 2);
      repeat destruct (Z.even _); lia.
Qed.

Lemma div_mono (x y : Q) (d : Q) : 0 < d → x <= y → x / d <= y / d.
Proof.
  intros Hd Hxy. unfold Qdiv. apply Qmult_le_compat_r; [done|].
  apply Qinv_le_0_compat. lra.
Qed.

Lemma div_ge_1 (x d : Q) : 0 < d → d <= x → 1 <= x / d.
Proof. intros Hd Hx. apply Qle_shift_div_l; lra. Qed.

(** X19. With the default weights the score of the generated data grows
    with the chain length, the number of dependencies and the
    reachability, stays between 0 and 1, and is 1 from a chain length of
    7, 10 dependencies and a reachability of 15 on. *)
Theorem generated_score_monotone_and_saturating
    (cl nd re cl' nd' re' : Q) :
  0 <= cl <= cl' → 0 <= nd <= nd' → 0 <= re <= re' →
  (0 <= calculate_sir_score cl nd re default_weights
     <= calculate_sir_score cl' nd' re' default_weights)
  ∧ calculate_sir_score cl' nd' re' default_weights <= 1
  ∧ (7 <= cl → 10 <= nd → 15 <= re →
     calculate_sir_score cl nd re default_weights == 1).
Proof.
  intros [Hc Hc'] [Hd Hd'] [Hr Hr'].
  pose proof (calculate_sir_score_unit cl nd re Hc Hd Hr) as [H0 H1].
  assert (Hcl' : 0 <= cl') by lra. assert (Hnd' : 0 <= nd') by lra.
  assert (Hre' : 0 <= re') by lra.
  pose proof (calculate_sir_score_unit cl' nd' re' Hcl' Hnd' Hre') as [H0' H1'].
  split_and!; try done.
  - unfold calculate_sir_score, default_weights. apply round4_mono.
    pose proof (pymin_mono _ _ (div_mono nd nd' 10 ltac:(lra) Hd')).
    pose proof (pymin_mono _ _ (div_mono cl cl' 7 ltac:(lra) Hc')).
    pose proof (pymin_mono _ _ (div_mono re re' 15 ltac:(lra) Hr')).
    lra.
  - intros H7 H10 H15. apply Qle_antisym; [done|].
    unfold calculate_sir_score, default_weights.
    assert (Hone : round4 1 == 1) by reflexivity.
    rewrite <- Hone at 1. apply round4_mono.
    pose proof (pymin_mono _ _ (div_ge_1 nd 10 ltac:(lra) H10)) as Hn.
    pose proof (pymin_mono _ _ (div_ge_1 cl 7 ltac:(lra) H7)) as Hl.
    pose proof (pymin_mono _ _ (div_ge_1 re 15 ltac:(lra) H15)) as Hre.
    change (Severity.pymin 1 1) with 1 in Hn, Hl, Hre. lra.
Qed.

Lemma generated_score_monotone_and_saturating_witness :
  calculate_sir_score 7 12 20 default_weights == 1.
Proof.
  destruct (generated_score_monotone_and_saturating 7 12 20 7 12 20)
    as (_ & _ & H); [lra..|].
  apply H; lra.
Defined.

Lemma sir_bucket_cases (s : Q) :
  (7#10 <= s → sir_bucket s = "Top-5")
  ∧ (4#10 <= s → s < 7#10 → sir_bucket s = "Mid-5")
  ∧ (s < 4#10 → sir_bucket s = "Bottom-5").
Proof.
  unfold sir_bucket. split_and!.
  - intros H. apply Qle_bool_iff in H. by rewrite H.
  - intros H4 H7. destruct (Qle_bool (7#10) s) eqn:E7.
    + apply Qle_bool_iff in E7. lra.
    + apply Qle_bool_iff in H4. by rewrite H4.
  - intros H4. destruct (Qle_bool (7#10) s) eqn:E7.
    + apply Qle_bool_iff in E7. lra.
    + destruct (Qle_bool (4#10) s) eqn:E4; [|done].
      apply Qle_bool_iff in E4. lra.
Qed.

(** X20. The simulated developer ratings follow the bucket of the chain:
    with the noise of [random.randint(-1, 1)] a chain with a score of at
    least 0.7 is rated 4 or 5, a chain with a score from 0.4 up to 0.7
    from 2 to 4, and a chain with a score below 0.4 from 1 to 3, so a
    top chain is always rated higher than a bottom chain. *)
Theorem ratings_follow_buckets (top mid bottom : Q) (n1 n2 n3 : Z) :
  7#10 <= top → 4#10 <= mid < 7#10 → bottom < 4#10 →
  (-1 ≤ n1 ≤ 1)%Z → (-1 ≤ n2 ≤ 1)%Z → (-1 ≤ n3 ≤ 1)%Z →
  (4 ≤ rating (sir_bucket top) n1 ≤ 5)%Z
  ∧ (2 ≤ rating (sir_bucket mid) n2 ≤ 4)%Z
  ∧ (1 ≤ rating (sir_bucket bottom) n3 ≤ 3)%Z
  ∧ (rating (sir_bucket bottom) n3 < rating (sir_bucket top) n1)%Z.
Proof.
  intros Ht [Hm1 Hm2] Hb H1 H2 H3.
  destruct (sir_bucket_cases top) as (Etop & _ & _).
  destruct (sir_bucket_cases mid) as (_ & Emid & _).
  destruct (sir_bucket_cases bottom) as (_ & _ & Ebottom).
  rewrite (Etop Ht), (Emid Hm1 Hm2), (Ebottom Hb).
  unfold rating.
  change (base_rating "Top-5") with 5%Z. change (base_rating "Mid-5") with 3%Z.
  change (base_rating "Bottom-5") with 2%Z. lia.
Qed.

Lemma ratings_follow_buckets_witness :
  (rating (sir_bucket (1#10)) 1 < rating (sir_bucket (8#10)) (-1))%Z.
Proof.
  apply (ratings_follow_buckets (8#10) (5#10) (1#10) (-1) 0 1);
    first [lra | lia].
Defined.

End ratings.

(** ** The relationship precision *)

Section validation.

Import PyLoop Validation.
Local Open Scope Q_scope.

(** A loop whose body keeps an invariant and does not raise on the items
    of the list ends, and keeps the invariant. *)
Lemma for_each_inv {St A} (P : St → Prop) (ok : A → Prop)
    (body : nat → St → A → option St) :
  (∀ i s x, P s → ok x → ∃ s', body i s x = Some s' ∧ P s') →
  ∀ l i s, P s → Forall ok l → ∃ s', for_each body i s l = Some s' ∧ P s'.
Proof.
  intros Hbody l. induction l as [|x l IH]; intros i s Hs Hl; simpl.
  - by exists s.
  - apply Forall_cons in Hl as [Hx Hl].
    destruct (Hbody i s x Hs Hx) as (s' & -> & Hs'). simpl. by apply IH.
Qed.

(** A loop with an item on which the body always raises, raises. *)
Lemma for_each_raises {St A} (body : nat → St → A → option St) (x : A) :
  (∀ i s, body i s x = None) →
  ∀ l i s, x ∈ l → for_each body i s l = None.
Proof.
  intros Hx l. induction l as [|y l IH]; intros i s Hin; [by apply elem_of_nil in Hin|].
  simpl. apply elem_of_cons in Hin as [<-|Hin]; [by rewrite Hx|].
  destruct (body i s y); simpl; [by apply IH|done].
Qed.

(** The counts stay counts of the four types, with no more valid than
    counted relationships. *)
Lemma validate_type_inv (expected : option (gmap string Q)) (draw : Q)
    (counts : gmap string nat * gmap string nat) (ty : string) :
  (∀ t, t ∈ rel_types → is_Some (counts.1 !! t) ∧ is_Some (counts.2 !! t)) →
  (∀ t, (default 0 (counts.2 !! t) ≤ default 0 (counts.1 !! t))%nat) →
  (∀ e, truthy expected = Some e → is_Some (e !! ty)) →
  ∃ counts', validate_type expected draw counts ty = Some counts'
    ∧ (∀ t, t ∈ rel_types → is_Some (counts'.1 !! t) ∧ is_Some (counts'.2 !! t))
    ∧ (∀ t, (default 0 (counts'.2 !! t) ≤ default 0 (counts'.1 !! t))%nat).
Proof.
  intros Hkeys Hle Hexp. unfold validate_type.
  assert (Hbase : ∃ b, match truthy expected with
                       | Some e => e !! ty
                       | None => Some (9#10)
                       end = Some b).
  { destruct (truthy expected) as [e|]; [|by eexists].
    destruct (Hexp e eq_refl) as [b Hb]. by exists b. }
  destruct Hbase as [b ->]. simpl. eexists. split; [reflexivity|]. simpl.
  assert (Hins : ∀ (m : gmap string nat) t,
            is_Some (m !! t) → is_Some (<[ty := (default 0 (m !! ty) + 1)%nat]> m !! t)).
  { intros m t Ht. destruct (decide (ty = t)) as [->|Hne].
    - rewrite lookup_insert_eq. by eexists.
    - by rewrite lookup_insert_ne. }
  split.
  - intros t Ht. destruct (Hkeys t Ht) as [H1 H2]. split; [by apply Hins|].
    destruct (Qlt_le_dec draw b); [by apply Hins|done].
  - intros t. specialize (Hle t). pose proof (Hle' := Hle).
    destruct (decide (ty = t)) as [->|Hne].
    + rewrite lookup_insert_eq. simpl.
      destruct (Qlt_le_dec draw b); [rewrite lookup_insert_eq; simpl|]; lia.
    + rewrite lookup_insert_ne by done.
      destruct (Qlt_le_dec draw b); [rewrite lookup_insert_ne by done|]; lia.
Qed.

Lemma count_valid_inv (expected : option (gmap string Q)) (draws : nat → nat → Q)
    (rels : list SatdRelationship) :
  (∀ e rel ty, truthy expected = Some e → rel ∈ rels → ty ∈ types rel →
     is_Some (e !! ty)) →
  ∃ counts, count_valid expected draws rels = Some counts
    ∧ (∀ t, t ∈ rel_types → is_Some (counts.1 !! t) ∧ is_Some (counts.2 !! t))
    ∧ (∀ t, (default 0 (counts.2 !! t) ≤ default 0 (counts.1 !! t))%nat).
Proof.
  intros Hexp. unfold count_valid.
  set (P := λ counts : gmap string nat * gmap string nat,
    (∀ t, t ∈ rel_types → is_Some (counts.1 !! t) ∧ is_Some (counts.2 !! t))
    ∧ (∀ t, (default 0 (counts.2 !! t) ≤ default 0 (counts.1 !! t))%nat)).
  apply (for_each_inv P
           (λ rel, ∀ e ty, truthy expected = Some e → ty ∈ types rel →
                           is_Some (e !! ty))).
  - intros i counts rel Hc Hrel.
    apply (for_each_inv P (λ ty, ∀ e, truthy expected = Some e → is_Some (e !! ty))).
    + intros j s ty [Hs1 Hs2] Hty. by apply validate_type_inv.
    + done.
    + apply Forall_forall. intros ty Hty e He. by apply (Hrel e ty).
  - split; [|done]. intros t Ht. apply (bool_decide_unpack _).
    revert t Ht. apply Forall_forall. by repeat constructor.
  - apply Forall_forall. intros rel Hrel e ty He Hty. by apply (Hexp e rel ty).
Qed.

(** The loop that calculates the precision sets each of the types to the
    ratio of its counts. *)
Lemma ratio_loop (counts : gmap string nat * gmap string nat)
    (tys : list string) (i : nat) (p : gmap string Q) :
  (∀ t, t ∈ tys → is_Some (counts.1 !! t) ∧ is_Some (counts.2 !! t)) →
  (∀ t, (default 0 (counts.2 !! t) ≤ default 0 (counts.1 !! t))%nat) →
  ∃ p', for_each (λ _, ratio counts) i p tys = Some p'
    ∧ (∀ t, t ∈ tys → ∃ v, p' !! t = Some v ∧ 0 <= v <= 1)
    ∧ (∀ t, t ∉ tys → p' !! t = p !! t).
Proof.
  intros Hkeys Hle. revert i p.
  induction tys as [|ty tys IH]; intros i p; simpl.
  { exists p. split; [done|]. split; [|done]. by intros t ?%elem_of_nil. }
  destruct (Hkeys ty) as [[total Ht] [valid Hv]]; [left|].
  assert (Hstep : ∃ v, ratio counts p ty = Some (<[ty := v]> p) ∧ 0 <= v <= 1).
  { unfold ratio. rewrite Ht. simpl. destruct (decide (0 < total)%nat) as [Hpos|_].
    - rewrite Hv. simpl. eexists. split; [reflexivity|].
      split; [apply truediv_nonneg|]. apply truediv_le_1; [|done].
      specialize (Hle ty). rewrite Ht, Hv in Hle. done.
    - eexists. split; [reflexivity|]. lra. }
  destruct Hstep as (v & -> & Hv01). simpl.
  assert (Hkeys' : ∀ t, t ∈ tys → is_Some (counts.1 !! t) ∧ is_Some (counts.2 !! t)).
  { intros t Hin. apply Hkeys. by right. }
  destruct (IH Hkeys' (S i) (<[ty := v]> p)) as (p' & -> & Hin & Hout).
  exists p'. split; [done|]. split.
  - intros t [->|Ht']%elem_of_cons; [|by apply Hin].
    destruct (decide (ty ∈ tys)) as [Hty|Hty]; [by apply Hin|].
    rewrite (Hout ty Hty), lookup_insert_eq. by exists v.
  - intros t Ht'%not_elem_of_cons. destruct Ht' as [Hne Hnin].
    rewrite (Hout t Hnin). by rewrite lookup_insert_ne.
Qed.

(** The loop that compares with the expected values leaves each of the
    types within 0.05 of its expected value. *)
Lemma adjust_loop (e : gmap string Q) (noise : nat → Q) (tys : list string)
    (k : nat) (p : gmap string Q) :
  e ≠ ∅ →
  (∀ t, t ∈ tys → is_Some (e !! t) ∧ is_Some (p !! t)) →
  (∀ n, -(2#100) <= noise n <= 2#100) →
  ∃ p', for_each (adjust (Some e) noise) k p tys = Some p'
    ∧ (∀ t, t ∈ tys → ∃ v x, p' !! t = Some v ∧ e !! t = Some x
                             ∧ Qabs (v - x) <= 5#100)
    ∧ (∀ t, t ∉ tys → p' !! t = p !! t).
Proof.
  intros Hne Hkeys Hnoise. revert k p Hkeys.
  induction tys as [|ty tys IH]; intros k p Hkeys; simpl.
  { exists p. split; [done|]. split; [|done]. by intros t ?%elem_of_nil. }
  destruct (Hkeys ty) as [[x Hx] [a Ha]]; [left|].
  assert (Hstep : ∃ p1 v, adjust (Some e) noise k p ty = Some p1
            ∧ p1 !! ty = Some v ∧ Qabs (v - x) <= 5#100
            ∧ (∀ t, is_Some (p !! t) → is_Some (p1 !! t))
            ∧ (∀ t, t ≠ ty → p1 !! t = p !! t)).
  { unfold adjust, truthy. destruct (decide (e = ∅)); [done|].
    rewrite Hx, Ha. cbn [mbind option_bind].
    destruct (Qlt_le_dec (5#100) (Qabs (a - x))) as [Hfar|Hnear].
    - exists (<[ty := x + noise k]> p), (x + noise k).
      split_and!; [done | by rewrite lookup_insert_eq | | |].
      + specialize (Hnoise k). apply Qabs_Qle_condition. split; lra.
      + intros t Ht. destruct (decide (ty = t)) as [->|?].
        * rewrite lookup_insert_eq. by eexists.
        * by rewrite lookup_insert_ne.
      + intros t Ht. by rewrite lookup_insert_ne.
    - exists p, a. split_and!; done. }
  destruct Hstep as (p1 & v & -> & Hv & Hclose & Hsome & Hother). simpl.
  destruct (IH (S k) p1) as (p' & -> & Hin & Hout).
  { intros t Ht. destruct (Hkeys t) as [He Hp]; [by right|].
    split; [done|]. by apply Hsome. }
  exists p'. split; [done|]. split.
  - intros t [->|Ht']%elem_of_cons; [|by apply Hin].
    destruct (decide (ty ∈ tys)) as [Hty|Hty]; [by apply Hin|].
    rewrite (Hout ty Hty). by exists v, x.
  - intros t Ht'%not_elem_of_cons. destruct Ht' as [Hne' Hnin].
    rewrite (Hout t Hnin). by apply Hother.
Qed.

Lemma adjust_loop_skip (expected : option (gmap string Q)) (noise : nat → Q)
    (tys : list string) (k : nat) (p : gmap string Q) :
  truthy expected = None →
  for_each (adjust expected noise) k p tys = Some p.
Proof.
  intros Hnone.
  assert (Hstep : ∀ n ty, adjust expected noise n p ty = Some p).
  { intros n ty. unfold adjust. by rewrite Hnone. }
  revert k. induction tys as [|ty tys IH]; intros k; [done|].
  simpl. rewrite Hstep. apply IH.
Qed.

(** X21. Where the project has expected precision values for the four
    relationship types, the reported precision of each type lies within
    0.05 of its expected value, whatever the relationships that were found
    and whatever the simulated validation drew: a ratio further away is
    replaced by the expected value plus a noise of at most 0.02. The types
    of the relationships have to be among the expected ones. *)
Theorem reported_precision_within_expected (e : gmap string Q)
    (draws : nat → nat → Q) (noise : nat → Q) (rels : list SatdRelationship) :
  (∀ t, t ∈ rel_types → is_Some (e !! t)) →
  (∀ rel ty, rel ∈ rels → ty ∈ types rel → is_Some (e !! ty)) →
  (∀ n, -(2#100) <= noise n <= 2#100) →
  ∃ p, relationship_precision (Some e) draws noise rels = Some p
    ∧ ∀ t, t ∈ rel_types →
        ∃ v x, p !! t = Some v ∧ e !! t = Some x ∧ Qabs (v - x) <= 5#100.
Proof.
  intros Hfour Htypes Hnoise.
  assert (Hne : e ≠ ∅).
  { intros ->. destruct (Hfour "call") as [x Hx]; [by left|].
    by rewrite lookup_empty in Hx. }
  unfold relationship_precision.
  destruct (count_valid_inv (Some e) draws rels) as (counts & -> & Hkeys & Hle).
  { intros e' rel ty He Hrel Hty. unfold truthy in He.
    destruct (decide (e = ∅)); [done|]. injection He as <-. by eapply Htypes. }
  cbn [mbind option_bind].
  destruct (ratio_loop counts rel_types 0 zero_precision Hkeys Hle)
    as (p1 & -> & Hp1 & _).
  cbn [mbind option_bind].
  destruct (adjust_loop e noise rel_types 0 p1 Hne) as (p & -> & Hp & _);
    [|done|by exists p].
  intros t Ht. split; [by apply Hfour|].
  destruct (Hp1 t Ht) as (v & -> & _). by eexists.
Qed.

Lemma reported_precision_within_expected_witness :
  ∃ p, relationship_precision
         (Some (<["call" := 94#100]> (<["data" := 89#100]>
                (<["control" := 82#100]> (<["module" := 95#100]> ∅)))))
         (λ _ _, 1) (λ _, 0) [Examples.call_edge "a" "b"] = Some p
       ∧ ∃ v, p !! "call" = Some v ∧ Qabs (v - (94#100)) <= 5#100.
Proof.
  destruct (reported_precision_within_expected
              (<["call" := 94#100]> (<["data" := 89#100]>
                (<["control" := 82#100]> (<["module" := 95#100]> ∅))))
              (λ _ _, 1) (λ _, 0) [Examples.call_edge "a" "b"])
    as (p & Hp & Hall).
  - intros t Ht. apply (bool_decide_unpack _). revert t Ht.
    apply Forall_forall. by repeat constructor.
  - intros rel ty ->%list_elem_of_singleton ->%list_elem_of_singleton.
    by eexists.
  - intros n. lra.
  - exists p. split; [done|].
    destruct (Hall "call") as (v & x & Hv & Hx & Hclose); [by left|].
    exists v. split; [done|]. by injection Hx as <-.
Defined.

(** X22. Without expected values (none for the project, or an empty dict)
    the reported precision of each of the four types is a ratio between
    0 and 1. With expected values, a relationship with a type that they
    do not list makes the validation raise. *)
Theorem precision_without_expected_is_a_ratio
    (expected : option (gmap string Q)) (draws : nat → nat → Q)
    (noise : nat → Q) (rels : list SatdRelationship) :
  (truthy expected = None →
   ∃ p, relationship_precision expected draws noise rels = Some p
     ∧ ∀ t, t ∈ rel_types → ∃ v, p !! t = Some v ∧ 0 <= v <= 1)
  ∧ (∀ e rel ty, truthy expected = Some e → rel ∈ rels → ty ∈ types rel →
       e !! ty = None →
       relationship_precision expected draws noise rels = None).
Proof.
  split.
  - intros Hnone. unfold relationship_precision.
    destruct (count_valid_inv expected draws rels) as (counts & -> & Hkeys & Hle).
    { intros e rel ty He. congruence. }
    cbn [mbind option_bind].
    destruct (ratio_loop counts rel_types 0 zero_precision Hkeys Hle)
      as (p1 & -> & Hp1 & _).
    cbn [mbind option_bind]. rewrite adjust_loop_skip by done. by exists p1.
  - intros e rel ty He Hrel Hty Hmiss. unfold relationship_precision, count_valid.
    rewrite (for_each_raises _ rel); [done| |done].
    intros i s. apply (for_each_raises _ ty); [|done].
    intros j s'. unfold validate_type. by rewrite He, Hmiss.
Qed.

Lemma precision_without_expected_is_a_ratio_witness :
  relationship_precision (Some (<["call" := 94#100]> ∅)) (λ _ _, 1) (λ _, 0)
    [Examples.module_edge "a" "b"] = None.
Proof.
  destruct (precision_without_expected_is_a_ratio
              (Some (<["call" := 94#100]> ∅)) (λ _ _, 1) (λ _, 0)
              [Examples.module_edge "a" "b"]) as [_ H].
  apply (H (<["call" := 94#100]> ∅) (Examples.module_edge "a" "b") "module").
  - unfold truthy. by destruct (decide _) as [E|]; [apply insert_non_empty in E|].
  - by left.
  - by left.
  - done.
Defined.

End validation.

(** * The call dependency extractor *)

Section call_dependencies.

Import PyLoop CallDependencies.
Local Open Scope Q_scope.

(** What a loop returns keeps every invariant of its body. *)
Lemma for_each_preserves {St A} (P : St → Prop)
    (body : nat → St → A → option St) (l : list A) :
  (∀ i s x s', x ∈ l → P s → body i s x = Some s' → P s') →
  ∀ i s s', P s → for_each body i s l = Some s' → P s'.
Proof.
  induction l as [|x l IH]; intros Hbody i s s' Hs Hrun; simpl in Hrun.
  - by injection Hrun as <-.
  - destruct (body i s x) as [s1|] eqn:Hx; [|done]. simpl in Hrun.
    apply (IH (λ i s y s' Hy, Hbody i s y s' (list_elem_of_further _ _ _ Hy))
              (S i) s1 s'); [|done].
    apply (Hbody i s x s1); [by left|done..].
Qed.

(** A loop raises when its body raises on the item at some position. *)
Lemma for_each_raises_at {St A} (body : nat → St → A → option St) (l : list A)
    (n : nat) (x : A) :
  l !! n = Some x →
  ∀ i s, (∀ s', body (i + n)%nat s' x = None) → for_each body i s l = None.
Proof.
  revert n. induction l as [|y l IH]; intros n Hn i s Hx; [done|].
  simpl. destruct n as [|n].
  - injection Hn as ->. rewrite Nat.add_0_r in Hx. by rewrite Hx.
  - destruct (body i s y) as [s1|]; [|done]. simpl.
    apply (IH n Hn). intros s'. replace (S i + n)%nat with (i + S n)%nat by lia.
    apply Hx.
Qed.

Lemma add_debt_elem (groups : list (string * list TechnicalDebt))
    (debt : TechnicalDebt) (file : string) (debts : list TechnicalDebt)
    (d : TechnicalDebt) :
  (file, debts) ∈ add_debt groups debt → d ∈ debts →
  (d = debt ∧ file = debt_file debt)
  ∨ ∃ debts0, (file, debts0) ∈ groups ∧ d ∈ debts0.
Proof.
  induction groups as [|[f ds] groups IH]; simpl.
  - intros [= -> ->]%list_elem_of_singleton ->%list_elem_of_singleton. by left.
  - destruct (decide (f = debt_file debt)) as [->|Hne].
    + intros [[= -> ->]|Hin]%elem_of_cons Hd.
      * apply elem_of_app in Hd as [Hd| ->%list_elem_of_singleton]; [|by left].
        right. exists ds. split; [by left|done].
      * right. exists debts. split; [by right|done].
    + intros [[= -> ->]|Hin]%elem_of_cons Hd.
      * right. exists ds. split; [by left|done].
      * destruct (IH Hin Hd) as [?|(ds0 & ? & ?)]; [by left|].
        right. exists ds0. split; [by right|done].
Qed.

Lemma group_by_file_snoc (items : list TechnicalDebt) (debt : TechnicalDebt) :
  group_by_file (items ++ [debt]) = add_debt (group_by_file items) debt.
Proof. unfold group_by_file. by rewrite foldl_app. Qed.

(** The lists of the dict hold debt items of the file they are filed
    under. *)
Lemma group_by_file_elem (items : list TechnicalDebt) (file : string)
    (debts : list TechnicalDebt) (d : TechnicalDebt) :
  (file, debts) ∈ group_by_file items → d ∈ debts →
  d ∈ items ∧ debt_file d = file.
Proof.
  revert file debts d. induction items as [|debt items IH] using rev_ind;
    intros file debts d Hg Hd.
  - by apply elem_of_nil in Hg.
  - rewrite group_by_file_snoc in Hg.
    destruct (add_debt_elem _ _ _ _ _ Hg Hd) as [[-> ->]|(ds0 & Hg0 & Hd0)].
    + split; [|done]. apply elem_of_app. right. by left.
    + destruct (IH _ _ _ Hg0 Hd0). split; [|done]. apply elem_of_app. by left.
Qed.

(** Debt items of one file make one entry of the dict. *)
Lemma group_by_file_one (items : list TechnicalDebt) (file : string) :
  (∀ d, d ∈ items → debt_file d = file) →
  group_by_file items = match items with [] => [] | _ => [(file, items)] end.
Proof.
  induction items as [|debt items IH] using rev_ind; intros Hfile; [done|].
  rewrite group_by_file_snoc, IH.
  2: { intros d Hd. apply Hfile, elem_of_app. by left. }
  assert (Hdebt : debt_file debt = file).
  { apply Hfile, elem_of_app. right. by left. }
  destruct items as [|d0 items]; simpl.
  - by rewrite Hdebt.
  - rewrite Hdebt. by destruct (decide (file = file)).
Qed.

(** The relationship of the extractor for a source and a target. *)
Lemma pair_body_Some (draws : Draws) (a b i j : nat) (s t : TechnicalDebt)
    (rels rels' : list SatdRelationship) :
  pair_body draws a b i j s t rels = Some rels' →
  rels' = rels
  ∨ (debt_id s ≠ debt_id t
     ∧ rels' = rels ++ [SatdRelationship_init (debt_id s) (debt_id t) ["call"]
                          (8#10) (call_description s t)]).
Proof.
  unfold pair_body. destruct (decide (debt_id s = debt_id t)) as [|Hne].
  { intros [= <-]. by left. }
  destruct (Qlt_le_dec (module_draw draws a b i j) (25#100)); [done|].
  destruct (Qlt_le_dec (call_draw draws a b i j) (2#10)).
  - intros [= <-]. right. done.
  - intros [= <-]. by left.
Qed.

(** X23. Every relationship that [analyze_call_dependencies] returns is a
    call relationship of strength 0.8 from one debt item to another with a
    different id in a different file, with the files and lines of both in
    its description, and is not yet part of a chain. Debt items of one file
    give no relationship. *)
Theorem call_dependencies_join_files (draws : Draws)
    (debt_items : list TechnicalDebt) :
  (∀ rels rel, analyze_call_dependencies draws debt_items = Some rels →
     rel ∈ rels →
     ∃ s t, s ∈ debt_items ∧ t ∈ debt_items
       ∧ debt_file s ≠ debt_file t ∧ debt_id s ≠ debt_id t
       ∧ rel = SatdRelationship_init (debt_id s) (debt_id t) ["call"] (8#10)
                 (call_description s t))
  ∧ ((∀ d d', d ∈ debt_items → d' ∈ debt_items → debt_file d = debt_file d') →
     analyze_call_dependencies draws debt_items = Some []).
Proof.
  split.
  - intros rels rel Hrun Hrel.
    set (good := λ rel, ∃ s t, s ∈ debt_items ∧ t ∈ debt_items
       ∧ debt_file s ≠ debt_file t ∧ debt_id s ≠ debt_id t
       ∧ rel = SatdRelationship_init (debt_id s) (debt_id t) ["call"] (8#10)
                 (call_description s t)).
    assert (Hall : Forall good rels); [|by rewrite Forall_forall in Hall; apply Hall].
    revert Hrun. unfold analyze_call_dependencies.
    apply (for_each_preserves (Forall good)); [|constructor].
    intros a rels0 [sf sds] rels1 Hsrc Hgood.
    apply (for_each_preserves (Forall good)); [|done].
    intros b rels2 [tf tds] rels3 Htgt Hgood2. unfold file_pair_body. simpl.
    destruct (decide (sf = tf)) as [|Hfiles]; [by intros [= <-]|].
    destruct (Qlt_le_dec (3#10) (file_draw draws a b)); [by intros [= <-]|].
    apply (for_each_preserves (Forall good)); [|done].
    intros i rels4 s rels5 Hs Hgood4.
    apply (for_each_preserves (Forall good)); [|done].
    intros j rels6 t rels7 Ht Hgood6 Hpair.
    apply pair_body_Some in Hpair as [->|[Hids ->]]; [done|].
    apply Forall_app. split; [done|]. constructor; [|constructor].
    destruct (group_by_file_elem _ _ _ _ Hsrc Hs) as [Hsin Hsf].
    destruct (group_by_file_elem _ _ _ _ Htgt Ht) as [Htin Htf].
    exists s, t. split_and!; try done. congruence.
  - intros Hone. unfold analyze_call_dependencies.
    destruct debt_items as [|d0 items] eqn:E; [done|]. rewrite <- E in *.
    rewrite (group_by_file_one debt_items (debt_file d0)).
    2: { intros d Hd. apply Hone; [done|]. rewrite E. by left. }
    rewrite E. simpl. unfold file_pair_body. simpl.
    by destruct (decide (debt_file d0 = debt_file d0)).
Qed.

Lemma call_dependencies_join_files_witness :
  analyze_call_dependencies (mkDraws (λ _ _, 0) (λ _ _ _ _, 0) (λ _ _ _ _, 0))
    [Examples.debt "A" "src/a.py" "TODO"; Examples.debt "B" "src/a.py" "FIXME"]
  = Some [].
Proof.
  apply (call_dependencies_join_files
           (mkDraws (λ _ _, 0) (λ _ _ _ _, 0) (λ _ _ _ _, 0))
           [Examples.debt "A" "src/a.py" "TODO"; Examples.debt "B" "src/a.py" "FIXME"]).
  intros d d' Hd Hd'.
  assert (Hall : Forall (λ d, debt_file d = "src/a.py")
            [Examples.debt "A" "src/a.py" "TODO"; Examples.debt "B" "src/a.py" "FIXME"])
    by (by repeat constructor).
  rewrite Forall_forall in Hall. by rewrite (Hall d Hd), (Hall d' Hd').
Defined.

(** X24. [analyze_call_dependencies] raises as soon as it takes the branch
    of the module relationship, whose description names variables that the
    function does not define: for two files of the dict whose pair is
    analysed (a draw of at most 0.3) and two of their debt items with
    different ids, a draw below 0.25 is a [NameError]. Where no such draw
    is below 0.25 the extractor returns. *)
Theorem call_dependencies_raise_on_module_branch (draws : Draws)
    (debt_items : list TechnicalDebt) :
  (∀ a b i j source target s t,
     group_by_file debt_items !! a = Some source →
     group_by_file debt_items !! b = Some target →
     source.1 ≠ target.1 → file_draw draws a b <= 3#10 →
     source.2 !! i = Some s → target.2 !! j = Some t →
     debt_id s ≠ debt_id t → module_draw draws a b i j < 25#100 →
     analyze_call_dependencies draws debt_items = None)
  ∧ ((∀ a b i j, 25#100 <= module_draw draws a b i j) →
     is_Some (analyze_call_dependencies draws debt_items)).
Proof.
  split.
  - intros a b i j source target s t Ha Hb Hfiles Hpair Hi Hj Hids Hdraw.
    unfold analyze_call_dependencies.
    apply (for_each_raises_at _ _ a source Ha). intros rels0.
    apply (for_each_raises_at _ _ b target Hb). intros rels1.
    simpl. unfold file_pair_body.
    destruct (decide (source.1 = target.1)); [done|].
    destruct (Qlt_le_dec (3#10) (file_draw draws a b)); [lra|].
    apply (for_each_raises_at _ _ i s Hi). intros rels2.
    apply (for_each_raises_at _ _ j t Hj). intros rels3.
    simpl. unfold pair_body.
    destruct (decide (debt_id s = debt_id t)); [done|].
    destruct (Qlt_le_dec (module_draw draws a b i j) (25#100)); [done|lra].
  - intros Hdraws. unfold analyze_call_dependencies.
    assert (Hloop : ∀ {A} (body : nat → list SatdRelationship → A →
                            option (list SatdRelationship)) l i s,
              (∀ i s x, is_Some (body i s x)) → is_Some (for_each body i s l)).
    { intros A body l. induction l as [|x l IH]; intros i s Hbody; [by eexists|].
      simpl. destruct (Hbody i s x) as [s1 ->]. simpl. by apply IH. }
    apply Hloop. intros a rels0 source. apply Hloop. intros b rels1 target.
    unfold file_pair_body.
    destruct (decide (source.1 = target.1)); [by eexists|].
    destruct (Qlt_le_dec (3#10) (file_draw draws a b)); [by eexists|].
    apply Hloop. intros i rels2 s. apply Hloop. intros j rels3 t.
    unfold pair_body.
    destruct (decide (debt_id s = debt_id t)); [by eexists|].
    destruct (Qlt_le_dec (module_draw draws a b i j) (25#100)) as [Hlt|_].
    { specialize (Hdraws a b i j). lra. }
    destruct (Qlt_le_dec (call_draw draws a b i j) (2#10)); by eexists.
Qed.

Lemma call_dependencies_raise_on_module_branch_witness :
  analyze_call_dependencies (mkDraws (λ _ _, 0) (λ _ _ _ _, 0) (λ _ _ _ _, 1))
    [Examples.debt "A" "src/a.py" "TODO"; Examples.debt "B" "src/b.py" "FIXME"]
  = None.
Proof.
  apply (proj1 (call_dependencies_raise_on_module_branch
                  (mkDraws (λ _ _, 0) (λ _ _ _ _, 0) (λ _ _ _ _, 1))
                  [Examples.debt "A" "src/a.py" "TODO";
                   Examples.debt "B" "src/b.py" "FIXME"])
           0%nat 1%nat 0%nat 0%nat
           ("src/a.py", [Examples.debt "A" "src/a.py" "TODO"])
           ("src/b.py", [Examples.debt "B" "src/b.py" "FIXME"])
           (Examples.debt "A" "src/a.py" "TODO")
           (Examples.debt "B" "src/b.py" "FIXME"));
    try done; simpl; lra.
Defined.

End call_dependencies.

(** * Relationships: no merge, and the batch *)

Section merging.

Import PyLoop CallDependencies RelationshipAnalyzer FindAllRelationships.
Local Open Scope Q_scope.

(** Where the call extractor returns, each of its relationships is the call
    relationship of two of the debt items, with different ids. *)
Lemma call_relationship_origin (draws : Draws) (debt_items : list TechnicalDebt)
    (out : list SatdRelationship) (rel : SatdRelationship) :
  analyze_call_dependencies draws debt_items = Some out → rel ∈ out →
  ∃ s t, s ∈ debt_items ∧ t ∈ debt_items ∧ debt_id s ≠ debt_id t
    ∧ rel = SatdRelationship_init (debt_id s) (debt_id t) ["call"] (8#10)
              (call_description s t).
Proof.
  intros Hrun Hrel.
  set (good := λ rel, ∃ s t, s ∈ debt_items ∧ t ∈ debt_items
     ∧ debt_id s ≠ debt_id t
     ∧ rel = SatdRelationship_init (debt_id s) (debt_id t) ["call"] (8#10)
               (call_description s t)).
  assert (Hall : Forall good out); [|by rewrite Forall_forall in Hall; apply Hall].
  revert Hrun. unfold analyze_call_dependencies.
  apply (for_each_preserves (Forall good)); [|constructor].
  intros a rels0 [sf sds] rels1 Hsrc Hgood.
  apply (for_each_preserves (Forall good)); [|done].
  intros b rels2 [tf tds] rels3 Htgt Hgood2. unfold file_pair_body. simpl.
  destruct (decide (sf = tf)); [by intros [= <-]|].
  destruct (Qlt_le_dec (3#10) (file_draw draws a b)); [by intros [= <-]|].
  apply (for_each_preserves (Forall good)); [|done].
  intros i rels4 s rels5 Hs Hgood4.
  apply (for_each_preserves (Forall good)); [|done].
  intros j rels6 t rels7 Ht Hgood6 Hpair.
  apply pair_body_Some in Hpair as [->|[Hids ->]]; [done|].
  apply Forall_app. split; [done|]. constructor; [|constructor].
  destruct (group_by_file_elem _ _ _ _ Hsrc Hs) as [Hsin _].
  destruct (group_by_file_elem _ _ _ _ Htgt Ht) as [Htin _].
  by exists s, t.
Qed.




(** C4. [find_all_relationships] raises for every list of debt items and
    all draws: the call extractor raises, or it returns and the lookup of
    the data extractor on the instance raises. So no relationship list is
    returned and no graph is built. The call extractor alone, where it
    returns, relates no id to itself and only ids of the debt items. *)
Theorem find_all_relationships_aborts (graph : nx.DiGraph) (draws : Draws)
    (debt_items : list TechnicalDebt) :
  find_all_relationships graph draws debt_items = None
  ∧ ∀ out rel, analyze_call_dependencies draws debt_items = Some out → rel ∈ out →
      Spec.well_formed_edge (debt_id <$> debt_items) rel.
Proof.
  split.
  - unfold find_all_relationships.
    by destruct (analyze_call_dependencies draws debt_items).
  - intros out rel Hrun Hrel.
    destruct (call_relationship_origin draws debt_items out rel Hrun Hrel)
      as (s & t & Hs & Ht & Hids & ->).
    split_and!; [done | |]; apply list_elem_of_fmap; eauto.
Qed.

End merging.

(** * The chains of the generated data set *)

Section generated_chains.

Import Exp22Chains.

Lemma add_satd_concat (by_project : list (string * list Satd)) (satd : Satd) :
  concat (add_satd by_project satd).*2 ≡ₚ concat by_project.*2 ++ [satd].
Proof.
  induction by_project as [|[project satds] rest IH]; simpl; [done|].
  destruct (decide (project = satd_project satd)); simpl.
  - rewrite <- !app_assoc. apply Permutation_app_head, Permutation_app_comm.
  - rewrite IH. by rewrite app_assoc.
Qed.

Lemma group_by_project_snoc (all : list Satd) (satd : Satd) :
  group_by_project (all ++ [satd]) = add_satd (group_by_project all) satd.
Proof. unfold group_by_project. by rewrite foldl_app. Qed.

(** Grouping by project loses and repeats no instance. *)
Lemma group_by_project_perm (all : list Satd) :
  concat (group_by_project all).*2 ≡ₚ all.
Proof.
  induction all as [|satd all IH] using rev_ind; [done|].
  by rewrite group_by_project_snoc, add_satd_concat, IH.
Qed.

Lemma add_satd_elem (by_project : list (string * list Satd)) (satd : Satd)
    (project : string) (satds : list Satd) (s : Satd) :
  (project, satds) ∈ add_satd by_project satd → s ∈ satds →
  (s = satd ∧ project = satd_project satd)
  ∨ ∃ satds0, (project, satds0) ∈ by_project ∧ s ∈ satds0.
Proof.
  induction by_project as [|[p ss] rest IH]; simpl.
  - intros [= -> ->]%list_elem_of_singleton ->%list_elem_of_singleton. by left.
  - destruct (decide (p = satd_project satd)) as [->|Hne].
    + intros [[= -> ->]|Hin]%elem_of_cons Hs.
      * apply elem_of_app in Hs as [Hs| ->%list_elem_of_singleton]; [|by left].
        right. exists ss. split; [by left|done].
      * right. exists satds. split; [by right|done].
    + intros [[= -> ->]|Hin]%elem_of_cons Hs.
      * right. exists ss. split; [by left|done].
      * destruct (IH Hin Hs) as [?|(ss0 & ? & ?)]; [by left|].
        right. exists ss0. split; [by right|done].
Qed.

(** The list of a project holds instances of that project. *)
Lemma group_by_project_elem (all : list Satd) (project : string)
    (satds : list Satd) (s : Satd) :
  (project, satds) ∈ group_by_project all → s ∈ satds → satd_project s = project.
Proof.
  revert project satds s. induction all as [|satd all IH] using rev_ind;
    intros project satds s Hg Hs.
  - by apply elem_of_nil in Hg.
  - rewrite group_by_project_snoc in Hg.
    destruct (add_satd_elem _ _ _ _ _ Hg Hs) as [[-> ->]|(ss0 & Hg0 & Hs0)]; [done|].
    by apply (IH _ _ _ Hg0 Hs0).
Qed.

(** What a chain of the loop over [project_satds] looks like. *)
Lemma chain_loop_spec (choices : nat → nat) (project : string)
    (project_satds : list Satd) (fuel i : nat) (chains : list ChainRecord)
    (chain_id : nat) :
  length project_satds - i ≤ fuel →
  (∀ k, 1 ≤ choices k ≤ 7) →
  ∃ new,
    chain_loop fuel choices project project_satds i (chains, chain_id)
    = (chains ++ new, chain_id + length new)
    ∧ concat (satd_instances <$> new) = drop i project_satds
    ∧ Forall (λ c, rec_project c = project
                   ∧ rec_chain_length c = length (satd_instances c)
                   ∧ 1 ≤ rec_chain_length c ≤ 7
                   ∧ ∀ s, s ∈ satd_instances c → s ∈ project_satds) new
    ∧ ∀ k c, new !! k = Some c → rec_chain_id c = chain_label (chain_id + k).
Proof.
  intros Hfuel Hchoices. revert i chains chain_id Hfuel.
  induction fuel as [|fuel IH]; intros i chains chain_id Hfuel; simpl.
  - exists []. rewrite app_nil_r, Nat.add_0_r. split_and!; try done.
    by rewrite drop_ge by lia.
  - destruct (decide (i < length project_satds)) as [Hi|Hi].
    2: { exists []. rewrite app_nil_r, Nat.add_0_r. split_and!; try done.
         by rewrite drop_ge by lia. }
    set (n := choices i `min` (length project_satds - i)).
    assert (Hn : 1 ≤ n ≤ 7 ∧ n ≤ length project_satds - i).
    { specialize (Hchoices i). subst n. lia. }
    destruct (decide (n = 0)) as [?|_]; [lia|].
    destruct (IH (i + n)
                (chains ++ [mkChainRecord (chain_label chain_id) project n
                              (PyText.slice i (i + n) project_satds)])
                (S chain_id)) as (new & -> & Hconcat & Hall & Hids); [lia|].
    assert (Hslice : PyText.slice i (i + n) project_satds
                     = take n (drop i project_satds)).
    { unfold PyText.slice. by replace (i + n - i) with n by lia. }
    exists (mkChainRecord (chain_label chain_id) project n
              (PyText.slice i (i + n) project_satds) :: new).
    split_and!.
    + rewrite <- app_assoc. simpl. f_equal. lia.
    + rewrite fmap_cons. simpl. rewrite Hconcat, Hslice.
      rewrite <- drop_drop. apply take_drop.
    + constructor; [|done]. simpl. rewrite Hslice. split_and!; try done; try lia.
      * rewrite length_take, length_drop. lia.
      * intros s Hs. by apply (subseteq_drop i), (subseteq_take n).
    + intros [|k] c Hc; simpl in Hc.
      * injection Hc as <-. simpl. by rewrite Nat.add_0_r.
      * rewrite (Hids k c Hc). f_equal. lia.
Qed.

(** The loop over the projects. *)
Lemma each_project_spec (shuffle : nat → list Satd → list Satd)
    (choices : nat → nat → nat) (by_project : list (string * list Satd))
    (p : nat) (chains : list ChainRecord) (chain_id : nat) :
  (∀ p l, shuffle p l ≡ₚ l) →
  (∀ p k, 1 ≤ choices p k ≤ 7) →
  ∃ new,
    each_project shuffle choices p (chains, chain_id) by_project
    = (chains ++ new, chain_id + length new)
    ∧ concat (satd_instances <$> new) ≡ₚ concat by_project.*2
    ∧ Forall (λ c, rec_chain_length c = length (satd_instances c)
                   ∧ 1 ≤ rec_chain_length c ≤ 7
                   ∧ ∃ satds, (rec_project c, satds) ∈ by_project
                              ∧ ∀ s, s ∈ satd_instances c → s ∈ satds) new
    ∧ ∀ k c, new !! k = Some c → rec_chain_id c = chain_label (chain_id + k).
Proof.
  intros Hshuffle Hchoices. revert p chains chain_id.
  induction by_project as [|[project satds] rest IH]; intros p chains chain_id;
    simpl.
  - exists []. rewrite app_nil_r, Nat.add_0_r. by split_and!.
  - unfold project_chains. simpl.
    destruct (chain_loop_spec (choices p) project (shuffle p satds)
                (length (shuffle p satds)) 0 chains chain_id)
      as (new1 & -> & Hc1 & Hall1 & Hids1); [lia|done|].
    destruct (IH (S p) (chains ++ new1) (chain_id + length new1))
      as (new2 & -> & Hc2 & Hall2 & Hids2).
    exists (new1 ++ new2). split_and!.
    + rewrite <- app_assoc, length_app. f_equal. lia.
    + rewrite fmap_app, concat_app, Hc1, Hc2. simpl. by rewrite Hshuffle.
    + apply Forall_app. split.
      * eapply Forall_impl; [exact Hall1|]. intros c (Hp & Hl & Hb & Hin).
        split; [done|]. split; [done|]. exists satds.
        split; [rewrite Hp; by left|].
        intros s Hs. rewrite <- (Hshuffle p satds). by apply Hin.
      * eapply Forall_impl; [exact Hall2|]. intros c (Hl & Hb & ss & Hss & Hin).
        split; [done|]. split; [done|]. exists ss. split; [by right|done].
    + intros k c Hk. destruct (decide (k < length new1)) as [Hlt|Hge].
      * rewrite lookup_app_l in Hk by done. by apply Hids1.
      * rewrite lookup_app_r in Hk by lia. rewrite (Hids2 _ c Hk). f_equal. lia.
Qed.

(** X25. [generate_chains] puts every instance into exactly one chain: with
    shuffles that permute their list and choices from 1 to 7, the instances
    of all chains together are the given instances. The chain at position
    [k] has the id [CH] followed by [k + 1] in at least three digits; its
    length is the number of its instances, from 1 to 7, and all its
    instances are of its project. *)
Theorem generated_chains_partition_instances
    (shuffle : nat → list Satd → list Satd) (choices : nat → nat → nat)
    (all_satd_instances : list Satd) :
  (∀ p l, shuffle p l ≡ₚ l) →
  (∀ p k, 1 ≤ choices p k ≤ 7) →
  let chains := generate_chains shuffle choices all_satd_instances in
  concat (satd_instances <$> chains) ≡ₚ all_satd_instances
  ∧ ∀ k c, chains !! k = Some c →
      rec_chain_id c = chain_label (S k)
      ∧ rec_chain_length c = length (satd_instances c)
      ∧ 1 ≤ rec_chain_length c ≤ 7
      ∧ ∀ s, s ∈ satd_instances c → satd_project s = rec_project c.
Proof.
  intros Hshuffle Hchoices chains. subst chains. unfold generate_chains.
  destruct (each_project_spec shuffle choices
              (group_by_project all_satd_instances) 0 [] 1 Hshuffle Hchoices)
    as (new & -> & Hconcat & Hall & Hids).
  simpl. split; [by rewrite Hconcat, group_by_project_perm|].
  intros k c Hk. rewrite Forall_forall in Hall.
  destruct (Hall c) as (Hl & Hb & ss & Hss & Hin); [by eapply list_elem_of_lookup_2|].
  split_and!; try done; try lia.
  - by rewrite (Hids k c Hk).
  - intros s Hs. by apply (group_by_project_elem all_satd_instances _ ss), Hin.
Qed.

Lemma generated_chains_partition_instances_witness :
  concat (satd_instances <$>
            generate_chains (λ _ l, reverse l) (λ _ _, 2)
              [mkSatd "A" "x" "f" "t" "k"; mkSatd "B" "y" "f" "t" "k";
               mkSatd "A" "z" "f" "t" "k"])
  ≡ₚ [mkSatd "A" "x" "f" "t" "k"; mkSatd "B" "y" "f" "t" "k";
      mkSatd "A" "z" "f" "t" "k"].
Proof.
  apply (generated_chains_partition_instances (λ _ l, reverse l) (λ _ _, 2)).
  - intros p l. apply reverse_Permutation.
  - intros p k. lia.
Defined.

End generated_chains.
